(** * Safe-learning shields: benchmark data, solver wrapper and their properties

    This development embeds the parts of the safe-learning repository that
    its specification speaks about:

    - the benchmark entry points under [benchmarks/] and [back/], which build
      an [Environment] (dynamics and bound boxes) and, for some of them, a
      hard-coded initial [Shield] (gain, invariant, cover box);
    - the Gurobi wrapper [pympc/optimization/solvers/gurobi.py].

    Numbers.  numpy stores every matrix entry as an IEEE binary64 value.  The
    benchmark data is therefore kept as primitive floats, written with the
    literals of the source and combined with the float operations the source
    applies ([s_min -= origin]); the integer entries of an [np.matrix] of
    integers are written as the floats of the same value.  Geometric
    statements (half-space regions,
    boxes, the linear dynamics) are stated over the exact rational value of
    the stored numbers, see [Q_of_float]: constants are the stored doubles,
    the arithmetic on states is exact. *)

From Stdlib Require Import QArith Qabs Lqa ZArith Ascii.
From Stdlib Require Import Floats.PrimFloat Floats.SpecFloat Floats.FloatOps.
From Stdlib Require Import Sorting.Sorted.
From stdpp Require Import gmap strings list pretty option.

Set Warnings "-inexact-float".

(** ** Numbers *)

(** The exact value of a finite binary64 number; the benchmark constants are
    all finite, so the value given to infinities and NaN is never used. *)
Definition Q_of_float (f : float) : Q :=
  match Prim2SF f with
  | S754_finite s m e =>
      let v := if (0 <=? e)%Z then inject_Z (Z.pos m * 2 ^ e)
               else Qmake (Z.pos m) (Z.to_pos (2 ^ (- e))) in
      Qred (if s then Qopp v else v)
  | _ => 0%Q
  end.

Abbreviation fvec := (list float).
Abbreviation fmat := (list (list float)).
Abbreviation vec := (list Q).
Abbreviation mat := (list (list Q)).

Definition Qv (v : fvec) : vec := Q_of_float <$> v.
Definition Qm (m : fmat) : mat := Qv <$> m.

(** A numpy column vector [np.array([[a],[b],...])] is kept as the list of
    its entries. *)

(** [u - v] on float arrays of equal length (numpy's elementwise
    subtraction). *)
Definition fsub (u v : fvec) : fvec := zip_with PrimFloat.sub u v.

(** ** Linear algebra over the exact values *)

Definition dot (r x : vec) : Q := foldr Qplus 0%Q (zip_with Qmult r x).

(** [M * x] for an [np.matrix] [M] and a column [x]. *)
Definition mat_vec (M : mat) (x : vec) : vec := (fun r => dot r x) <$> M.

Definition vadd (u v : vec) : vec := zip_with Qplus u v.

(** [np.all(u <= v)] on two columns of the same length. *)
Definition vec_le (u v : vec) : bool :=
  bool_decide (length u = length v) &&
  forallb (fun p => Qle_bool p.1 p.2) (zip u v).

(** Membership in the half-space region [{x : H x <= c}]. *)
Definition in_region (H : mat) (c : vec) (x : vec) : bool :=
  vec_le (mat_vec H x) c.

(** Membership in the axis-aligned box [[lower, upper]]. *)
Definition in_box (lower upper : vec) (x : vec) : bool :=
  vec_le lower x && vec_le x upper.

(** ** Environment and Shield, as the entry points construct them

    Both classes live in modules that are not part of the sources at hand;
    the records below keep the constructor arguments in the order of the
    calls [Environment(A, B, u_min, u_max, s_min, s_max, x_min, x_max, Q, R)]
    and [Shield(env, K_list=..., inv_list=..., cover_list=..., bound=...)]. *)

Record Environment := mkEnvironment {
  env_A : fmat; env_B : fmat;
  env_u_min : fvec; env_u_max : fvec;
  env_s_min : fvec; env_s_max : fvec;
  env_x_min : fvec; env_x_max : fvec;
  env_Q : fmat; env_R : fmat
}.

Record Shield := mkShield {
  shield_env : Environment;
  K_list : list fmat;
  inv_list : list (fmat * fvec);
  cover_list : list (fmat * fvec * fvec * fvec);
  bound : nat
}.

(** Modelled from the spec: the linear model of the [Environment], whose
    class is not among the sources: one step [x' = A x + B u]. *)
Definition next_state (A B : mat) (x u : vec) : vec :=
  vadd (mat_vec A x) (mat_vec B u).

(** The closed loop under the linear feedback [u = K x]. *)
Definition closed_loop (env : Environment) (K : fmat) (x : vec) : vec :=
  next_state (Qm (env_A env)) (Qm (env_B env)) x (mat_vec (Qm K) x).

Definition in_invariant (inv : fmat * fvec) (x : vec) : bool :=
  in_region (Qm inv.1) (Qv inv.2) x.

Definition in_safety_bounds (env : Environment) (x : vec) : bool :=
  in_box (Qv (env_x_min env)) (Qv (env_x_max env)) x.

Definition in_cover (cover : fmat * fvec * fvec * fvec) (x : vec) : bool :=
  in_box (Qv cover.1.2) (Qv cover.2) x.

Definition state_dim (env : Environment) : nat := length (env_A env).

(** ** Paths

    [os.path.split] is Python's, here in its POSIX form ([posixpath.split]):
<<
    i = p.rfind('/') + 1
    head, tail = p[:i], p[i:]
    if head and head != '/'*len(head):
        head = head.rstrip('/')
    return head, tail
>> *)

Module posixpath.
Definition sep : ascii := "/"%char.

(** [p.rfind(sep) + 1]: one past the last separator, 0 without one. *)
Fixpoint rfind_sep_succ (p : list ascii) : nat :=
  match p with
  | [] => 0
  | c :: p' =>
      match rfind_sep_succ p' with
      | 0 => if Ascii.eqb c sep then 1 else 0
      | S k => S (S k)
      end
  end.

Fixpoint lstrip_sep (p : list ascii) : list ascii :=
  match p with
  | [] => []
  | c :: p' => if Ascii.eqb c sep then lstrip_sep p' else p
  end.

(** [head.rstrip(sep)] *)
Definition rstrip_sep (p : list ascii) : list ascii := rev (lstrip_sep (rev p)).

(** [head == sep*len(head)] *)
Definition all_sep (p : list ascii) : bool := forallb (Ascii.eqb sep) p.

Definition split_chars (p : list ascii) : list ascii * list ascii :=
  let i := rfind_sep_succ p in
  let head := take i p in
  let tail := drop i p in
  let head :=
    if negb (bool_decide (head = [])) && negb (all_sep head)
    then rstrip_sep head else head in
  (head, tail).

Definition split (p : string) : string * string :=
  let ht := split_chars (String.list_ascii_of_string p) in
  (String.string_of_list_ascii ht.1, String.string_of_list_ascii ht.2).
End posixpath.

(** ** Benchmark entry points

    Besides the data, each entry point computes the path of the file that
    holds the gain matrix, under its comment [# Shield]:
<<
    model_path = os.path.split(args['model_path'])[0]+'/'
    linear_func_model_name = 'K.model'
    model_path = model_path+linear_func_model_name+'.npy'
>>
    [args_model_path] below is [args['model_path']], which the entry points
    under [benchmarks/] choose by [retrain_nn]. *)

Module cruise.
Definition A : fmat := [[0.99501]]%float.
Definition B : fmat := [[0.0078125]]%float.
Definition s_min : fvec := [-1.0]%float.
Definition s_max : fvec := [1.0]%float.
Definition Q : fmat := [[1]]%float.
Definition R : fmat := [[0.0005]]%float.
Definition x_min : fvec := [-1.5]%float.
Definition x_max : fvec := [1.5]%float.
Definition u_min : fvec := [-10]%float.
Definition u_max : fvec := [10]%float.
Definition env : Environment :=
  mkEnvironment A B u_min u_max s_min s_max x_min x_max Q R.

Definition Ks : list fmat := [ [[-127.36128]]%float ].
Definition invs : list (fmat * fvec) :=
  [ ([[1]; [-1]]%float, [1; 1]%float) ].
Definition covers : list (fmat * fvec * fvec * fvec) :=
  match invs with
  | inv0 :: _ => [ (inv0.1, inv0.2, [-1]%float, [1]%float) ]
  | [] => []
  end.
Definition initial_shield (episode_len : nat) : Shield :=
  mkShield env Ks invs covers episode_len.

Definition args_model_path (retrain_nn : bool) (train_dir : string) : string :=
  if retrain_nn then train_dir +:+ "retrained_model.chkp"
  else train_dir +:+ "model.chkp".
Definition model_path (retrain_nn : bool) (train_dir : string) : string :=
  let model_path := (posixpath.split (args_model_path retrain_nn train_dir)).1 +:+ "/" in
  let linear_func_model_name := "K.model" in
  (model_path +:+ linear_func_model_name) +:+ ".npy".
(** The [train_dir] of the call under [__main__]. *)
Definition main_train_dir : string := "ddpg_chkp/cruise/240200280240200/".
End cruise.

Module quadcopter.
Definition A : fmat := [[1; 1]; [0; 1]]%float.
Definition B : fmat := [[0]; [1]]%float.
Definition s_min : fvec := [-0.5; -0.5]%float.
Definition s_max : fvec := [0.5; 0.5]%float.
Definition Q : fmat := [[1; 0]; [0; 0]]%float.
Definition R : fmat := [[1.0]]%float.
Definition x_min : fvec := [-1; -1]%float.
Definition x_max : fvec := [1; 1]%float.
Definition u_min : fvec := [-15]%float.
Definition u_max : fvec := [15]%float.
Definition env : Environment :=
  mkEnvironment A B u_min u_max s_min s_max x_min x_max Q R.

Definition Ks : list fmat := [ [[-2; -1]]%float ].
Definition invs : list (fmat * fvec) :=
  [ ([[1; 0]; [-1; 0]; [0; 1]; [0; -1]]%float,
     [0.5; 0.5; 0.5; 0.5]%float) ].
Definition covers : list (fmat * fvec * fvec * fvec) :=
  match invs with
  | inv0 :: _ => [ (inv0.1, inv0.2, [-0.5; -0.5]%float, [0.5; 0.5]%float) ]
  | [] => []
  end.
Definition initial_shield (episode_len : nat) : Shield :=
  mkShield env Ks invs covers episode_len.

Definition args_model_path (retrain_nn : bool) (train_dir : string) : string :=
  if retrain_nn then train_dir +:+ "retrained_model.chkp"
  else train_dir +:+ "model.chkp".
Definition model_path (retrain_nn : bool) (train_dir : string) : string :=
  let model_path := (posixpath.split (args_model_path retrain_nn train_dir)).1 +:+ "/" in
  let linear_func_model_name := "K.model" in
  (model_path +:+ linear_func_model_name) +:+ ".npy".
(** The [train_dir] of the call under [__main__]. *)
Definition main_train_dir : string := "ddpg_chkp/quadcopter/240200280240200/".
End quadcopter.

(** *** Benchmarks with an operating point

    [4-car-platoon.py] and [8-car-platoon_ddpg_shield.py] write the bounds in
    absolute coordinates and then move them to the frame of the operating
    point with four in-place subtractions.  The local variables that the
    subtractions update are kept in a record, each statement is a function on
    that record. *)

Record bounds := mkBounds {
  s_min : fvec; s_max : fvec; x_min : fvec; x_max : fvec
}.

(** [s_min -= origin], [s_max -= origin], [x_min -= origin],
    [x_max -= origin] *)
Definition isub_s_min (origin : fvec) (b : bounds) : bounds :=
  mkBounds (fsub (s_min b) origin) (s_max b) (x_min b) (x_max b).
Definition isub_s_max (origin : fvec) (b : bounds) : bounds :=
  mkBounds (s_min b) (fsub (s_max b) origin) (x_min b) (x_max b).
Definition isub_x_min (origin : fvec) (b : bounds) : bounds :=
  mkBounds (s_min b) (s_max b) (fsub (x_min b) origin) (x_max b).
Definition isub_x_max (origin : fvec) (b : bounds) : bounds :=
  mkBounds (s_min b) (s_max b) (x_min b) (fsub (x_max b) origin).

(** The block under the comment [#Coordination transformation]. *)
Definition coordination_transformation (origin : fvec) (b : bounds) : bounds :=
  isub_x_max origin (isub_x_min origin (isub_s_max origin (isub_s_min origin b))).

(** [(x_min + x_max) / 2.0] *)
Definition x_mid (b : bounds) : fvec :=
  zip_with (fun l u => ((l + u) / 2)%float) (x_min b) (x_max b).

Global Instance float_inhabited : Inhabited float := populate 0%float.

(** [m[i, j] = v] on an [np.matrix] *)
Definition mat_set (m : fmat) (i j : nat) (v : float) : fmat :=
  alter (fun row => <[j := v]> row) i m.

(** The loop that [4-car-platoon.py] and [magnetic-pointer.py] use to write
    the initial-state box as half-spaces [(mat, bias)] and as a cover box
    [(lower, upper)]:
<<
    for i in range(n):
        mat[2*i, i] = 1
        mat[2*i+1, i] = -1
        bias[2*i, 0] = s_max[i, 0]
        bias[2*i+1, 0] = s_max[i, 0]
        lower[i, 0] = s_min[i, 0]
        upper[i, 0] = s_max[i, 0]
>>
    All indices are in range in both files ([mat] is [2n x n], [bias] has
    [2n] rows, [s_min] and [s_max] have [n]), so no access raises. *)
Definition box_faces_body (s_min s_max : fvec)
    (st : fmat * fvec * fvec * fvec) (i : nat) : fmat * fvec * fvec * fvec :=
  let '(mat, bias, lower, upper) := st in
  let mat := mat_set mat (2 * i) i 1%float in
  let mat := mat_set mat (2 * i + 1) i (-1)%float in
  let bias := <[2 * i := s_max !!! i]> bias in
  let bias := <[2 * i + 1 := s_max !!! i]> bias in
  let lower := <[i := s_min !!! i]> lower in
  let upper := <[i := s_max !!! i]> upper in
  (mat, bias, lower, upper).

Definition np_zeros (rows cols : nat) : fmat := replicate rows (replicate cols 0%float).
Definition np_zeros_col (rows : nat) : fvec := replicate rows 0%float.

Definition box_faces (n : nat) (s_min s_max : fvec) : fmat * fvec * fvec * fvec :=
  foldl (box_faces_body s_min s_max)
        (np_zeros (2 * n) n, np_zeros_col (2 * n), np_zeros_col n, np_zeros_col n)
        (seq 0 n).

Module carplatoon4.
Definition A : fmat :=
  [ [1; 0; 0; 0; 0; 0; 0];
    [0; 1; 0.1; 0; 0; 0; 0];
    [0; 0; 1; 0; 0; 0; 0];
    [0; 0; 0; 1; 0.1; 0; 0];
    [0; 0; 0; 0; 1; 0; 0];
    [0; 0; 0; 0; 0; 1; 0.1];
    [0; 0; 0; 0; 0; 0; 1] ]%float.
Definition B : fmat :=
  [ [0.1; 0; 0; 0];
    [0; 0; 0; 0];
    [0.1; -0.1; 0; 0];
    [0; 0; 0; 0];
    [0; 0.1; -0.1; 0];
    [0; 0; 0; 0];
    [0; 0; 0.1; -0.1] ]%float.
Definition Q : fmat :=
  [ [1; 0; 0; 0; 0; 0; 0];
    [0; 1; 0; 0; 0; 0; 0];
    [0; 0; 1; 0; 0; 0; 0];
    [0; 0; 0; 1; 0; 0; 0];
    [0; 0; 0; 0; 1; 0; 0];
    [0; 0; 0; 0; 0; 1; 0];
    [0; 0; 0; 0; 0; 0; 1] ]%float.
Definition R : fmat :=
  (fun row : fvec => (fun v => (0.0005 * v)%float) <$> row) <$>
  ([ [1; 0; 0; 0]; [0; 1; 0; 0]; [0; 0; 1; 0]; [0; 0; 0; 1] ]%float : fmat).
Definition u_min : fvec := [-10; -10; -10; -10]%float.
Definition u_max : fvec := [10; 10; 10; 10]%float.

(** The bounds as first written, in absolute coordinates. *)
Definition raw : bounds :=
  {| s_min := [19.9; 0.9; -0.1; 0.9; -0.1; 0.9; -0.1]%float;
     s_max := [20.1; 1.1; 0.1; 1.1; 0.1; 1.1; 0.1]%float;
     x_min := [18; 0.5; -0.35; 0.5; -1; 0.5; -1]%float;
     x_max := [22; 1.5; 0.35; 1.5; 1; 1.5; 1]%float |}.
Definition origin : fvec := [20; 1; 0; 1; 0; 1; 0]%float.

(** The local variables after the coordinate transformation. *)
Definition locals : bounds := coordination_transformation origin raw.

Definition env : Environment :=
  mkEnvironment A B u_min u_max (s_min locals) (s_max locals)
                (x_min locals) (x_max locals) Q R.

Definition Ks : list fmat :=
  [ [ [-10; 0; 0; 0; 0; 0; 0];
      [-10; 0; 10; 0; 0; 0; 0];
      [-10; 0; 10; 0; 10; 0; 0];
      [-10; 0; 10; 0; 10; 0; 10] ]%float ].
Definition faces : fmat * fvec * fvec * fvec :=
  box_faces 7 (s_min locals) (s_max locals).
Definition mat : fmat := faces.1.1.1.
Definition bias : fvec := faces.1.1.2.
Definition lower : fvec := faces.1.2.
Definition upper : fvec := faces.2.
Definition invs : list (fmat * fvec) := [ (mat, bias) ].
Definition covers : list (fmat * fvec * fvec * fvec) := [ (mat, bias, lower, upper) ].
Definition initial_shield (episode_len : nat) : Shield :=
  mkShield env Ks invs covers episode_len.

Definition args_model_path (retrain_nn : bool) (train_dir : string) : string :=
  if retrain_nn then train_dir +:+ "retrained_model.chkp"
  else train_dir +:+ "model.chkp".
Definition model_path (retrain_nn : bool) (train_dir : string) : string :=
  let model_path := (posixpath.split (args_model_path retrain_nn train_dir)).1 +:+ "/" in
  let linear_func_model_name := "K.model" in
  (model_path +:+ linear_func_model_name) +:+ ".npy".
(** The [train_dir] of the call under [__main__]. *)
Definition main_train_dir : string := "ddpg_chkp/car-platoon/discrete/4/500400300600500400300/".
End carplatoon4.

Module magneticpointer.
Definition A : fmat :=
  [ [2.6629; -1.1644; 0.66598]; [2; 0; 0]; [0; 0.5; 0] ]%float.
Definition B : fmat := [ [0.25]; [0]; [0] ]%float.
Definition s_min : fvec := [-1.0; -1.0; -1.0]%float.
Definition s_max : fvec := [1.0; 1.0; 1.0]%float.
Definition Q : fmat := [ [1; 0; 0]; [0; 1; 0]; [0; 0; 1] ]%float.
Definition R : fmat := [ [1] ]%float.
Definition x_min : fvec := [-3.5; -3.5; -3.5]%float.
Definition x_max : fvec := [3.5; 3.5; 3.5]%float.
Definition u_min : fvec := [-15]%float.
Definition u_max : fvec := [15]%float.
Definition env : Environment :=
  mkEnvironment A B u_min u_max s_min s_max x_min x_max Q R.

Definition Ks : list fmat := [ [ [-10; 0; 0] ]%float ].
Definition faces : fmat * fvec * fvec * fvec := box_faces 3 s_min s_max.
Definition mat : fmat := faces.1.1.1.
Definition bias : fvec := faces.1.1.2.
Definition lower : fvec := faces.1.2.
Definition upper : fvec := faces.2.
Definition invs : list (fmat * fvec) := [ (mat, bias) ].
Definition covers : list (fmat * fvec * fvec * fvec) := [ (mat, bias, lower, upper) ].
Definition initial_shield (episode_len : nat) : Shield :=
  mkShield env Ks invs covers episode_len.

Definition args_model_path (retrain_nn : bool) (train_dir : string) : string :=
  if retrain_nn then train_dir +:+ "retrained_model.chkp"
  else train_dir +:+ "model.chkp".
Definition model_path (retrain_nn : bool) (train_dir : string) : string :=
  let model_path := (posixpath.split (args_model_path retrain_nn train_dir)).1 +:+ "/" in
  let linear_func_model_name := "K.model" in
  (model_path +:+ linear_func_model_name) +:+ ".npy".
(** The [train_dir] of the call under [__main__]. *)
Definition main_train_dir : string := "ddpg_chkp/magnetic_pointer/240200280240200/".
End magneticpointer.

Module carplatoon8.
Definition raw : bounds :=
  {| s_min := [19.9; 0.9; -0.1; 0.9; -0.1; 0.9; -0.1; 0.9; -0.1; 0.9; -0.1;
               0.9; -0.1; 0.9; -0.1]%float;
     s_max := [20.1; 1.1; 0.1; 1.1; 0.1; 1.1; 0.1; 1.1; 0.1; 1.1; 0.1;
               1.1; 0.1; 1.1; 0.1]%float;
     x_min := [18; 0.5; -1; 0.5; -1; 0.5; -1; 0.5; -1; 0.5; -1; 0.5; -1;
               0.5; -1]%float;
     x_max := [22; 1.5; 1; 1.5; 1; 1.5; 1; 1.5; 1; 1.5; 1; 1.5; 1; 1.5;
               1]%float |}.
Definition origin : fvec :=
  [20; 1; 0; 1; 0; 1; 0; 1; 0; 1; 0; 1; 0; 1; 0]%float.
Definition locals : bounds := coordination_transformation origin raw.

Definition A : fmat :=
  [ [1; 0; 0; 0; 0; 0; 0; 0; 0; 0; 0; 0; 0; 0; 0];
    [0; 1; 0.1; 0; 0; 0; 0; 0; 0; 0; 0; 0; 0; 0; 0];
    [0; 0; 1; 0; 0; 0; 0; 0; 0; 0; 0; 0; 0; 0; 0];
    [0; 0; 0; 1; 0.1; 0; 0; 0; 0; 0; 0; 0; 0; 0; 0];
    [0; 0; 0; 0; 1; 0; 0; 0; 0; 0; 0; 0; 0; 0; 0];
    [0; 0; 0; 0; 0; 1; 0.1; 0; 0; 0; 0; 0; 0; 0; 0];
    [0; 0; 0; 0; 0; 0; 1; 0; 0; 0; 0; 0; 0; 0; 0];
    [0; 0; 0; 0; 0; 0; 0; 1; 0.1; 0; 0; 0; 0; 0; 0];
    [0; 0; 0; 0; 0; 0; 0; 0; 1; 0; 0; 0; 0; 0; 0];
    [0; 0; 0; 0; 0; 0; 0; 0; 0; 1; 0.1; 0; 0; 0; 0];
    [0; 0; 0; 0; 0; 0; 0; 0; 0; 0; 1; 0; 0; 0; 0];
    [0; 0; 0; 0; 0; 0; 0; 0; 0; 0; 0; 1; 0.1; 0; 0];
    [0; 0; 0; 0; 0; 0; 0; 0; 0; 0; 0; 0; 1; 0; 0];
    [0; 0; 0; 0; 0; 0; 0; 0; 0; 0; 0; 0; 0; 1; 0.1];
    [0; 0; 0; 0; 0; 0; 0; 0; 0; 0; 0; 0; 0; 0; 1] ]%float.
Definition B : fmat :=
  [ [0.1; 0; 0; 0; 0; 0; 0; 0];
    [0; 0; 0; 0; 0; 0; 0; 0];
    [0.1; -0.1; 0; 0; 0; 0; 0; 0];
    [0; 0; 0; 0; 0; 0; 0; 0];
    [0; 0.1; -0.1; 0; 0; 0; 0; 0];
    [0; 0; 0; 0; 0; 0; 0; 0];
    [0; 0; 0.1; -0.1; 0; 0; 0; 0];
    [0; 0; 0; 0; 0; 0; 0; 0];
    [0; 0; 0; 0.1; -0.1; 0; 0; 0];
    [0; 0; 0; 0; 0; 0; 0; 0];
    [0; 0; 0; 0; 0.1; -0.1; 0; 0];
    [0; 0; 0; 0; 0; 0; 0; 0];
    [0; 0; 0; 0; 0; 0.1; -0.1; 0];
    [0; 0; 0; 0; 0; 0; 0; 0];
    [0; 0; 0; 0; 0; 0; 0.1; -0.1] ]%float.
(** [Q = np.zeros((15, 15)); np.fill_diagonal(Q, 1)] and
    [R = np.zeros((8, 8)); np.fill_diagonal(R, .0005)] *)
Definition fill_diagonal (n : nat) (v : float) : fmat :=
  (fun i => (fun j => if bool_decide (i = j) then v else 0%float)
              <$> seq 0 n) <$> seq 0 n.
Definition Q : fmat := fill_diagonal 15 1%float.
Definition R : fmat := fill_diagonal 8 0.0005%float.
Definition u_min : fvec := [-10; -10; -10; -10; -10; -10; -10; -10]%float.
Definition u_max : fvec := [10; 10; 10; 10; 10; 10; 10; 10]%float.

Definition env : Environment :=
  mkEnvironment A B u_min u_max (s_min locals) (s_max locals)
                (x_min locals) (x_max locals) Q R.

(** [args['model_path']]; [train_dir] is the fourth command-line
    argument. *)
Definition args_model_path (train_dir : string) : string :=
  train_dir +:+ "model.chkp".
Definition model_path (train_dir : string) : string :=
  let model_path := (posixpath.split (args_model_path train_dir)).1 +:+ "/" in
  let linear_func_model_name := "K.model" in
  (model_path +:+ linear_func_model_name) +:+ ".npy".
End carplatoon8.

Module tape.
Definition A : fmat :=
  [ [5.5197e-17; -3.5503e-17; 6.2468e-32];
    [2.7756e-17; 0; 0];
    [0; 2.7756e-17; 0] ]%float.
Definition B : fmat := [ [0.25]; [0]; [0] ]%float.
Definition s_min : fvec := [-1.0; -1.0; -1.0]%float.
Definition s_max : fvec := [1.0; 1.0; 1.0]%float.
Definition Q : fmat := [ [1; 0; 0]; [0; 1; 0]; [0; 0; 1] ]%float.
Definition R : fmat := [ [0.0005] ]%float.
Definition x_min : fvec := [-3; -3; -3]%float.
Definition x_max : fvec := [3; 3; 3]%float.
Definition u_min : fvec := [-10]%float.
Definition u_max : fvec := [10]%float.
Definition env : Environment :=
  mkEnvironment A B u_min u_max s_min s_max x_min x_max Q R.

Definition args_model_path (retrain_nn : bool) (train_dir : string) : string :=
  if retrain_nn then train_dir +:+ "retrained_model.chkp"
  else train_dir +:+ "model.chkp".
Definition model_path (retrain_nn : bool) (train_dir : string) : string :=
  let model_path := (posixpath.split (args_model_path retrain_nn train_dir)).1 +:+ "/" in
  let linear_func_model_name := "K.model" in
  (model_path +:+ linear_func_model_name) +:+ ".npy".
(** The [train_dir] of the call under [__main__]. *)
Definition main_train_dir : string := "ddpg_chkp/tape/240200280240200/".
End tape.

Module suspension.
Definition A : fmat :=
  [ [0.02366; -0.31922; 0.0012041; -4.0292e-17];
    [0.25; 0; 0; 0];
    [0; 0.0019531; 0; 0];
    [0; 0; 0.0019531; 0] ]%float.
Definition B : fmat := [ [256]; [0]; [0]; [0] ]%float.
Definition s_min : fvec := [-1.0; -1.0; -1.0; -1.0]%float.
Definition s_max : fvec := [1.0; 1.0; 1.0; 1.0]%float.
Definition Q : fmat :=
  [ [1; 0; 0; 0]; [0; 1; 0; 0]; [0; 0; 1; 0]; [0; 0; 0; 1] ]%float.
Definition R : fmat := [ [0.0005] ]%float.
Definition x_min : fvec := [-3; -3; -3; -3]%float.
Definition x_max : fvec := [3; 3; 3; 3]%float.
Definition u_min : fvec := [-10]%float.
Definition u_max : fvec := [10]%float.
Definition env : Environment :=
  mkEnvironment A B u_min u_max s_min s_max x_min x_max Q R.

Definition args_model_path (retrain_nn : bool) (train_dir : string) : string :=
  if retrain_nn then train_dir +:+ "retrained_model.chkp"
  else train_dir +:+ "model.chkp".
Definition model_path (retrain_nn : bool) (train_dir : string) : string :=
  let model_path := (posixpath.split (args_model_path retrain_nn train_dir)).1 +:+ "/" in
  let linear_func_model_name := "K.model" in
  (model_path +:+ linear_func_model_name) +:+ ".npy".
(** The [train_dir] of the call under [__main__]. *)
Definition main_train_dir : string := "ddpg_chkp/suspension/240200280240200/".
End suspension.

(** The entry points and the path each of them computes for the gain
    matrix. *)
Inductive entry_point :=
  | Cruise | Quadcopter | Carplatoon4 | Magneticpointer | Suspension | Tape
  | Carplatoon8.

Definition entry_args_model_path (e : entry_point) (retrain_nn : bool)
    (train_dir : string) : string :=
  match e with
  | Cruise => cruise.args_model_path retrain_nn train_dir
  | Quadcopter => quadcopter.args_model_path retrain_nn train_dir
  | Carplatoon4 => carplatoon4.args_model_path retrain_nn train_dir
  | Magneticpointer => magneticpointer.args_model_path retrain_nn train_dir
  | Suspension => suspension.args_model_path retrain_nn train_dir
  | Tape => tape.args_model_path retrain_nn train_dir
  | Carplatoon8 => carplatoon8.args_model_path train_dir
  end.

Definition entry_model_path (e : entry_point) (retrain_nn : bool)
    (train_dir : string) : string :=
  match e with
  | Cruise => cruise.model_path retrain_nn train_dir
  | Quadcopter => quadcopter.model_path retrain_nn train_dir
  | Carplatoon4 => carplatoon4.model_path retrain_nn train_dir
  | Magneticpointer => magneticpointer.model_path retrain_nn train_dir
  | Suspension => suspension.model_path retrain_nn train_dir
  | Tape => tape.model_path retrain_nn train_dir
  | Carplatoon8 => carplatoon8.model_path train_dir
  end.

(** The [Environment] each entry point constructs. *)
Definition entry_env (e : entry_point) : Environment :=
  match e with
  | Cruise => cruise.env
  | Quadcopter => quadcopter.env
  | Carplatoon4 => carplatoon4.env
  | Magneticpointer => magneticpointer.env
  | Suspension => suspension.env
  | Tape => tape.env
  | Carplatoon8 => carplatoon8.env
  end.



(** ** Shield entries and forward invariance *)

(** Modelled from the spec: a shield entry is the tuple of a gain, its
    invariant [(H, c)] and the cover [(H, c, lower, upper)]; the entries of a
    [Shield] are taken position by position from the three lists it is
    constructed with (the class itself is not among the sources). *)
Record ShieldEntry := mkShieldEntry {
  entry_K : fmat;
  entry_inv : fmat * fvec;
  entry_cover : fmat * fvec * fvec * fvec
}.

Definition shield_entries (s : Shield) : list ShieldEntry :=
  zip_with (fun K ic => mkShieldEntry K ic.1 ic.2)
           (K_list s) (zip (inv_list s) (cover_list s)).

(** The state after [n] steps of the closed loop. *)
Definition closed_loop_run (env : Environment) (K : fmat) (n : nat) (x : vec) : vec :=
  Nat.iter n (closed_loop env K) x.

(** Every state of the invariant stays in the invariant and in the safety
    bounds at every future step. *)
Definition forward_invariant (env : Environment) (e : ShieldEntry) : Prop :=
  ∀ x : vec, length x = state_dim env →
    in_invariant (entry_inv e) x = true →
    ∀ n : nat,
      in_invariant (entry_inv e) (closed_loop_run env (entry_K e) n x) = true ∧
      in_safety_bounds env (closed_loop_run env (entry_K e) n x) = true.

(** The weaker property: every state of the invariant is inside the safety
    bounds, and so is its successor under [u = K x]. *)
Definition within_bounds_for_one_step (env : Environment) (e : ShieldEntry) : Prop :=
  ∀ x : vec, length x = state_dim env →
    in_invariant (entry_inv e) x = true →
    ∀ n : nat, (n ≤ 1)%nat →
      in_safety_bounds env (closed_loop_run env (entry_K e) n x) = true.

Definition shield_forward_invariant (s : Shield) : Prop :=
  Forall (forward_invariant (shield_env s)) (shield_entries s).

(** The invariant of an entry lies inside the cover box paired with it. *)
Definition cover_sound (n : nat) (e : ShieldEntry) : Prop :=
  ∀ x : vec, length x = n →
    in_region (Qm (entry_cover e).1.1.1) (Qv (entry_cover e).1.1.2) x = true →
    in_cover (entry_cover e) x = true.

Definition shield_cover_sound (s : Shield) : Prop :=
  Forall (cover_sound (state_dim (shield_env s))) (shield_entries s).

(** The single entry of each hard-coded initial shield, written out. *)
Definition cruise_entry : ShieldEntry :=
  mkShieldEntry [[-127.36128]]%float
    ([[1]; [-1]]%float, [1; 1]%float)
    ([[1]; [-1]]%float, [1; 1]%float, [-1]%float, [1]%float).

Definition quadcopter_entry : ShieldEntry :=
  mkShieldEntry [[-2; -1]]%float
    ([[1; 0]; [-1; 0]; [0; 1]; [0; -1]]%float, [0.5; 0.5; 0.5; 0.5]%float)
    ([[1; 0]; [-1; 0]; [0; 1]; [0; -1]]%float, [0.5; 0.5; 0.5; 0.5]%float,
     [-0.5; -0.5]%float, [0.5; 0.5]%float).

Definition magneticpointer_entry : ShieldEntry :=
  mkShieldEntry [[-10; 0; 0]]%float
    ([[1; 0; 0]; [-1; 0; 0]; [0; 1; 0]; [0; -1; 0]; [0; 0; 1]; [0; 0; -1]]%float,
     [1; 1; 1; 1; 1; 1]%float)
    ([[1; 0; 0]; [-1; 0; 0]; [0; 1; 0]; [0; -1; 0]; [0; 0; 1]; [0; 0; -1]]%float,
     [1; 1; 1; 1; 1; 1]%float, [-1; -1; -1]%float, [1; 1; 1]%float).

Definition carplatoon4_entry : ShieldEntry :=
  mkShieldEntry
    [ [-10; 0; 0; 0; 0; 0; 0];
      [-10; 0; 10; 0; 0; 0; 0];
      [-10; 0; 10; 0; 10; 0; 0];
      [-10; 0; 10; 0; 10; 0; 10] ]%float
    (carplatoon4.mat, carplatoon4.bias)
    (carplatoon4.mat, carplatoon4.bias, carplatoon4.lower, carplatoon4.upper).

(** A state of the 4-car platoon, in shifted coordinates: the second
    coordinate (the first gap) sits at the stored value of [-0.1], all others
    at the operating point. *)
Definition carplatoon4_low_gap_state : vec :=
  Qv [0; -0.1; 0; 0; 0; 0; 0]%float.

(** ** Shield runtime *)






(** ** The Gurobi wrapper, [pympc/optimization/solvers/gurobi.py]

    Matrix entries are the exact values of the doubles numpy holds, so the
    comparisons below decide as the comparisons on the doubles do.  A raised
    exception ([IndexError], [KeyError], [ValueError], the [AttributeError]
    of an attribute read on [None], Gurobi's [GurobiError] for a parameter it
    refuses) is the result [None] of the option monad. *)

Module gurobi.

(** A two-dimensional numpy array: its [shape] and its items [a[i, j]]
  (read only for [i < shape0] and [j < shape1]). *)
Record ndarray := mk_ndarray {
shape0 : nat;
shape1 : nat;
item : nat → nat → Q
}.

(** [np.matrix(rows)] for a non-ragged list of rows. *)
Definition np_matrix (rows : mat) : ndarray :=
{| shape0 := length rows;
   shape1 := length (hd [] rows);
   item := fun i j => default 0%Q (rows !! i ≫= fun r => r !! j) |}.

(** [np.abs(a) > tol] *)
Definition gt_tol (tol a : Q) : bool := negb (Qle_bool (Qabs a) tol).

(** The default tolerances of [linear_expression] and
  [quadratic_expression]. *)
Definition linear_tol : Q := Q_of_float 1e-10%float.
Definition quadratic_tol : Q := Q_of_float 1e-7%float.

(** [grb.LinExpr]: the terms [coefficient * variable] in the order they were
  added and the constant.  A variable is the index [model.addVars] gave
  it. *)
Record LinExpr := mkLinExpr {
lin_terms : list (Q * nat);
lin_const : Q
}.

(** [grb.QuadExpr]: the terms [x_i * coefficient * x_j] and a linear part. *)
Record QuadExpr := mkQuadExpr {
quad_terms : list (Q * nat * nat);
quad_lin : LinExpr
}.

Definition LinExpr_new : LinExpr := mkLinExpr [] 0%Q.
Definition QuadExpr_new : QuadExpr := mkQuadExpr [] LinExpr_new.

(** [expr.add(c * x)] and [expr.add(c)] *)
Definition LinExpr_add_term (e : LinExpr) (c : Q) (v : nat) : LinExpr :=
mkLinExpr (lin_terms e ++ [(c, v)]) (lin_const e).
Definition LinExpr_add_const (e : LinExpr) (c : Q) : LinExpr :=
mkLinExpr (lin_terms e) (lin_const e + c)%Q.
(** [expr.add(other)] for two linear expressions *)
Definition LinExpr_add (e other : LinExpr) : LinExpr :=
mkLinExpr (lin_terms e ++ lin_terms other) (lin_const e + lin_const other)%Q.

(** The loop over [j] in [linear_expression]: the terms of row [i]. *)
Fixpoint linear_terms (row : nat → Q) (x : list nat) (tol : Q)
  (js : list nat) (expr : LinExpr) : option LinExpr :=
match js with
| [] => Some expr
| j :: js' =>
    if gt_tol tol (row j)
    then v ← x !! j; linear_terms row x tol js' (LinExpr_add_term expr (row j) v)
    else linear_terms row x tol js' expr
end.

(** One turn of the loop over [i] in [linear_expression]. *)
Definition linear_row (A : ndarray) (b : vec) (x : list nat) (tol : Q)
  (i : nat) : option LinExpr :=
expr ← linear_terms (item A i) x tol (seq 0 (shape1 A)) LinExpr_new;
b_i ← b !! i;
Some (if gt_tol tol b_i then LinExpr_add_const expr b_i else expr).

(** [linear_expression(A, b, x, tol)]: the expressions [A_i x + b_i], one
  per row of [A]. *)
Definition linear_expression (A : ndarray) (b : vec) (x : list nat) (tol : Q)
  : option (list LinExpr) :=
mapM (linear_row A b x tol) (seq 0 (shape0 A)).

(** The loop over [j] in [quadratic_expression], for a fixed [i]. *)
Fixpoint quadratic_terms (H : ndarray) (x : list nat) (tol : Q) (i : nat)
  (js : list nat) (expr : QuadExpr) : option QuadExpr :=
match js with
| [] => Some expr
| j :: js' =>
    if gt_tol tol (item H i j)
    then x_i ← x !! i; x_j ← x !! j;
         quadratic_terms H x tol i js'
           (mkQuadExpr (quad_terms expr ++ [(item H i j, x_i, x_j)]) (quad_lin expr))
    else quadratic_terms H x tol i js' expr
end.

Fixpoint quadratic_rows (H : ndarray) (x : list nat) (tol : Q)
  (rows : list nat) (expr : QuadExpr) : option QuadExpr :=
match rows with
| [] => Some expr
| i :: rows' =>
    expr' ← quadratic_terms H x tol i (seq 0 (shape1 H)) expr;
    quadratic_rows H x tol rows' expr'
end.

(** [quadratic_expression(H, x, tol)]: the expression [x' H x]. *)
Definition quadratic_expression (H : ndarray) (x : list nat) (tol : Q)
  : option QuadExpr :=
quadratic_rows H x tol (seq 0 (shape0 H)) QuadExpr_new.

(** *** The model *)

Inductive vtype := CONTINUOUS | BINARY.
Inductive sense := LESS_EQUAL | EQUAL.

(** A constraint [expr <= 0] or [expr == 0] with its name. *)
Record Constr := mkConstr {
constr_name : string;
constr_expr : LinExpr;
constr_sense : sense
}.

(** What the wrapper puts into a [grb.Model]: one type per variable (all
  variables have lower bound minus infinity), the constraints, the
  objective and the parameters. *)
Record Model := mkModel {
model_vars : list vtype;
model_constrs : list Constr;
model_objective : QuadExpr;
model_params : gmap string Q
}.

(** The model with [parameter] set to [value], and with the parameters of
  [kwargs] set one after the other: what [model.setParam] leaves behind
  when Gurobi accepts the parameter (see [setParam] below). *)
Definition with_param (model : Model) (parameter : string) (value : Q) : Model :=
mkModel (model_vars model) (model_constrs model) (model_objective model)
        (<[parameter := value]> (model_params model)).

Definition with_params (model : Model) (kwargs : list (string * Q)) : Model :=
foldl (fun m kv => with_param m kv.1 kv.2) model kwargs.

(** [model.getConstrByName(name)]: a constraint of the model with that name,
  [None] when there is none. *)
Definition getConstrByName (model : Model) (name : string) : option Constr :=
List.find (fun constr => String.eqb (constr_name constr) name)
          (model_constrs model).

(** The constraints named [prefix + str(i)] of [enumerate(exprs)]. *)
Definition named_constrs (prefix : string) (s : sense) (exprs : list LinExpr)
  : list Constr :=
imap (fun i expr => mkConstr (prefix +:+ pretty i) expr s) exprs.

(** [.5 * expr] *)
Definition QuadExpr_half (e : QuadExpr) : QuadExpr :=
mkQuadExpr ((fun t => ((1 # 2) * t.1.1, t.1.2, t.2)%Q) <$> quad_terms e)
           (mkLinExpr ((fun t => ((1 # 2) * t.1, t.2)%Q) <$> lin_terms (quad_lin e))
                      ((1 # 2) * lin_const (quad_lin e))%Q).

(** [_build_model(H, f, A, b, C, d)].  [f], [b] and [d] are columns;
  [n_x = max(f.shape)] is the length of [f], or 1 for an empty column, for
  which [f.reshape(1, 1)] raises. *)
Definition _build_model (H : option ndarray) (f : vec) (A : ndarray) (b : vec)
  (C : option ndarray) (d : option vec) : option Model :=
let n_x := length f `max` 1 in
let x := seq 0 n_x in
ineq ← linear_expression A (Qopp <$> b) x linear_tol;
eq ← match C, d with
     | Some C, Some d => linear_expression C (Qopp <$> d) x linear_tol
     | _, _ => Some []
     end;
cost ← match H with
       | Some H => QuadExpr_half <$> quadratic_expression H x quadratic_tol
       | None => Some QuadExpr_new
       end;
guard (length f ≠ 0);;
let f_row := mk_ndarray 1 n_x (fun _ j => default 0%Q (f !! j)) in
expr ← linear_expression f_row [0%Q] x linear_tol;
expr_0 ← expr !! 0;
Some (mkModel (replicate n_x CONTINUOUS)
              (named_constrs "ineq_" LESS_EQUAL ineq ++ named_constrs "eq_" EQUAL eq)
              (mkQuadExpr (quad_terms cost) (LinExpr_add (quad_lin cost) expr_0))
              ∅).

(** *** The solver

  [model.optimize()] is Gurobi's and is taken to return; what the wrapper
  reads back afterwards is the status code, the objective value, the
  attribute [x] of the variables and the attributes [Pi] and [CBasis] of the
  constraints.  The wrapper gets at a constraint with
  [model.getConstrByName]; [attr_Pi] and [attr_CBasis] give the solver's
  value for the constraint of a name, and are read only for a constraint
  that the lookup has found: [constr.getAttr] on the [None] of a failed
  lookup raises. *)

Definition Status := Z.
Definition OPTIMAL : Status := 2%Z.
Definition INFEASIBLE : Status := 3%Z.
Definition INF_OR_UNBD : Status := 4%Z.

Record Optimized := mkOptimized {
status : Status;
objVal : Q;
attr_x : vec;
attr_Pi : string → Q;
attr_CBasis : string → Z
}.

(** The values held by the solution dictionary. *)
Inductive pyval :=
| PyNone
| PyFloat (v : Q)
| PyArray (a : vec)
| PyList (l : list nat).

(** [np.vstack] of a list of scalars: the column of them; raises on the
  empty list. *)
Definition np_vstack (l : vec) : option vec :=
match l with [] => None | _ => Some l end.

(** [np.where(a > tol)[0].tolist()] for a column [a] *)
Definition np_where_gt (a : vec) (tol : Q) : list nat :=
(imap (fun i v => (i, v)) a) ≫= fun iv => if negb (Qle_bool iv.2 tol) then [iv.1] else [].

(** The loop
<<
    mult = []
    for i in range(rows):
        constr = model.getConstrByName(prefix + str(i))
        mult.append(-constr.getAttr('Pi'))
>>
  of [_reorganize_solution], on the model [model] with the solver's answer
  [m]. *)
Definition multipliers (model : Model) (m : Optimized) (prefix : string)
    (rows : nat) : option vec :=
mapM (fun i => constr ← getConstrByName model (prefix +:+ pretty i);
               Some (Qopp (attr_Pi m (constr_name constr))))
     (seq 0 rows).

(** [_reorganize_solution(model, A, C, continuous)] on the model [model] with
  the solver's answer [m]. *)
Definition _reorganize_solution (model : Model) (m : Optimized) (A : ndarray)
    (C : option ndarray) (continuous : bool) : option (gmap string pyval) :=
let sol : gmap string pyval := <["argmin" := PyNone]> (<["min" := PyNone]> ∅) in
let sol :=
  if continuous
  then <["multiplier_equality" := PyNone]>
         (<["multiplier_inequality" := PyNone]> (<["active_set" := PyNone]> sol))
  else sol in
if bool_decide (status m = OPTIMAL) then
  let sol := <["min" := PyFloat (objVal m)]> sol in
  let sol := <["argmin" := PyArray (attr_x m)]> sol in
  if continuous then
    ineq_mult ← multipliers model m "ineq_" (shape0 A);
    mult ← np_vstack ineq_mult;
    let sol := <["multiplier_inequality" := PyArray mult]> sol in
    match C with
    | Some C =>
        if bool_decide (0 < shape0 C) then
          eq_mult ← multipliers model m "eq_" (shape0 C);
          mult ← np_vstack eq_mult;
          Some (<["multiplier_equality" := PyArray mult]> sol)
        else Some sol
    | None => Some sol
    end
  else Some sol
else Some sol.

(** The loop of [linear_program] that collects the active set:
<<
    for i in range(A.shape[0]):
        constr = model.getConstrByName('ineq_'+str(i))
        if constr.getAttr('CBasis') == -1:
            sol['active_set'].append(i)
>> *)
Fixpoint nonbasic_rows (model : Model) (m : Optimized) (rows : list nat)
    : option (list nat) :=
match rows with
| [] => Some []
| i :: rows' =>
    constr ← getConstrByName model ("ineq_" +:+ pretty i);
    active_set ← nonbasic_rows model m rows';
    Some (if bool_decide (attr_CBasis m (constr_name constr) = (-1)%Z)
          then i :: active_set else active_set)
end.

(** The model [linear_program] and [quadratic_program] have built and
  configured when they call [model.optimize()], every [model.setParam]
  having gone through. *)
Definition linear_program_model (f : vec) (A : ndarray) (b : vec)
    (C : option ndarray) (d : option vec) (kwargs : list (string * Q))
    : option Model :=
model ← _build_model None f A b C d;
Some (with_params (with_param model "OutputFlag" 0%Q) kwargs).

Definition quadratic_program_model (H : ndarray) (f : vec) (A : ndarray)
    (b : vec) (C : option ndarray) (d : option vec)
    (kwargs : list (string * Q)) : option Model :=
model ← _build_model (Some H) f A b C d;
Some (with_params
        (with_param (with_param model "OutputFlag" 0%Q) "BarConvTol"
                    (Q_of_float 1e-10%float))
        kwargs).

Section wrapper.
(** Gurobi's part of a call.  [accepts parameter value] tells whether
    [model.setParam(parameter, value)] goes through: Gurobi raises
    [GurobiError] for a name it does not know and for a value out of the
    parameter's range.  [optimize] is [model.optimize()]. *)
Variable accepts : string → Q → bool.
Variable optimize : Model → Optimized.

(** [model.setParam(parameter, value)] *)
Definition setParam (model : Model) (parameter : string) (value : Q)
    : option Model :=
  guard (accepts parameter value = true);; Some (with_param model parameter value).

(** [for parameter, value in kwargs.items(): model.setParam(parameter, value)] *)
Fixpoint setParams (model : Model) (kwargs : list (string * Q)) : option Model :=
  match kwargs with
  | [] => Some model
  | kv :: kwargs' => model' ← setParam model kv.1 kv.2; setParams model' kwargs'
  end.

(** Gurobi accepts every parameter of the list. *)
Definition accepted (kwargs : list (string * Q)) : Prop :=
  Forall (fun kv => accepts kv.1 kv.2 = true) kwargs.

Definition linear_program (f : vec) (A : ndarray) (b : vec)
    (C : option ndarray) (d : option vec) (kwargs : list (string * Q))
    : option (gmap string pyval) :=
  model ← _build_model None f A b C d;
  model ← setParam model "OutputFlag" 0%Q;
  model ← setParams model kwargs;
  let m := optimize model in
  sol ← _reorganize_solution model m A C true;
  if bool_decide (status m = OPTIMAL) then
    active_set ← nonbasic_rows model m (seq 0 (shape0 A));
    Some (<["active_set" := PyList active_set]> sol)
  else Some sol.

Definition quadratic_program (H : ndarray) (f : vec) (A : ndarray) (b : vec)
    (C : option ndarray) (d : option vec) (tol : Q)
    (kwargs : list (string * Q)) : option (gmap string pyval) :=
  model ← _build_model (Some H) f A b C d;
  model ← setParam model "OutputFlag" 0%Q;
  model ← setParam model "BarConvTol" (Q_of_float 1e-10%float);
  model ← setParams model kwargs;
  let m := optimize model in
  sol ← _reorganize_solution model m A C true;
  if bool_decide (status m = OPTIMAL) then
    match sol !! "multiplier_inequality" with
    | Some (PyArray mult) =>
        Some (<["active_set" := PyList (np_where_gt mult tol)]> sol)
    | _ => None
    end
  else Some sol.

(** [x[i].setAttr('vtype', grb.GRB.BINARY)] on the list [x = model.getVars()];
    an index past the end raises. *)
Definition set_binary (vars : list vtype) (i : nat) : option (list vtype) :=
  guard (i < length vars);; Some (<[i := BINARY]> vars).

Fixpoint set_binaries (vars : list vtype) (idx : list nat) : option (list vtype) :=
  match idx with
  | [] => Some vars
  | i :: idx' => vars' ← set_binary vars i; set_binaries vars' idx'
  end.

(** The model [mixed_integer_quadratic_program] has built and configured
    when it calls [model.optimize()], every [model.setParam] having gone
    through; [range(nc, A.shape[1])] is [seq nc (shape1 A - nc)]. *)
Definition mixed_integer_quadratic_program_model (nc : nat) (H : ndarray)
    (f : vec) (A : ndarray) (b : vec) (C : option ndarray) (d : option vec)
    (kwargs : list (string * Q)) : option Model :=
  model ← _build_model (Some H) f A b C d;
  vars ← set_binaries (model_vars model) (seq nc (shape1 A - nc));
  let model := mkModel vars (model_constrs model) (model_objective model)
                       (model_params model) in
  Some (with_params (with_param model "OutputFlag" 0%Q) kwargs).

Definition mixed_integer_quadratic_program (nc : nat) (H : ndarray)
    (f : vec) (A : ndarray) (b : vec) (C : option ndarray) (d : option vec)
    (kwargs : list (string * Q)) : option (gmap string pyval) :=
  model ← _build_model (Some H) f A b C d;
  vars ← set_binaries (model_vars model) (seq nc (shape1 A - nc));
  let model := mkModel vars (model_constrs model) (model_objective model)
                       (model_params model) in
  model ← setParam model "OutputFlag" 0%Q;
  model ← setParams model kwargs;
  _reorganize_solution model (optimize model) A C false.
End wrapper.

(** A Gurobi that knows the two parameters the wrapper sets itself, with the
  ranges its reference manual gives them ([OutputFlag] 0 or 1, [BarConvTol]
  between 0 and 1), and no other parameter. *)
Definition wrapper_parameters (parameter : string) (value : Q) : bool :=
(String.eqb parameter "OutputFlag" && (Qeq_bool value 0 || Qeq_bool value 1)) ||
(String.eqb parameter "BarConvTol" && Qle_bool 0 value && Qle_bool value 1).

(** [A_i x], the product of row [i] with the column [x]. *)
Definition row_dot (A : ndarray) (i : nat) (x : vec) : Q :=
  foldr Qplus 0%Q ((fun j => item A i j * default 0 (x !! j))%Q <$> seq 0 (shape1 A)).

(** The inequality rows tight at [x]: [{i | A_i x = b_i}]. *)
Definition tight_rows (A : ndarray) (b : vec) (x : vec) : list nat :=
  filter (fun i => Qeq_bool (row_dot A i x) (default 0%Q (b !! i)) = true)
         (seq 0 (shape0 A)).

(** The Karush-Kuhn-Tucker conditions of [min .5 x' H x + f' x s.t. A x <= b]
    at [x] with multipliers [lam] ([H] absent for a linear program):
    stationarity, primal and dual feasibility, complementary slackness. *)
Definition kkt_point (H : option ndarray) (f : vec) (A : ndarray) (b : vec)
    (x lam : vec) : bool :=
  forallb (fun j =>
             Qeq_bool
               (match H with Some H => row_dot H j x | None => 0 end
                + default 0 (f !! j)
                + foldr Qplus 0 ((fun i => item A i j * default 0 (lam !! i))
                                   <$> seq 0 (shape0 A)))%Q
               0%Q)
          (seq 0 (length x)) &&
  forallb (fun i =>
             Qle_bool (row_dot A i x) (default 0%Q (b !! i)) &&
             Qle_bool 0 (default 0%Q (lam !! i)) &&
             Qeq_bool (default 0 (lam !! i) * (row_dot A i x - default 0 (b !! i)))%Q 0%Q)
          (seq 0 (shape0 A)).



Definition five_fields : gset string :=
  {[ "min"; "argmin"; "active_set"; "multiplier_inequality"; "multiplier_equality" ]}.

(** The five field names, each with what the dictionary holds under it
    ([None] for a missing key). *)
Definition read_fields (sol : gmap string pyval) : list (string * option pyval) :=
  (fun field => (field, sol !! field)) <$>
  ["min"; "argmin"; "active_set"; "multiplier_inequality"; "multiplier_equality"].

(** Two degenerate programs and the answers of an exact solver.

    [min .5 x^2 s.t. x <= 0]: the optimum [x = 0] makes the constraint tight
    with multiplier 0.

    [min -x s.t. x <= 1, 2 x <= 2]: the optimum [x = 1] makes both rows
    tight; a basic solution has one of them non-basic ([CBasis = -1], dual
    value [Pi = -1]) and the other basic ([CBasis = 0], [Pi = 0]). *)
Definition weakly_active_qp_H : ndarray := np_matrix [[1]]%Q.
Definition weakly_active_qp_A : ndarray := np_matrix [[1]]%Q.
Definition weakly_active_qp_optimum (model : Model) : Optimized :=
  mkOptimized OPTIMAL 0 [0]%Q (fun _ => 0%Q) (fun _ => 0%Z).

Definition duplicate_row_lp_A : ndarray := np_matrix [[1]; [2]]%Q.
Definition duplicate_row_lp_optimum (model : Model) : Optimized :=
  mkOptimized OPTIMAL (-1) [1]%Q
    (fun name => if String.eqb name "ineq_0" then (-1)%Q else 0%Q)
    (fun name => if String.eqb name "ineq_0" then (-1)%Z else 0%Z).

(** [min x s.t. x <= 0] is unbounded below. *)
Definition unbounded_lp_A : ndarray := np_matrix [[1]]%Q.

(** The value of an expression at the point [p], variable [v] taking the
    value [p[v]]. *)
Definition LinExpr_value (expr : LinExpr) (p : vec) : Q :=
  (foldr (fun t acc => t.1 * default 0 (p !! t.2) + acc) 0 (lin_terms expr)
   + lin_const expr)%Q.

Definition QuadExpr_value (expr : QuadExpr) (p : vec) : Q :=
  (foldr (fun t acc =>
            default 0 (p !! t.1.2) * t.1.1 * default 0 (p !! t.2) + acc)
         0 (quad_terms expr)
   + LinExpr_value (quad_lin expr) p)%Q.

(** [sum(|p_j| for j in range(n))] *)
Definition norm1 (n : nat) (p : vec) : Q :=
  foldr Qplus 0%Q ((fun j => Qabs (default 0%Q (p !! j))) <$> seq 0 n).

(** [p' H p], the sum of [p_i H[i,j] p_j] over the entries of [H] *)
Definition quad_form (H : ndarray) (p : vec) : Q :=
  foldr Qplus 0%Q ((fun i => default 0 (p !! i) * row_dot H i p)%Q <$> seq 0 (shape0 H)).

(** [f' p] for the column [f] *)
Definition lin_form (f : vec) (p : vec) : Q :=
  foldr Qplus 0%Q ((fun j => default 0 (f !! j) * default 0 (p !! j))%Q
                     <$> seq 0 (length f)).

End gurobi.

(** * Properties *)

Local Open Scope Q_scope.

(** ** Tools for regions and boxes *)

Lemma Q_of_float_examples :
  Q_of_float 0.5 = 1 # 2 ∧ Q_of_float (-1.5) = -3 # 2 ∧ Q_of_float 22 = 22 ∧
  Q_of_float 0.1 = 3602879701896397 # 36028797018963968.
Proof. split_and!; vm_compute; reflexivity. Qed.

Lemma vec_le_nil : vec_le [] [] = true.
Proof. reflexivity. Qed.

Lemma vec_le_cons (a b : Q) (u v : vec) :
  vec_le (a :: u) (b :: v) = true ↔ a <= b ∧ vec_le u v = true.
Proof.
  unfold vec_le. cbn [length zip zip_with forallb fst snd].
  rewrite !andb_true_iff, !bool_decide_eq_true, Qle_bool_iff.
  split; intros H;
    [destruct H as [Hl [Hab Hf]] | destruct H as [Hab [Hl Hf]]];
    repeat split; auto.
Qed.

(** Replace the float data of the goal and the context by its exact values. *)
Ltac float_values :=
  repeat match goal with
  | |- context [Qm ?m] =>
      let c := eval vm_compute in (Qm m) in change (Qm m) with c
  | |- context [Qv ?v] =>
      let c := eval vm_compute in (Qv v) in change (Qv v) with c
  | H : context [Qm ?m] |- _ =>
      let c := eval vm_compute in (Qm m) in change (Qm m) with c in H
  | H : context [Qv ?v] |- _ =>
      let c := eval vm_compute in (Qv v) in change (Qv v) with c in H
  end.

Ltac unfold_geometry :=
  cbv [in_invariant in_safety_bounds in_cover in_box in_region closed_loop
       next_state mat_vec vadd dot fmap list_fmap zip_with foldr
       fst snd env_A env_B env_x_min env_x_max
       entry_inv entry_K entry_cover] in *.

(** Turn the boolean tests on concrete-length vectors into inequalities. *)
Ltac bool_props :=
  repeat match goal with
  | H : _ && _ = true |- _ => apply andb_true_iff in H; destruct H
  | H : vec_le (_ :: _) (_ :: _) = true |- _ =>
      apply vec_le_cons in H; destruct H
  | H : vec_le [] [] = true |- _ => clear H
  | |- _ && _ = true => apply andb_true_iff; split
  | |- vec_le (_ :: _) (_ :: _) = true => apply vec_le_cons; split
  | |- vec_le [] [] = true => reflexivity
  | |- _ ∧ _ => split
  end.

(** Vectors of a known small length. *)
Ltac vec_cases x H :=
  repeat (destruct x as [|? x]; try discriminate H); clear H.

(** ** Forward invariance of the hard-coded shields (C1) *)

Lemma closed_loop_run_S (env : Environment) (K : fmat) (n : nat) (x : vec) :
  closed_loop_run env K (S n) x = closed_loop env K (closed_loop_run env K n x).
Proof. reflexivity. Qed.

Lemma cruise_shield_entries (episode_len : nat) :
  shield_entries (cruise.initial_shield episode_len) = [cruise_entry].
Proof. reflexivity. Qed.

Lemma quadcopter_shield_entries (episode_len : nat) :
  shield_entries (quadcopter.initial_shield episode_len) = [quadcopter_entry].
Proof. reflexivity. Qed.

Lemma magneticpointer_shield_entries (episode_len : nat) :
  shield_entries (magneticpointer.initial_shield episode_len) = [magneticpointer_entry].
Proof. reflexivity. Qed.

Lemma carplatoon4_shield_entries (episode_len : nat) :
  shield_entries (carplatoon4.initial_shield episode_len) = [carplatoon4_entry].
Proof. reflexivity. Qed.

(** The stored gain of the cruise benchmark cancels the dynamics exactly:
    [-127.36128] is [-128] times [0.99501] also after rounding to binary64,
    and [B] is [1/128]. *)
Lemma cruise_gain_cancels :
  Qm cruise.A = [[4481126665229917 # 4503599627370496]] ∧
  Qm cruise.B = [[1 # 128]] ∧
  Qm (entry_K cruise_entry) = [[-4481126665229917 # 35184372088832]] ∧
  (4481126665229917 # 4503599627370496) +
    (1 # 128) * (-4481126665229917 # 35184372088832) == 0.
Proof. repeat split; vm_compute; reflexivity. Qed.

Lemma cruise_invariant_in_bounds (x1 : Q) :
  in_invariant (entry_inv cruise_entry) [x1] = true →
  in_safety_bounds cruise.env [x1] = true.
Proof.
  intros Hin.
  unfold cruise_entry, cruise.env, cruise.x_min, cruise.x_max in *.
  unfold_geometry. float_values. unfold_geometry.
  bool_props; lra.
Qed.

Lemma cruise_closed_loop_step (x1 : Q) :
  in_invariant (entry_inv cruise_entry) [x1] = true →
  ∃ y1, closed_loop cruise.env (entry_K cruise_entry) [x1] = [y1] ∧
        in_invariant (entry_inv cruise_entry) [y1] = true.
Proof.
  intros Hin. eexists. split; [reflexivity|].
  unfold cruise_entry, cruise.env, cruise.A, cruise.B in *.
  unfold_geometry. float_values. unfold_geometry.
  bool_props; lra.
Qed.

Lemma cruise_run_in_invariant (x1 : Q) (n : nat) :
  in_invariant (entry_inv cruise_entry) [x1] = true →
  ∃ y1, closed_loop_run cruise.env (entry_K cruise_entry) n [x1] = [y1] ∧
        in_invariant (entry_inv cruise_entry) [y1] = true.
Proof.
  intros Hin. induction n as [|n IH].
  - exists x1. split; [reflexivity | exact Hin].
  - destruct IH as (y & Hrun & Hy).
    destruct (cruise_closed_loop_step y Hy) as (z & Hstep & Hz).
    exists z. split; [|exact Hz].
    rewrite closed_loop_run_S, Hrun. exact Hstep.
Qed.

Lemma cruise_entry_forward_invariant : forward_invariant cruise.env cruise_entry.
Proof.
  intros x Hlen Hin n.
  change (state_dim cruise.env) with 1%nat in Hlen.
  vec_cases x Hlen.
  destruct (cruise_run_in_invariant q n Hin) as (y & Hrun & Hy).
  rewrite Hrun. split; [exact Hy | exact (cruise_invariant_in_bounds y Hy)].
Qed.

Lemma quadcopter_one_step_in_bounds (x : vec) :
  length x = 2%nat →
  in_invariant (entry_inv quadcopter_entry) x = true →
  in_safety_bounds quadcopter.env x = true ∧
  in_safety_bounds quadcopter.env
    (closed_loop quadcopter.env (entry_K quadcopter_entry) x) = true.
Proof.
  intros Hlen Hin. vec_cases x Hlen.
  unfold quadcopter_entry, quadcopter.env, quadcopter.A, quadcopter.B,
    quadcopter.x_min, quadcopter.x_max in *.
  unfold_geometry. float_values. unfold_geometry.
  bool_props; lra.
Qed.

Lemma magneticpointer_one_step_in_bounds (x : vec) :
  length x = 3%nat →
  in_invariant (entry_inv magneticpointer_entry) x = true →
  in_safety_bounds magneticpointer.env x = true ∧
  in_safety_bounds magneticpointer.env
    (closed_loop magneticpointer.env (entry_K magneticpointer_entry) x) = true.
Proof.
  intros Hlen Hin. vec_cases x Hlen.
  unfold magneticpointer_entry, magneticpointer.env, magneticpointer.A,
    magneticpointer.B, magneticpointer.x_min, magneticpointer.x_max in *.
  unfold_geometry. float_values. unfold_geometry.
  bool_props; lra.
Qed.

Lemma carplatoon4_one_step_in_bounds (x : vec) :
  length x = 7%nat →
  in_invariant (entry_inv carplatoon4_entry) x = true →
  in_safety_bounds carplatoon4.env x = true ∧
  in_safety_bounds carplatoon4.env
    (closed_loop carplatoon4.env (entry_K carplatoon4_entry) x) = true.
Proof.
  intros Hlen Hin. vec_cases x Hlen.
  unfold carplatoon4_entry, carplatoon4.env in *.
  unfold_geometry. float_values. unfold_geometry.
  bool_props; lra.
Qed.

(** The shields of the magnetic pointer and of the 4-car platoon are not
    forward invariant either: [(1, -1, 1)] leaves the invariant of the
    magnetic pointer after one step and its safety bounds after two, and the
    platoon state with gap error and relative speed [0.1] leaves the
    invariant after one step. *)
Lemma seed_shields_not_forward_invariant :
  in_invariant (entry_inv magneticpointer_entry) [1; -1; 1] = true ∧
  in_invariant (entry_inv magneticpointer_entry)
    (closed_loop_run magneticpointer.env (entry_K magneticpointer_entry) 1
                     [1; -1; 1]) = false ∧
  in_safety_bounds magneticpointer.env
    (closed_loop_run magneticpointer.env (entry_K magneticpointer_entry) 2
                     [1; -1; 1]) = false ∧
  in_invariant (entry_inv carplatoon4_entry)
    (Qv [0; 0.1; 0.1; 0; 0; 0; 0]%float) = true ∧
  in_invariant (entry_inv carplatoon4_entry)
    (closed_loop_run carplatoon4.env (entry_K carplatoon4_entry) 1
                     (Qv [0; 0.1; 0.1; 0; 0; 0; 0]%float)) = false.
Proof. split_and!; vm_compute; reflexivity. Qed.

(** C1, as stated, fails on the quadcopter shield: the corner [(0.5, 0.5)] of
    its invariant is mapped to [(1, -1)], outside the invariant, and then to
    [(0, -2)], outside the safety bounds. *)
Lemma quadcopter_not_forward_invariant :
  in_invariant (entry_inv quadcopter_entry) [1 # 2; 1 # 2] = true ∧
  in_invariant (entry_inv quadcopter_entry)
    (closed_loop_run quadcopter.env (entry_K quadcopter_entry) 1 [1 # 2; 1 # 2]) = false ∧
  in_safety_bounds quadcopter.env
    (closed_loop_run quadcopter.env (entry_K quadcopter_entry) 2 [1 # 2; 1 # 2]) = false ∧
  ¬ shield_forward_invariant (quadcopter.initial_shield 50).
Proof.
  split; [vm_compute; reflexivity|].
  split; [vm_compute; reflexivity|].
  split; [vm_compute; reflexivity|].
  intros Hinv. unfold shield_forward_invariant in Hinv. rewrite quadcopter_shield_entries in Hinv.
  apply Forall_inv in Hinv.
  destruct (Hinv [1 # 2; 1 # 2] eq_refl eq_refl 1%nat) as [Hin _].
  vm_compute in Hin. discriminate Hin.
Qed.

(** C1, amended: the cruise shield is forward invariant (every state of its
    invariant stays in the invariant and in the safety bounds at every future
    step of [x' = A x + B (K x)]); for the shields of the quadcopter, the
    4-car platoon and the magnetic pointer every state of the invariant is
    inside the safety bounds, and so is its one-step successor. *)
Theorem hard_coded_shields_invariance (episode_len : nat) :
  shield_forward_invariant (cruise.initial_shield episode_len) ∧
  Forall (within_bounds_for_one_step quadcopter.env)
         (shield_entries (quadcopter.initial_shield episode_len)) ∧
  Forall (within_bounds_for_one_step carplatoon4.env)
         (shield_entries (carplatoon4.initial_shield episode_len)) ∧
  Forall (within_bounds_for_one_step magneticpointer.env)
         (shield_entries (magneticpointer.initial_shield episode_len)).
Proof.
  split_and!.
  - unfold shield_forward_invariant. rewrite cruise_shield_entries.
    constructor; [exact cruise_entry_forward_invariant | constructor].
  - rewrite quadcopter_shield_entries. constructor; [|constructor].
    intros x Hlen Hin n Hn.
    destruct (quadcopter_one_step_in_bounds x Hlen Hin) as [H0 H1].
    destruct n as [|[|n]]; [exact H0 | exact H1 | lia].
  - rewrite carplatoon4_shield_entries. constructor; [|constructor].
    intros x Hlen Hin n Hn.
    destruct (carplatoon4_one_step_in_bounds x Hlen Hin) as [H0 H1].
    destruct n as [|[|n]]; [exact H0 | exact H1 | lia].
  - rewrite magneticpointer_shield_entries. constructor; [|constructor].
    intros x Hlen Hin n Hn.
    destruct (magneticpointer_one_step_in_bounds x Hlen Hin) as [H0 H1].
    destruct n as [|[|n]]; [exact H0 | exact H1 | lia].
Qed.

(** The two shields at the state [0.25] resp. [(0.5, -0.5)]. *)
Lemma hard_coded_shields_invariance_witness :
  (∀ n : nat,
     in_invariant (entry_inv cruise_entry)
       (closed_loop_run cruise.env (entry_K cruise_entry) n [1 # 4]) = true ∧
     in_safety_bounds cruise.env
       (closed_loop_run cruise.env (entry_K cruise_entry) n [1 # 4]) = true) ∧
  in_safety_bounds quadcopter.env
    (closed_loop_run quadcopter.env (entry_K quadcopter_entry) 1 [1 # 2; - (1 # 2)])
  = true.
Proof.
  split.
  - exact (Forall_inv (proj1 (hard_coded_shields_invariance 50))
             [1 # 4] eq_refl eq_refl).
  - exact (Forall_inv (proj1 (proj2 (hard_coded_shields_invariance 50)))
             [1 # 2; - (1 # 2)] eq_refl eq_refl 1%nat (le_n 1)).
Defined.

(** ** Cover soundness (C2) *)

Ltac cover_sound_tac :=
  let x := fresh "x" in let Hlen := fresh "Hlen" in let Hin := fresh "Hin" in
  intros x Hlen Hin; vec_cases x Hlen;
  unfold_geometry; float_values; unfold_geometry;
  bool_props; lra.

Lemma cruise_cover_sound (episode_len : nat) :
  shield_cover_sound (cruise.initial_shield episode_len).
Proof.
  unfold shield_cover_sound. rewrite cruise_shield_entries.
  constructor; [|constructor].
  change (state_dim _) with 1%nat. unfold cruise_entry. cover_sound_tac.
Qed.

Lemma quadcopter_cover_sound (episode_len : nat) :
  shield_cover_sound (quadcopter.initial_shield episode_len).
Proof.
  unfold shield_cover_sound. rewrite quadcopter_shield_entries.
  constructor; [|constructor].
  change (state_dim _) with 2%nat. unfold quadcopter_entry. cover_sound_tac.
Qed.

Lemma magneticpointer_cover_sound (episode_len : nat) :
  shield_cover_sound (magneticpointer.initial_shield episode_len).
Proof.
  unfold shield_cover_sound. rewrite magneticpointer_shield_entries.
  constructor; [|constructor].
  change (state_dim _) with 3%nat. unfold magneticpointer_entry. cover_sound_tac.
Qed.

(** The bounds of the 4-car platoon after [s_min -= origin] and
    [s_max -= origin]: in binary64, [0.9 - 1] and [1.1 - 1] are not opposite
    numbers. *)
Lemma carplatoon4_shifted_bounds :
  s_min carplatoon4.locals =
    [-0.10000000000000142; -0.099999999999999978; -0.1; -0.099999999999999978;
     -0.1; -0.099999999999999978; -0.1]%float ∧
  s_max carplatoon4.locals =
    [0.10000000000000142; 0.10000000000000009; 0.1; 0.10000000000000009;
     0.1; 0.10000000000000009; 0.1]%float.
Proof. split; reflexivity. Qed.

(** What the loop of [4-car-platoon.py] leaves in [mat], [bias], [lower] and
    [upper]: the faces [x_i <= s_max_i] and [-x_i <= s_max_i], and the box
    [[s_min, s_max]]. *)
Lemma carplatoon4_faces :
  carplatoon4.mat =
    [ [1; 0; 0; 0; 0; 0; 0]; [-1; 0; 0; 0; 0; 0; 0];
      [0; 1; 0; 0; 0; 0; 0]; [0; -1; 0; 0; 0; 0; 0];
      [0; 0; 1; 0; 0; 0; 0]; [0; 0; -1; 0; 0; 0; 0];
      [0; 0; 0; 1; 0; 0; 0]; [0; 0; 0; -1; 0; 0; 0];
      [0; 0; 0; 0; 1; 0; 0]; [0; 0; 0; 0; -1; 0; 0];
      [0; 0; 0; 0; 0; 1; 0]; [0; 0; 0; 0; 0; -1; 0];
      [0; 0; 0; 0; 0; 0; 1]; [0; 0; 0; 0; 0; 0; -1] ]%float ∧
  carplatoon4.bias =
    [0.10000000000000142; 0.10000000000000142;
     0.10000000000000009; 0.10000000000000009; 0.1; 0.1;
     0.10000000000000009; 0.10000000000000009; 0.1; 0.1;
     0.10000000000000009; 0.10000000000000009; 0.1; 0.1]%float ∧
  carplatoon4.lower = s_min carplatoon4.locals ∧
  carplatoon4.upper = s_max carplatoon4.locals.
Proof. repeat split; reflexivity. Qed.

(** The half-space region of the 4-car platoon is the box
    [[-s_max, s_max]]: it stays below [upper] and within [2^-52] of
    [lower]. *)
Lemma carplatoon4_region_nearly_covered (x : vec) :
  length x = 7%nat →
  in_region (Qm carplatoon4.mat) (Qv carplatoon4.bias) x = true →
  vec_le x (Qv carplatoon4.upper) = true ∧
  vec_le ((fun l => l - (1 # 4503599627370496)) <$> Qv carplatoon4.lower) x = true.
Proof.
  intros Hlen Hin. vec_cases x Hlen.
  unfold_geometry. float_values. unfold_geometry.
  bool_props; lra.
Qed.

(** C2 on the 4-car platoon: the state that sits at [-0.1] in the second
    coordinate satisfies all fourteen half-spaces [H x <= c] and lies below
    the cover box, whose second lower bound is the binary64 result of
    [0.9 - 1], that is [-0.09999999999999998]. *)
Theorem carplatoon4_cover_unsound :
  in_region (Qm carplatoon4.mat) (Qv carplatoon4.bias)
            carplatoon4_low_gap_state = true ∧
  in_cover (entry_cover carplatoon4_entry) carplatoon4_low_gap_state = false ∧
  ¬ shield_cover_sound (carplatoon4.initial_shield 50).
Proof.
  split; [vm_compute; reflexivity|].
  split; [vm_compute; reflexivity|].
  intros Hsound. unfold shield_cover_sound in Hsound.
  rewrite carplatoon4_shield_entries in Hsound.
  apply Forall_inv in Hsound.
  specialize (Hsound carplatoon4_low_gap_state eq_refl).
  assert (Hin : in_region (Qm (entry_cover carplatoon4_entry).1.1.1)
                  (Qv (entry_cover carplatoon4_entry).1.1.2)
                  carplatoon4_low_gap_state = true)
    by (vm_compute; reflexivity).
  specialize (Hsound Hin). vm_compute in Hsound. discriminate Hsound.
Qed.

(** ** The cruise scenario (C3) *)





(** ** The operating point (C8) *)

Lemma coordination_transformation_fields (origin : fvec) (b : bounds) :
  coordination_transformation origin b =
    mkBounds (fsub (s_min b) origin) (fsub (s_max b) origin)
             (fsub (x_min b) origin) (fsub (x_max b) origin).
Proof. reflexivity. Qed.

(** Two float columns with different values are different. *)
Lemma fvec_neq (u v : fvec) : Qv u ≠ Qv v → u ≠ v.
Proof. intros Hne ->. exact (Hne eq_refl). Qed.

Ltac fvec_differ := apply fvec_neq; vm_compute; discriminate.

(** C8.  In [4-car-platoon.py] and [8-car-platoon_ddpg_shield.py] each of
    the four bound columns handed to [Environment] is the column first
    written minus [origin], subtracted once: it differs from the raw column
    and from a column shifted twice.  What the 4-car entry point computes
    from the bounds afterwards (the centre [x_mid], the cover box) reads the
    shifted columns as they are. *)
Theorem origin_subtracted_once :
  (env_s_min carplatoon4.env = fsub (s_min carplatoon4.raw) carplatoon4.origin ∧
   env_s_max carplatoon4.env = fsub (s_max carplatoon4.raw) carplatoon4.origin ∧
   env_x_min carplatoon4.env = fsub (x_min carplatoon4.raw) carplatoon4.origin ∧
   env_x_max carplatoon4.env = fsub (x_max carplatoon4.raw) carplatoon4.origin) ∧
  (env_s_min carplatoon8.env = fsub (s_min carplatoon8.raw) carplatoon8.origin ∧
   env_s_max carplatoon8.env = fsub (s_max carplatoon8.raw) carplatoon8.origin ∧
   env_x_min carplatoon8.env = fsub (x_min carplatoon8.raw) carplatoon8.origin ∧
   env_x_max carplatoon8.env = fsub (x_max carplatoon8.raw) carplatoon8.origin) ∧
  (env_s_min carplatoon4.env ≠ s_min carplatoon4.raw ∧
   env_s_min carplatoon4.env ≠
     fsub (fsub (s_min carplatoon4.raw) carplatoon4.origin) carplatoon4.origin ∧
   env_s_max carplatoon4.env ≠ s_max carplatoon4.raw ∧
   env_s_max carplatoon4.env ≠
     fsub (fsub (s_max carplatoon4.raw) carplatoon4.origin) carplatoon4.origin ∧
   env_x_min carplatoon4.env ≠ x_min carplatoon4.raw ∧
   env_x_min carplatoon4.env ≠
     fsub (fsub (x_min carplatoon4.raw) carplatoon4.origin) carplatoon4.origin ∧
   env_x_max carplatoon4.env ≠ x_max carplatoon4.raw ∧
   env_x_max carplatoon4.env ≠
     fsub (fsub (x_max carplatoon4.raw) carplatoon4.origin) carplatoon4.origin) ∧
  (env_s_min carplatoon8.env ≠ s_min carplatoon8.raw ∧
   env_s_min carplatoon8.env ≠
     fsub (fsub (s_min carplatoon8.raw) carplatoon8.origin) carplatoon8.origin ∧
   env_s_max carplatoon8.env ≠ s_max carplatoon8.raw ∧
   env_s_max carplatoon8.env ≠
     fsub (fsub (s_max carplatoon8.raw) carplatoon8.origin) carplatoon8.origin ∧
   env_x_min carplatoon8.env ≠ x_min carplatoon8.raw ∧
   env_x_min carplatoon8.env ≠
     fsub (fsub (x_min carplatoon8.raw) carplatoon8.origin) carplatoon8.origin ∧
   env_x_max carplatoon8.env ≠ x_max carplatoon8.raw ∧
   env_x_max carplatoon8.env ≠
     fsub (fsub (x_max carplatoon8.raw) carplatoon8.origin) carplatoon8.origin) ∧
  (carplatoon4.lower = env_s_min carplatoon4.env ∧
   carplatoon4.upper = env_s_max carplatoon4.env ∧
   x_mid carplatoon4.locals =
     zip_with (fun l u => ((l + u) / 2)%float)
              (env_x_min carplatoon4.env) (env_x_max carplatoon4.env)).
Proof.
  split_and!; try reflexivity; fvec_differ.
Qed.

(** The values the shifted 4-car bounds hold. *)
Lemma carplatoon4_env_bounds :
  env_x_min carplatoon4.env = [-2; -0.5; -0.35; -0.5; -1; -0.5; -1]%float ∧
  env_x_max carplatoon4.env = [2; 0.5; 0.35; 0.5; 1; 0.5; 1]%float ∧
  x_mid carplatoon4.locals = [0; 0; 0; 0; 0; 0; 0]%float.
Proof. split_and!; reflexivity. Qed.

(** ** The path of the gain matrix (C9) *)

Lemma model_path_pattern (dir : string) :
  ((dir +:+ "/") +:+ "K.model") +:+ ".npy" = dir +:+ "/K.model.npy".
Proof.
  induction dir as [|c dir IH]; [reflexivity|].
  change (String c (((dir +:+ "/") +:+ "K.model") +:+ ".npy")
          = String c (dir +:+ "/K.model.npy")).
  rewrite IH. reflexivity.
Qed.

(** C9.  At every entry point the path of the gain matrix is the directory
    component of [args['model_path']], as [os.path.split] returns it,
    followed by [/K.model.npy]. *)
Theorem gain_matrix_path (e : entry_point) (retrain_nn : bool) (train_dir : string) :
  entry_model_path e retrain_nn train_dir =
    (posixpath.split (entry_args_model_path e retrain_nn train_dir)).1
    +:+ "/K.model.npy".
Proof.
  destruct e; apply model_path_pattern.
Qed.

(** The paths for the calls under [__main__]. *)
Lemma main_gain_matrix_paths :
  cruise.model_path false cruise.main_train_dir
    = "ddpg_chkp/cruise/240200280240200/K.model.npy" ∧
  quadcopter.model_path false quadcopter.main_train_dir
    = "ddpg_chkp/quadcopter/240200280240200/K.model.npy" ∧
  carplatoon4.model_path false carplatoon4.main_train_dir
    = "ddpg_chkp/car-platoon/discrete/4/500400300600500400300/K.model.npy" ∧
  magneticpointer.model_path false magneticpointer.main_train_dir
    = "ddpg_chkp/magnetic_pointer/240200280240200/K.model.npy" ∧
  suspension.model_path true suspension.main_train_dir
    = "ddpg_chkp/suspension/240200280240200/K.model.npy" ∧
  tape.model_path true tape.main_train_dir
    = "ddpg_chkp/tape/240200280240200/K.model.npy" ∧
  carplatoon8.model_path "chkp/run1/" = "chkp/run1/K.model.npy".
Proof. split_and!; vm_compute; reflexivity. Qed.


(** *** The directory component of [dir/name] *)

Lemma rfind_sep_succ_no_sep (name : list ascii) :
  posixpath.sep ∉ name → posixpath.rfind_sep_succ name = 0%nat.
Proof.
  induction name as [|a name IH]; intros Hno; [reflexivity|].
  cbn [posixpath.rfind_sep_succ]. rewrite IH by (intros Hin; apply Hno; right; exact Hin).
  destruct (Ascii.eqb_spec a posixpath.sep) as [->|Hne]; [|reflexivity].
  exfalso. apply Hno. left.
Qed.

Lemma rfind_sep_succ_app (l name : list ascii) :
  posixpath.sep ∉ name →
  posixpath.rfind_sep_succ (l ++ posixpath.sep :: name) = S (length l).
Proof.
  intros Hno. induction l as [|a l IH].
  - cbn [app posixpath.rfind_sep_succ length].
    rewrite (rfind_sep_succ_no_sep name Hno). reflexivity.
  - cbn [app posixpath.rfind_sep_succ length]. rewrite IH. reflexivity.
Qed.

Lemma split_chars_dir_name (d name : list ascii) (c : ascii) :
  c ≠ posixpath.sep → posixpath.sep ∉ name →
  posixpath.split_chars ((d ++ [c]) ++ posixpath.sep :: name) = (d ++ [c], name).
Proof.
  intros Hc Hno. unfold posixpath.split_chars.
  rewrite rfind_sep_succ_app by exact Hno.
  assert (Htake : take (S (length (d ++ [c]))) ((d ++ [c]) ++ posixpath.sep :: name)
                  = (d ++ [c]) ++ [posixpath.sep]).
  { change (posixpath.sep :: name) with ([posixpath.sep] ++ name).
    rewrite app_assoc. apply take_app_length'. rewrite !length_app. cbn. lia. }
  assert (Hdrop : drop (S (length (d ++ [c]))) ((d ++ [c]) ++ posixpath.sep :: name)
                  = name).
  { change (posixpath.sep :: name) with ([posixpath.sep] ++ name).
    rewrite app_assoc. apply drop_app_length'. rewrite !length_app. cbn. lia. }
  rewrite Htake, Hdrop. cbv zeta.
  assert (Hne : bool_decide ((d ++ [c]) ++ [posixpath.sep] = []) = false).
  { apply bool_decide_eq_false. destruct d; discriminate. }
  assert (Hall : posixpath.all_sep ((d ++ [c]) ++ [posixpath.sep]) = false).
  { unfold posixpath.all_sep. rewrite !forallb_app. cbn [forallb].
    destruct (Ascii.eqb_spec posixpath.sep c) as [Heq|_]; [congruence|].
    rewrite andb_false_r. reflexivity. }
  rewrite Hne, Hall. cbn [negb andb]. f_equal.
  unfold posixpath.rstrip_sep. rewrite !rev_app_distr.
  cbn [rev app posixpath.lstrip_sep].
  destruct (Ascii.eqb_spec posixpath.sep posixpath.sep) as [_|Hne']; [|congruence].
  destruct (Ascii.eqb_spec c posixpath.sep) as [Heq|_]; [congruence|].
  cbn [rev]. rewrite rev_involutive. reflexivity.
Qed.

(** The directory component of [dir/name], for a directory that does not end
    in a slash, is [dir]: the gain matrix of the cruise benchmark then goes
    to [dir/K.model.npy]. *)
Lemma split_dir_name (d name : list ascii) (c : ascii) :
  c ≠ posixpath.sep → posixpath.sep ∉ name →
  posixpath.split (String.string_of_list_ascii ((d ++ [c]) ++ posixpath.sep :: name))
  = (String.string_of_list_ascii (d ++ [c]), String.string_of_list_ascii name).
Proof.
  intros Hc Hno. unfold posixpath.split.
  rewrite String.list_ascii_of_string_of_list_ascii.
  rewrite (split_chars_dir_name d name c Hc Hno). reflexivity.
Qed.
(** ** The solver wrapper: tools *)

Import gurobi.

(** A call that evaluates to a result returns it. *)
Lemma returns_Some {A : Type} (r : option A) :
  match r with Some _ => true | None => false end = true → ∃ a, r = Some a.
Proof. destruct r as [a|]; [eauto | discriminate]. Qed.

(** ** Variable types of the mixed-integer model (C6) *)







(** ** Small coefficients (C10) *)

Lemma gt_tol_false (tol a : Q) : gt_tol tol a = false ↔ Qabs a <= tol.
Proof.
  unfold gt_tol. rewrite negb_false_iff. apply Qle_bool_iff.
Qed.

Lemma gt_tol_true (tol a : Q) : gt_tol tol a = true ↔ ¬ Qabs a <= tol.
Proof.
  rewrite <- gt_tol_false. destruct (gt_tol tol a); split; congruence.
Qed.

(** The terms the loop over [j] appends: one per column whose coefficient
    passes the tolerance, in order. *)
Lemma linear_terms_spec (row : nat → Q) (x : list nat) (tol : Q) (js : list nat)
    (expr expr' : LinExpr) :
  linear_terms row x tol js expr = Some expr' →
  lin_const expr' = lin_const expr ∧
  ∀ c v, (c, v) ∈ lin_terms expr' ↔
         (c, v) ∈ lin_terms expr ∨
         ∃ j, j ∈ js ∧ x !! j = Some v ∧ c = row j ∧ gt_tol tol (row j) = true.
Proof.
  revert expr. induction js as [|j js IH]; intros expr Hterms.
  - cbn in Hterms. injection Hterms as <-. split; [reflexivity|].
    intros c v. split; [auto|]. intros [Hin|(j & Hj & _)]; [exact Hin|].
    apply elem_of_nil in Hj. contradiction.
  - cbn [linear_terms] in Hterms.
    destruct (gt_tol tol (row j)) eqn:Hgt.
    + destruct (x !! j) as [w|] eqn:Hw; [|discriminate Hterms].
      cbn [mbind option_bind] in Hterms.
      destruct (IH _ Hterms) as [Hconst Hin]. split; [exact Hconst|].
      intros c v. rewrite Hin. unfold LinExpr_add_term. cbn [lin_terms].
      rewrite elem_of_app, list_elem_of_singleton. split.
      * intros [[Hold|[= -> ->]]|(k & Hk & Hrest)].
        -- left; exact Hold.
        -- right. exists j. split; [left|]. auto.
        -- right. exists k. split; [right; exact Hk|exact Hrest].
      * intros [Hold|(k & Hk & Hxk & -> & Hgtk)]; [left; left; exact Hold|].
        apply elem_of_cons in Hk as [->|Hk].
        -- left; right. congruence.
        -- right. exists k. auto.
    + destruct (IH _ Hterms) as [Hconst Hin]. split; [exact Hconst|].
      intros c v. rewrite Hin. split.
      * intros [Hold|(k & Hk & Hrest)]; [left; exact Hold|].
        right. exists k. split; [right; exact Hk|exact Hrest].
      * intros [Hold|(k & Hk & Hxk & -> & Hgtk)]; [left; exact Hold|].
        apply elem_of_cons in Hk as [->|Hk]; [congruence|].
        right. exists k. auto.
Qed.

(** With every coefficient of the row within the tolerance the loop adds
    nothing, and reads no variable. *)
Lemma linear_terms_all_small (row : nat → Q) (x : list nat) (tol : Q)
    (js : list nat) (expr : LinExpr) :
  (∀ j, j ∈ js → Qabs (row j) <= tol) →
  linear_terms row x tol js expr = Some expr.
Proof.
  induction js as [|j js IH]; intros Hsmall; [reflexivity|].
  cbn [linear_terms].
  rewrite (proj2 (gt_tol_false tol (row j))) by (apply Hsmall; left).
  apply IH. intros k Hk. apply Hsmall. right. exact Hk.
Qed.

Lemma linear_row_spec (A : ndarray) (b : vec) (x : list nat) (tol : Q) (i : nat)
    (expr : LinExpr) :
  linear_row A b x tol i = Some expr →
  (∀ c v, (c, v) ∈ lin_terms expr ↔
          ∃ j, (j < shape1 A)%nat ∧ x !! j = Some v ∧ c = item A i j ∧
               ¬ Qabs (item A i j) <= tol) ∧
  ∃ b_i, b !! i = Some b_i ∧
         lin_const expr = (if gt_tol tol b_i then 0 + b_i else 0).
Proof.
  unfold linear_row. intros Hrow.
  destruct (linear_terms _ _ _ _ _) as [expr0|] eqn:Hterms; [|discriminate Hrow].
  cbn [mbind option_bind] in Hrow.
  destruct (b !! i) as [b_i|] eqn:Hb; [|discriminate Hrow].
  cbn [mbind option_bind] in Hrow. injection Hrow as <-.
  destruct (linear_terms_spec _ _ _ _ _ _ Hterms) as [Hconst Hin].
  cbn [LinExpr_new lin_terms lin_const] in Hconst, Hin. split.
  - intros c v.
    assert (Hsame : lin_terms (if gt_tol tol b_i then LinExpr_add_const expr0 b_i
                               else expr0) = lin_terms expr0)
      by (destruct (gt_tol tol b_i); reflexivity).
    rewrite Hsame, Hin. split.
    + intros [Hnil|(j & Hj & Hx & Hc & Hgt)]; [apply elem_of_nil in Hnil; contradiction|].
      exists j. apply elem_of_seq in Hj. apply gt_tol_true in Hgt.
      split; [lia|]. auto.
    + intros (j & Hj & Hx & Hc & Hgt). right. exists j.
      split; [apply elem_of_seq; lia|]. apply gt_tol_true in Hgt. auto.
  - exists b_i. split; [reflexivity|].
    destruct (gt_tol tol b_i); cbn [LinExpr_add_const lin_const];
      rewrite Hconst; reflexivity.
Qed.

Lemma linear_expression_rows (A : ndarray) (b : vec) (x : list nat) (tol : Q)
    (exprs : list LinExpr) :
  linear_expression A b x tol = Some exprs →
  length exprs = shape0 A ∧
  ∀ i expr, exprs !! i = Some expr → linear_row A b x tol i = Some expr.
Proof.
  unfold linear_expression. intros Hmap. apply mapM_Some in Hmap.
  split.
  - apply Forall2_length in Hmap. rewrite length_seq in Hmap. auto.
  - intros i expr Hi.
    destruct (Forall2_lookup_r _ _ _ _ _ Hmap Hi) as (k & Hk & Hrow).
    apply lookup_seq in Hk as [-> _]. exact Hrow.
Qed.

Lemma linear_expression_returns (A : ndarray) (b : vec) (x : list nat) (tol : Q) :
  (shape0 A ≤ length b)%nat →
  (∀ i j, (i < shape0 A)%nat → (j < shape1 A)%nat → Qabs (item A i j) <= tol) →
  is_Some (linear_expression A b x tol).
Proof.
  intros Hb Hsmall. unfold linear_expression. apply mapM_is_Some.
  apply Forall_forall. intros i Hi. apply list_elem_of_In, elem_of_seq in Hi.
  unfold compose, linear_row. rewrite linear_terms_all_small.
  - cbn [mbind option_bind].
    destruct (lookup_lt_is_Some_2 b i) as [b_i ->]; [lia|].
    cbn [mbind option_bind]. eauto.
  - intros j Hj. apply elem_of_seq in Hj. apply Hsmall; lia.
Qed.

Lemma quadratic_terms_spec (H : ndarray) (x : list nat) (tol : Q) (i : nat)
    (js : list nat) (expr expr' : QuadExpr) :
  quadratic_terms H x tol i js expr = Some expr' →
  ∀ c v w, (c, v, w) ∈ quad_terms expr' ↔
           (c, v, w) ∈ quad_terms expr ∨
           ∃ j, j ∈ js ∧ x !! i = Some v ∧ x !! j = Some w ∧
                c = item H i j ∧ gt_tol tol (item H i j) = true.
Proof.
  revert expr. induction js as [|j js IH]; intros expr Hterms c v w.
  - cbn in Hterms. injection Hterms as <-.
    split; [auto|]. intros [Hin|(j & Hj & _)]; [exact Hin|].
    apply elem_of_nil in Hj. contradiction.
  - cbn [quadratic_terms] in Hterms.
    destruct (gt_tol tol (item H i j)) eqn:Hgt.
    + destruct (x !! i) as [x_i|] eqn:Hxi; [|discriminate Hterms].
      cbn [mbind option_bind] in Hterms.
      destruct (x !! j) as [x_j|] eqn:Hxj; [|discriminate Hterms].
      cbn [mbind option_bind] in Hterms.
      rewrite (IH _ Hterms). cbn [quad_terms].
      rewrite elem_of_app, list_elem_of_singleton. split.
      * intros [[Hold|[= -> -> ->]]|(k & Hk & Hrest)].
        -- left; exact Hold.
        -- right. exists j. split; [left|]. auto.
        -- right. exists k. split; [right; exact Hk|exact Hrest].
      * intros [Hold|(k & Hk & Hv & Hw & -> & Hgtk)]; [left; left; exact Hold|].
        apply elem_of_cons in Hk as [->|Hk].
        -- left; right. congruence.
        -- right. exists k. auto.
    + rewrite (IH _ Hterms). split.
      * intros [Hold|(k & Hk & Hrest)]; [left; exact Hold|].
        right. exists k. split; [right; exact Hk|exact Hrest].
      * intros [Hold|(k & Hk & Hv & Hw & -> & Hgtk)]; [left; exact Hold|].
        apply elem_of_cons in Hk as [->|Hk]; [congruence|].
        right. exists k. auto.
Qed.

Lemma quadratic_rows_spec (H : ndarray) (x : list nat) (tol : Q)
    (rows : list nat) (expr expr' : QuadExpr) :
  quadratic_rows H x tol rows expr = Some expr' →
  ∀ c v w, (c, v, w) ∈ quad_terms expr' ↔
           (c, v, w) ∈ quad_terms expr ∨
           ∃ i j, i ∈ rows ∧ (j < shape1 H)%nat ∧ x !! i = Some v ∧
                  x !! j = Some w ∧ c = item H i j ∧ ¬ Qabs (item H i j) <= tol.
Proof.
  revert expr. induction rows as [|i rows IH]; intros expr Hrows c v w.
  - cbn in Hrows. injection Hrows as <-.
    split; [auto|]. intros [Hin|(i & j & Hi & _)]; [exact Hin|].
    apply elem_of_nil in Hi. contradiction.
  - cbn [quadratic_rows] in Hrows.
    destruct (quadratic_terms H x tol i _ expr) as [expr1|] eqn:Hterms;
      [|discriminate Hrows].
    cbn [mbind option_bind] in Hrows.
    rewrite (IH _ Hrows), (quadratic_terms_spec _ _ _ _ _ _ _ Hterms). split.
    + intros [[Hold|(j & Hj & Hv & Hw & Hc & Hgt)]|(k & j & Hk & Hrest)].
      * left; exact Hold.
      * right. exists i, j. apply elem_of_seq in Hj. apply gt_tol_true in Hgt.
        split; [left|]. split; [lia|]. auto.
      * right. exists k, j. split; [right; exact Hk|exact Hrest].
    + intros [Hold|(k & j & Hk & Hj & Hv & Hw & Hc & Hgt)]; [left; left; exact Hold|].
      apply elem_of_cons in Hk as [->|Hk].
      * left; right. exists j. split; [apply elem_of_seq; lia|].
        apply gt_tol_true in Hgt. auto.
      * right. exists k, j. auto 10.
Qed.

(** Every entry of the dynamics matrix of the tape benchmark is within the
    tolerance of [linear_expression]; the largest one is [5.5197e-17]. *)
Lemma tape_A_entries_small (i j : nat) :
  Qabs (item (np_matrix (Qm tape.A)) i j) <= Q_of_float 5.5197e-17 ∧
  Q_of_float 5.5197e-17 <= linear_tol.
Proof.
  split; [|apply Qle_bool_iff; vm_compute; reflexivity].
  destruct i as [|[|[|i]]]; destruct j as [|[|[|j]]];
    apply Qle_bool_iff; vm_compute; reflexivity.
Qed.

(** The inequality constraints of a built model are the rows of
    [linear_expression(A, -b, x)], named [ineq_0], [ineq_1], ... *)
Lemma build_model_ineq_rows (H : option ndarray) (f : vec) (A : ndarray)
    (b : vec) (C : option ndarray) (d : option vec) (model : Model) :
  _build_model H f A b C d = Some model →
  ∃ ineq, linear_expression A (Qopp <$> b) (seq 0 (length f `max` 1)) linear_tol
            = Some ineq ∧
          ∀ i expr, ineq !! i = Some expr →
            model_constrs model !! i
            = Some (mkConstr ("ineq_" +:+ pretty i) expr LESS_EQUAL).
Proof.
  unfold _build_model. intros Hbuild.
  destruct (linear_expression A _ _ _) as [ineq|] eqn:Hineq;
    [|discriminate Hbuild].
  cbn [mbind option_bind] in Hbuild.
  repeat match type of Hbuild with
         | (?o ≫= _) = Some _ =>
             destruct o eqn:?; cbn [mbind option_bind] in Hbuild;
             [|discriminate Hbuild]
         end.
  injection Hbuild as <-. exists ineq. split; [reflexivity|].
  intros i expr Hi. cbn [model_constrs]. unfold named_constrs.
  rewrite lookup_app_l by (rewrite length_imap; eapply lookup_lt_Some; exact Hi).
  rewrite list_lookup_imap, Hi. reflexivity.
Qed.

(** C10.  [linear_expression] with its default tolerance [1e-10] puts no
    term for a coefficient [A[i,j]] of absolute value at most [1e-10] into
    row [i] and no offset [b_i] of absolute value at most [1e-10];
    [quadratic_expression] with its default tolerance [1e-7] puts in no term
    for an entry [H[i,j]] of absolute value at most [1e-7].  Hence a matrix
    whose entries are all at most [1e-10] in absolute value yields rows
    without variable terms, also as the inequality constraints of a built
    model, and the dynamics matrix of the tape benchmark is such a matrix. *)
Theorem small_coefficients_are_dropped (n_x : nat) (A : ndarray) (b : vec)
    (H : ndarray) :
  (∀ exprs, linear_expression A b (seq 0 n_x) linear_tol = Some exprs →
     ∀ i expr, exprs !! i = Some expr →
       (∀ j c, Qabs (item A i j) <= linear_tol → (c, j) ∉ lin_terms expr) ∧
       (∀ b_i, b !! i = Some b_i → Qabs b_i <= linear_tol → lin_const expr = 0) ∧
       ((∀ j, (j < shape1 A)%nat → Qabs (item A i j) <= linear_tol) →
        lin_terms expr = [])) ∧
  (∀ qexpr, quadratic_expression H (seq 0 n_x) quadratic_tol = Some qexpr →
     ∀ i j c, Qabs (item H i j) <= quadratic_tol → (c, i, j) ∉ quad_terms qexpr) ∧
  ((∀ i j, (i < shape0 A)%nat → (j < shape1 A)%nat →
           Qabs (item A i j) <= linear_tol) →
   (shape0 A ≤ length b)%nat →
   ∃ exprs, linear_expression A b (seq 0 n_x) linear_tol = Some exprs ∧
            length exprs = shape0 A ∧
            Forall (fun expr => lin_terms expr = []) exprs) ∧
  (∀ (cost : option ndarray) (f : vec) (C : option ndarray) (d : option vec)
     (model : Model),
     _build_model cost f A b C d = Some model →
     (∀ i j, (i < shape0 A)%nat → (j < shape1 A)%nat →
             Qabs (item A i j) <= linear_tol) →
     ∀ i, (i < shape0 A)%nat →
       ∃ constr, model_constrs model !! i = Some constr ∧
                 constr_name constr = "ineq_" +:+ pretty i ∧
                 lin_terms (constr_expr constr) = []) ∧
  (∀ i j, Qabs (item (np_matrix (Qm tape.A)) i j) <= linear_tol).
Proof.
  split_and!.
  - intros exprs Hexprs i expr Hi.
    destruct (linear_expression_rows _ _ _ _ _ Hexprs) as [_ Hrows].
    destruct (linear_row_spec _ _ _ _ _ _ (Hrows i expr Hi)) as [Hin (b_i & Hb & Hconst)].
    split_and!.
    + intros j c Hsmall Hc. apply Hin in Hc as (k & _ & Hk & _ & Hbig).
      apply lookup_seq in Hk as [-> _]. exact (Hbig Hsmall).
    + intros b_i' Hb' Hsmall. rewrite Hb in Hb'. injection Hb' as <-.
      rewrite Hconst, (proj2 (gt_tol_false _ _) Hsmall). reflexivity.
    + intros Hsmall. apply elem_of_nil_inv. intros [c v] Hc.
      apply Hin in Hc as (k & Hk & _ & _ & Hbig). exact (Hbig (Hsmall k Hk)).
  - intros qexpr Hq i j c Hsmall Hc. unfold quadratic_expression in Hq.
    apply (quadratic_rows_spec _ _ _ _ _ _ Hq) in Hc as [Hnil|Hc].
    + apply elem_of_nil in Hnil. contradiction.
    + destruct Hc as (i' & j' & _ & _ & Hi' & Hj' & _ & Hbig).
      apply lookup_seq in Hi' as [-> _]. apply lookup_seq in Hj' as [-> _].
      exact (Hbig Hsmall).
  - intros Hsmall Hb.
    destruct (linear_expression_returns A b (seq 0 n_x) linear_tol Hb Hsmall)
      as [exprs Hexprs].
    exists exprs. split; [exact Hexprs|].
    destruct (linear_expression_rows _ _ _ _ _ Hexprs) as [Hlen Hrows].
    split; [exact Hlen|]. apply Forall_lookup. intros i expr Hi.
    destruct (linear_row_spec _ _ _ _ _ _ (Hrows i expr Hi)) as [Hin _].
    apply elem_of_nil_inv. intros [c v] Hc.
    apply Hin in Hc as (k & Hk & _ & _ & Hbig).
    apply Hbig, Hsmall; [|exact Hk].
    apply lookup_lt_Some in Hi. lia.
  - intros cost f C d model Hbuild Hsmall i Hi.
    destruct (build_model_ineq_rows _ _ _ _ _ _ _ Hbuild) as (ineq & Hineq & Hconstrs).
    destruct (linear_expression_rows _ _ _ _ _ Hineq) as [Hlen Hrows].
    destruct (lookup_lt_is_Some_2 ineq i) as [expr Hexpr]; [lia|].
    exists (mkConstr ("ineq_" +:+ pretty i) expr LESS_EQUAL).
    split; [exact (Hconstrs i expr Hexpr)|]. split; [reflexivity|].
    cbn [constr_expr].
    destruct (linear_row_spec _ _ _ _ _ _ (Hrows i expr Hexpr)) as [Hin _].
    apply elem_of_nil_inv. intros [c v] Hc.
    apply Hin in Hc as (k & Hk & _ & _ & Hbig).
    exact (Hbig (Hsmall i k Hi Hk)).
  - intros i j. destruct (tape_A_entries_small i j) as [H1 H2].
    exact (Qle_trans _ _ _ H1 H2).
Qed.

(** The rows [linear_expression] builds from the dynamics matrix of the tape
    benchmark carry the offsets and no variable term. *)
Lemma small_coefficients_are_dropped_witness :
  ∃ exprs, linear_expression (np_matrix (Qm tape.A)) [1; 2; 3] (seq 0 3) linear_tol
             = Some exprs ∧
           length exprs = 3%nat ∧
           Forall (fun expr => lin_terms expr = []) exprs.
Proof.
  apply (proj1 (proj2 (proj2 (small_coefficients_are_dropped 3
           (np_matrix (Qm tape.A)) [1; 2; 3] (np_matrix []))))).
  - intros i j _ _.
    exact (proj2 (proj2 (proj2 (proj2 (small_coefficients_are_dropped 3
             (np_matrix (Qm tape.A)) [1; 2; 3] (np_matrix []))))) i j).
  - cbn. lia.
Defined.


(** ** When [linear_expression] raises *)

Lemma linear_terms_is_Some (row : nat → Q) (x : list nat) (tol : Q)
    (js : list nat) (expr : LinExpr) :
  is_Some (linear_terms row x tol js expr) ↔
  ∀ j, j ∈ js → gt_tol tol (row j) = true → (j < length x)%nat.
Proof.
  revert expr. induction js as [|j js IH]; intros expr.
  - cbn. split; [|eauto]. intros _ j Hj. apply elem_of_nil in Hj. contradiction.
  - cbn [linear_terms]. destruct (gt_tol tol (row j)) eqn:Hgt.
    + destruct (x !! j) as [v|] eqn:Hv; cbn [mbind option_bind].
      * rewrite IH. apply lookup_lt_Some in Hv. split.
        -- intros Hrest k Hk Hgtk. apply elem_of_cons in Hk as [->|Hk]; auto.
        -- intros Hall k Hk. apply Hall. right. exact Hk.
      * apply lookup_ge_None in Hv. split.
        -- intros [? [=]].
        -- intros Hall. specialize (Hall j (list_elem_of_here _ _) Hgt). lia.
    + rewrite IH. split.
      * intros Hrest k Hk Hgtk. apply elem_of_cons in Hk as [->|Hk]; [congruence|auto].
      * intros Hall k Hk. apply Hall. right. exact Hk.
Qed.

Lemma linear_row_is_Some (A : ndarray) (b : vec) (x : list nat) (tol : Q) (i : nat) :
  is_Some (linear_row A b x tol i) ↔
  (i < length b)%nat ∧
  ∀ j, (j < shape1 A)%nat → gt_tol tol (item A i j) = true → (j < length x)%nat.
Proof.
  unfold linear_row. split.
  - intros [expr Hrow].
    destruct (linear_terms _ _ _ _ _) as [expr0|] eqn:Hterms; [|discriminate Hrow].
    cbn [mbind option_bind] in Hrow.
    destruct (b !! i) as [b_i|] eqn:Hb; [|discriminate Hrow].
    split; [eapply lookup_lt_Some; exact Hb|].
    intros j Hj.
    apply (proj1 (linear_terms_is_Some (item A i) x tol (seq 0 (shape1 A)) LinExpr_new));
      [rewrite Hterms; eauto|].
    apply elem_of_seq. lia.
  - intros [Hb Hcols].
    destruct (proj2 (linear_terms_is_Some (item A i) x tol (seq 0 (shape1 A)) LinExpr_new))
      as [expr0 ->].
    { intros j Hj. apply elem_of_seq in Hj. apply Hcols. lia. }
    cbn [mbind option_bind].
    destruct (lookup_lt_is_Some_2 b i Hb) as [b_i ->].
    cbn [mbind option_bind]. eauto.
Qed.

Lemma linear_expression_is_Some (A : ndarray) (b : vec) (x : list nat) (tol : Q) :
  is_Some (linear_expression A b x tol) ↔
  ∀ i, (i < shape0 A)%nat →
       (i < length b)%nat ∧
       ∀ j, (j < shape1 A)%nat → gt_tol tol (item A i j) = true → (j < length x)%nat.
Proof.
  unfold linear_expression. rewrite mapM_is_Some, list.Forall_forall.
  split.
  - intros Hall i Hi. apply linear_row_is_Some. apply Hall, elem_of_seq. lia.
  - intros Hall i Hi. apply elem_of_seq in Hi. apply linear_row_is_Some, Hall. lia.
Qed.

(** X1.  [linear_expression(A, b, x, tol)] returns its list of expressions
    exactly when [b] has an entry for every row of [A] and every column that
    holds a coefficient above the tolerance has a variable in [x]; otherwise
    an index or key lookup raises.  A column without a variable is harmless
    as long as all its coefficients are within the tolerance. *)
Theorem linear_expression_returns_iff (A : ndarray) (b : vec) (x : list nat) (tol : Q) :
  is_Some (linear_expression A b x tol) ↔
  ∀ i, (i < shape0 A)%nat →
       (i < length b)%nat ∧
       ∀ j, (j < shape1 A)%nat → ¬ Qabs (item A i j) <= tol → (j < length x)%nat.
Proof.
  rewrite linear_expression_is_Some. split; intros Hall i Hi;
    (split; [apply Hall; exact Hi|]); intros j Hj Hbig;
    apply (proj2 (Hall i Hi) j Hj); apply gt_tol_true; exact Hbig.
Qed.
(** ** The value of the built expressions *)

Lemma terms_value_app (l1 l2 : list (Q * nat)) (p : vec) :
  foldr (fun t acc => t.1 * default 0 (p !! t.2) + acc) 0 (l1 ++ l2) ==
  foldr (fun t acc => t.1 * default 0 (p !! t.2) + acc) 0 l1 +
  foldr (fun t acc => t.1 * default 0 (p !! t.2) + acc) 0 l2.
Proof.
  induction l1 as [|t l1 IH]; cbn [foldr app]; [lra|]. rewrite IH. lra.
Qed.

Lemma Qabs_mult_le (a p tol : Q) : Qabs a <= tol → Qabs (a * p) <= tol * Qabs p.
Proof.
  intros Ha. rewrite Qabs_Qmult. apply Qmult_le_compat_r; [exact Ha|apply Qabs_nonneg].
Qed.

Lemma linear_terms_value_bound (row : nat → Q) (n_x : nat) (tol : Q)
    (js : list nat) (expr expr' : LinExpr) (p : vec) :
  0 <= tol →
  linear_terms row (seq 0 n_x) tol js expr = Some expr' →
  Qabs (foldr (fun t acc => t.1 * default 0 (p !! t.2) + acc) 0 (lin_terms expr')
        - foldr (fun t acc => t.1 * default 0 (p !! t.2) + acc) 0 (lin_terms expr)
        - foldr Qplus 0 ((fun j => row j * default 0 (p !! j)) <$> js))
  <= tol * foldr Qplus 0 ((fun j => Qabs (default 0 (p !! j))) <$> js).
Proof.
  intros Htol. revert expr. induction js as [|j js IH]; intros expr Hterms.
  - cbn in Hterms. injection Hterms as <-. cbn [fmap list_fmap foldr].
    apply Qabs_Qle_condition. split; lra.
  - cbn [linear_terms] in Hterms. cbn [fmap list_fmap foldr].
    pose proof (Qabs_nonneg (default 0 (p !! j))) as Hp.
    assert (Hprod : 0 <= tol * Qabs (default 0 (p !! j))) by (apply Qmult_le_0_compat; assumption).
    destruct (gt_tol tol (row j)) eqn:Hgt.
    + destruct (seq 0 n_x !! j) as [v|] eqn:Hv; [|discriminate Hterms].
      apply lookup_seq in Hv as [-> _]. cbn [mbind option_bind] in Hterms.
      specialize (IH _ Hterms). unfold LinExpr_add_term in IH. cbn [lin_terms] in IH.
      rewrite terms_value_app in IH. cbn [foldr fst snd] in IH.
      apply Qabs_Qle_condition in IH. apply Qabs_Qle_condition.
      change (0 + j)%nat with j in IH. split; lra.
    + specialize (IH _ Hterms). apply gt_tol_false in Hgt.
      pose proof (Qabs_mult_le _ (default 0 (p !! j)) _ Hgt) as Hdrop.
      apply Qabs_Qle_condition in IH. apply Qabs_Qle_condition in Hdrop.
      apply Qabs_Qle_condition. split; lra.
Qed.

(** X2.  The expression [linear_expression] builds for row [i] differs from
    the exact [A_i p + b_i] by at most [tol * (|p_0| + ... + |p_{n-1}| + 1)]
    at every point [p]: what the tolerance drops is bounded, and nothing
    else is changed. *)
Theorem linear_expression_value_bound (n_x : nat) (A : ndarray) (b : vec)
    (tol : Q) (exprs : list LinExpr) (i : nat) (expr : LinExpr) (b_i : Q)
    (p : vec) :
  0 <= tol →
  linear_expression A b (seq 0 n_x) tol = Some exprs →
  exprs !! i = Some expr →
  b !! i = Some b_i →
  Qabs (LinExpr_value expr p - (row_dot A i p + b_i))
  <= tol * (norm1 (shape1 A) p + 1).
Proof.
  intros Htol Hexprs Hi Hb.
  destruct (linear_expression_rows _ _ _ _ _ Hexprs) as [_ Hrows].
  specialize (Hrows i expr Hi). unfold linear_row in Hrows.
  destruct (linear_terms _ _ _ _ _) as [expr0|] eqn:Hterms; [|discriminate Hrows].
  cbn [mbind option_bind] in Hrows. rewrite Hb in Hrows.
  cbn [mbind option_bind] in Hrows. injection Hrows as <-.
  destruct (linear_terms_spec _ _ _ _ _ _ Hterms) as [Hconst _].
  pose proof (linear_terms_value_bound _ _ _ _ _ _ p Htol Hterms) as Hbound.
  cbn [LinExpr_new lin_terms lin_const foldr] in Hbound, Hconst.
  unfold LinExpr_value, row_dot, norm1.
  apply Qabs_Qle_condition in Hbound. apply Qabs_Qle_condition.
  destruct (gt_tol tol b_i) eqn:Hgt;
    cbn [LinExpr_add_const lin_terms lin_const]; rewrite Hconst.
  - split; lra.
  - apply gt_tol_false, Qabs_Qle_condition in Hgt. split; lra.
Qed.

(** The row [(1e-11, 2) . p + 3] at [p = (5, 7)]: the first coefficient is
    dropped. *)
Lemma linear_expression_value_bound_witness :
  Qabs (LinExpr_value (mkLinExpr [(2, 1%nat)] (0 + 3)) [5; 7]
        - (row_dot (np_matrix [[Q_of_float 1e-11; 2]]) 0 [5; 7] + 3))
  <= linear_tol * (norm1 2 [5; 7] + 1).
Proof.
  apply (linear_expression_value_bound 2 (np_matrix [[Q_of_float 1e-11; 2]]) [3]
           linear_tol [mkLinExpr [(2, 1%nat)] (0 + 3)] 0
           (mkLinExpr [(2, 1%nat)] (0 + 3)) 3 [5; 7]).
  - apply Qle_bool_iff. vm_compute. reflexivity.
  - vm_compute. reflexivity.
  - reflexivity.
  - reflexivity.
Defined.

Lemma linear_terms_value_exact (row : nat → Q) (n_x : nat) (tol : Q)
    (js : list nat) (expr expr' : LinExpr) (p : vec) :
  (∀ j, j ∈ js → row j == 0 ∨ gt_tol tol (row j) = true) →
  linear_terms row (seq 0 n_x) tol js expr = Some expr' →
  foldr (fun t acc => t.1 * default 0 (p !! t.2) + acc) 0 (lin_terms expr')
  == foldr (fun t acc => t.1 * default 0 (p !! t.2) + acc) 0 (lin_terms expr)
     + foldr Qplus 0 ((fun j => row j * default 0 (p !! j)) <$> js).
Proof.
  revert expr. induction js as [|j js IH]; intros expr Hbig Hterms.
  - cbn in Hterms. injection Hterms as <-. cbn [fmap list_fmap foldr]. lra.
  - cbn [linear_terms] in Hterms. cbn [fmap list_fmap foldr].
    assert (Hrest : ∀ k, k ∈ js → row k == 0 ∨ gt_tol tol (row k) = true)
      by (intros k Hk; apply Hbig; right; exact Hk).
    destruct (gt_tol tol (row j)) eqn:Hgt.
    + destruct (seq 0 n_x !! j) as [v|] eqn:Hv; [|discriminate Hterms].
      apply lookup_seq in Hv as [-> _]. cbn [mbind option_bind] in Hterms.
      rewrite (IH _ Hrest Hterms). unfold LinExpr_add_term. cbn [lin_terms].
      rewrite terms_value_app. cbn [foldr fst snd]. change (0 + j)%nat with j. lra.
    + rewrite (IH _ Hrest Hterms).
      destruct (Hbig j (list_elem_of_here _ _)) as [Hzero|Hgt']; [|congruence].
      rewrite Hzero. lra.
Qed.

(** X3.  Where no entry of row [i] of [A] and of [b] is both different from
    zero and within the tolerance, the expression [linear_expression] builds
    for the row has exactly the value [A_i p + b_i] at every point [p]. *)
Theorem linear_expression_exact (n_x : nat) (A : ndarray) (b : vec)
    (tol : Q) (exprs : list LinExpr) (i : nat) (expr : LinExpr) (b_i : Q)
    (p : vec) :
  linear_expression A b (seq 0 n_x) tol = Some exprs →
  exprs !! i = Some expr →
  b !! i = Some b_i →
  (∀ j, (j < shape1 A)%nat → item A i j == 0 ∨ ¬ Qabs (item A i j) <= tol) →
  (b_i == 0 ∨ ¬ Qabs b_i <= tol) →
  LinExpr_value expr p == row_dot A i p + b_i.
Proof.
  intros Hexprs Hi Hb Hrow Hb_i.
  destruct (linear_expression_rows _ _ _ _ _ Hexprs) as [_ Hrows].
  specialize (Hrows i expr Hi). unfold linear_row in Hrows.
  destruct (linear_terms _ _ _ _ _) as [expr0|] eqn:Hterms; [|discriminate Hrows].
  cbn [mbind option_bind] in Hrows. rewrite Hb in Hrows.
  cbn [mbind option_bind] in Hrows. injection Hrows as <-.
  destruct (linear_terms_spec _ _ _ _ _ _ Hterms) as [Hconst _].
  assert (Hbig : ∀ j, j ∈ seq 0 (shape1 A) →
                   item A i j == 0 ∨ gt_tol tol (item A i j) = true).
  { intros j Hj. apply elem_of_seq in Hj.
    destruct (Hrow j) as [Hzero|Hbig]; [lia | left; exact Hzero | right].
    apply gt_tol_true. exact Hbig. }
  pose proof (linear_terms_value_exact _ _ _ _ _ _ p Hbig Hterms) as Hvalue.
  cbn [LinExpr_new lin_terms lin_const foldr] in Hvalue, Hconst.
  unfold LinExpr_value, row_dot.
  destruct (gt_tol tol b_i) eqn:Hgt;
    cbn [LinExpr_add_const lin_terms lin_const]; rewrite Hconst, Hvalue.
  - lra.
  - destruct Hb_i as [Hzero|Hbig_b]; [rewrite Hzero; lra|].
    apply gt_tol_false in Hgt. contradiction.
Qed.

(** The row [(0, 2) . p + 3] at [p = (5, 7)]. *)
Lemma linear_expression_exact_witness :
  LinExpr_value (mkLinExpr [(2, 1%nat)] (0 + 3)) [5; 7]
  == row_dot (np_matrix [[0; 2]]) 0 [5; 7] + 3.
Proof.
  apply (linear_expression_exact 2 (np_matrix [[0; 2]]) [3] linear_tol
           [mkLinExpr [(2, 1%nat)] (0 + 3)] 0 (mkLinExpr [(2, 1%nat)] (0 + 3))
           3 [5; 7]).
  - vm_compute. reflexivity.
  - reflexivity.
  - reflexivity.
  - intros [|[|j]] Hj; [left; reflexivity | right | cbn in Hj; lia].
    intros Hle. apply Qle_bool_iff in Hle. vm_compute in Hle. discriminate Hle.
  - right. intros Hle. apply Qle_bool_iff in Hle. vm_compute in Hle. discriminate Hle.
Defined.
(** ** The built model *)

Lemma quadratic_terms_is_Some (H : ndarray) (x : list nat) (tol : Q) (i : nat)
    (js : list nat) (expr : QuadExpr) :
  is_Some (quadratic_terms H x tol i js expr) ↔
  ∀ j, j ∈ js → gt_tol tol (item H i j) = true →
       (i < length x)%nat ∧ (j < length x)%nat.
Proof.
  revert expr. induction js as [|j js IH]; intros expr.
  - cbn. split; [|eauto]. intros _ j Hj. apply elem_of_nil in Hj. contradiction.
  - cbn [quadratic_terms]. destruct (gt_tol tol (item H i j)) eqn:Hgt.
    + destruct (x !! i) as [x_i|] eqn:Hxi; cbn [mbind option_bind].
      * destruct (x !! j) as [x_j|] eqn:Hxj; cbn [mbind option_bind].
        -- rewrite IH. apply lookup_lt_Some in Hxi, Hxj. split.
           ++ intros Hrest k Hk Hgtk. apply elem_of_cons in Hk as [->|Hk]; auto.
           ++ intros Hall k Hk. apply Hall. right. exact Hk.
        -- apply lookup_ge_None in Hxj. split; [intros [? [=]]|].
           intros Hall. destruct (Hall j (list_elem_of_here _ _) Hgt). lia.
      * apply lookup_ge_None in Hxi. split; [intros [? [=]]|].
        intros Hall. destruct (Hall j (list_elem_of_here _ _) Hgt). lia.
    + rewrite IH. split.
      * intros Hrest k Hk Hgtk. apply elem_of_cons in Hk as [->|Hk]; [congruence|auto].
      * intros Hall k Hk. apply Hall. right. exact Hk.
Qed.

Lemma quadratic_rows_is_Some (H : ndarray) (x : list nat) (tol : Q)
    (rows : list nat) (expr : QuadExpr) :
  is_Some (quadratic_rows H x tol rows expr) ↔
  ∀ i j, i ∈ rows → (j < shape1 H)%nat → gt_tol tol (item H i j) = true →
         (i < length x)%nat ∧ (j < length x)%nat.
Proof.
  revert expr. induction rows as [|i rows IH]; intros expr.
  - cbn. split; [|eauto]. intros _ i j Hi. apply elem_of_nil in Hi. contradiction.
  - cbn [quadratic_rows].
    destruct (quadratic_terms H x tol i (seq 0 (shape1 H)) expr) as [expr1|] eqn:Hterms;
      cbn [mbind option_bind].
    + assert (Hrow : is_Some (quadratic_terms H x tol i (seq 0 (shape1 H)) expr))
        by (rewrite Hterms; eauto).
      rewrite quadratic_terms_is_Some in Hrow. rewrite IH. split.
      * intros Hrest k j Hk Hj Hgt. apply elem_of_cons in Hk as [->|Hk].
        -- apply Hrow; [apply elem_of_seq; lia | exact Hgt].
        -- eauto.
      * intros Hall k j Hk. apply Hall. right. exact Hk.
    + split; [intros [? [=]]|]. intros Hall.
      assert (Hrow : is_Some (quadratic_terms H x tol i (seq 0 (shape1 H)) expr)).
      { apply quadratic_terms_is_Some. intros j Hj. apply elem_of_seq in Hj.
        apply Hall; [left | lia]. }
      rewrite Hterms in Hrow. destruct Hrow as [? [=]].
Qed.

(** What a successful [_build_model] has computed. *)
Lemma build_model_inv (H : option ndarray) (f : vec) (A : ndarray) (b : vec)
    (C : option ndarray) (d : option vec) (model : Model) :
  _build_model H f A b C d = Some model →
  ∃ ineq eq cost expr_0,
    linear_expression A (Qopp <$> b) (seq 0 (length f `max` 1)) linear_tol = Some ineq ∧
    match C, d with
    | Some C, Some d =>
        linear_expression C (Qopp <$> d) (seq 0 (length f `max` 1)) linear_tol
    | _, _ => Some []
    end = Some eq ∧
    match H with
    | Some H => QuadExpr_half <$>
                quadratic_expression H (seq 0 (length f `max` 1)) quadratic_tol
    | None => Some QuadExpr_new
    end = Some cost ∧
    length f ≠ 0%nat ∧
    linear_row (mk_ndarray 1 (length f `max` 1) (fun _ j => default 0 (f !! j)))
               [0] (seq 0 (length f `max` 1)) linear_tol 0 = Some expr_0 ∧
    model = mkModel (replicate (length f `max` 1) CONTINUOUS)
              (named_constrs "ineq_" LESS_EQUAL ineq ++ named_constrs "eq_" EQUAL eq)
              (mkQuadExpr (quad_terms cost) (LinExpr_add (quad_lin cost) expr_0))
              ∅.
Proof.
  unfold _build_model. intros Hbuild.
  destruct (linear_expression A _ _ _) as [ineq|] eqn:Hineq; [|discriminate Hbuild].
  cbn [mbind option_bind] in Hbuild.
  destruct (match C with Some _ => _ | None => _ end) as [eq|] eqn:Heq;
    [|discriminate Hbuild].
  cbn [mbind option_bind] in Hbuild.
  destruct (match H with Some _ => _ | None => _ end) as [cost|] eqn:Hcost;
    [|discriminate Hbuild].
  cbn [mbind option_bind] in Hbuild.
  destruct (decide (length f ≠ 0%nat)) as [Hf|Hf];
    [rewrite option_guard_True in Hbuild by exact Hf
    |rewrite option_guard_False in Hbuild by exact Hf; discriminate Hbuild].
  cbn [mbind option_bind] in Hbuild.
  destruct (linear_expression (mk_ndarray _ _ _) _ _ _) as [expr|] eqn:Hexpr;
    [|discriminate Hbuild].
  cbn [mbind option_bind] in Hbuild.
  destruct (expr !! 0%nat) as [expr_0|] eqn:Hexpr0; [|discriminate Hbuild].
  cbn [mbind option_bind] in Hbuild. injection Hbuild as <-.
  exists ineq, eq, cost, expr_0. split_and!; try reflexivity; try assumption.
  apply (proj2 (linear_expression_rows _ _ _ _ _ Hexpr) 0%nat expr_0 Hexpr0).
Qed.

Lemma string_app_inj (prefix a b : string) : prefix +:+ a = prefix +:+ b → a = b.
Proof.
  induction prefix as [|c prefix IH]; [auto|]. cbn. intros [= Heq]. auto.
Qed.

(** Looking a constraint up by name among [prefix0, prefix1, ...] finds the
    one at that index. *)
Lemma find_named_constrs (prefix : string) (s : sense) (exprs : list LinExpr)
    (i : nat) :
  List.find (fun constr => String.eqb (constr_name constr) (prefix +:+ pretty i))
            (named_constrs prefix s exprs)
  = (fun expr => mkConstr (prefix +:+ pretty i) expr s) <$> exprs !! i.
Proof.
  unfold named_constrs.
  enough (Hgen : ∀ k,
            List.find (fun constr => String.eqb (constr_name constr)
                                       (prefix +:+ pretty (k + i)%nat))
                      (imap (fun n expr => mkConstr (prefix +:+ pretty (k + n)%nat) expr s)
                            exprs)
            = (fun expr => mkConstr (prefix +:+ pretty (k + i)%nat) expr s) <$> exprs !! i)
    by exact (Hgen 0%nat).
  revert i. induction exprs as [|expr exprs IH]; intros i k; [reflexivity|].
  rewrite imap_cons. cbn [List.find constr_name].
  destruct i as [|i].
  - rewrite Nat.add_0_r, String.eqb_refl. reflexivity.
  - destruct (String.eqb_spec (prefix +:+ pretty (k + 0)%nat)
                (prefix +:+ pretty (k + S i)%nat)) as [Heq|_].
    + apply string_app_inj, (inj pretty) in Heq. lia.
    + cbn [lookup list_lookup].
      replace (k + S i)%nat with (S k + i)%nat by lia. rewrite <- IH.
      f_equal. apply imap_ext. intros n y _. cbn.
      replace (k + S n)%nat with (S (k + n)) by lia. reflexivity.
Qed.

Lemma find_other_prefix (name : string) (prefix : string) (s : sense)
    (exprs : list LinExpr) :
  (∀ n : nat, prefix +:+ pretty n ≠ name) →
  List.find (fun constr => String.eqb (constr_name constr) name)
            (named_constrs prefix s exprs) = None.
Proof.
  intros Hne.
  destruct (List.find _ _) as [constr|] eqn:Hfind; [|reflexivity].
  apply find_some in Hfind as [Hin Heq]. apply String.eqb_eq in Heq.
  apply list_elem_of_In in Hin. unfold named_constrs in Hin.
  apply elem_of_lookup_imap in Hin as (n & expr & -> & _).
  cbn in Heq. destruct (Hne n Heq).
Qed.

Lemma find_app {A : Type} (f : A → bool) (l k : list A) :
  List.find f (l ++ k) = match List.find f l with Some a => Some a | None => List.find f k end.
Proof.
  induction l as [|a l IH]; [reflexivity|]. cbn. destruct (f a); [reflexivity|exact IH].
Qed.

Lemma linear_expression_lookup (A : ndarray) (b : vec) (x : list nat) (tol : Q)
    (exprs : list LinExpr) (i : nat) :
  linear_expression A b x tol = Some exprs →
  exprs !! i = if bool_decide (i < shape0 A)%nat then linear_row A b x tol i else None.
Proof.
  intros Hexprs. destruct (linear_expression_rows _ _ _ _ _ Hexprs) as [Hlen Hrows].
  case_bool_decide as Hi.
  - destruct (lookup_lt_is_Some_2 exprs i) as [expr Hexpr]; [lia|].
    rewrite Hexpr. symmetry. exact (Hrows i expr Hexpr).
  - apply lookup_ge_None. lia.
Qed.

(** What [getConstrByName] finds in a built model under the names
    [ineq_i] and [eq_i]. *)
Lemma getConstrByName_built (H : option ndarray) (f : vec) (A : ndarray)
    (b : vec) (C : option ndarray) (d : option vec) (model : Model) (i : nat) :
  _build_model H f A b C d = Some model →
  getConstrByName model ("ineq_" +:+ pretty i)
  = (if bool_decide (i < shape0 A)%nat
     then (fun expr => mkConstr ("ineq_" +:+ pretty i) expr LESS_EQUAL) <$>
          linear_row A (Qopp <$> b) (seq 0 (length f `max` 1)) linear_tol i
     else None) ∧
  getConstrByName model ("eq_" +:+ pretty i)
  = match C, d with
    | Some C, Some d =>
        if bool_decide (i < shape0 C)%nat
        then (fun expr => mkConstr ("eq_" +:+ pretty i) expr EQUAL) <$>
             linear_row C (Qopp <$> d) (seq 0 (length f `max` 1)) linear_tol i
        else None
    | _, _ => None
    end.
Proof.
  intros Hbuild.
  destruct (build_model_inv _ _ _ _ _ _ _ Hbuild)
    as (ineq & eq & cost & expr_0 & Hineq & Heq & _ & _ & _ & ->).
  unfold getConstrByName. cbn [model_constrs]. rewrite !find_app.
  rewrite (find_named_constrs "ineq_"), (find_named_constrs "eq_").
  rewrite (find_other_prefix ("eq_" +:+ pretty i) "ineq_")
    by (intros n; discriminate).
  rewrite (find_other_prefix ("ineq_" +:+ pretty i) "eq_")
    by (intros n; discriminate).
  rewrite (linear_expression_lookup _ _ _ _ _ i Hineq). split.
  - destruct (bool_decide (i < shape0 A)%nat); [|reflexivity].
    destruct (linear_row _ _ _ _ _); reflexivity.
  - destruct C as [C|], d as [d|]; try (injection Heq as <-; reflexivity).
    rewrite (linear_expression_lookup _ _ _ _ _ i Heq).
    destruct (bool_decide (i < shape0 C)%nat); reflexivity.
Qed.

(** X4.  In a model that [_build_model] returns, [getConstrByName] finds
    under [ineq_i] row [i] of [A x - b <= 0] for every [i] below
    [A.shape[0]] and nothing for larger [i]; under [eq_i] it finds row [i] of
    [C x - d == 0] when both [C] and [d] were given, and nothing at all when
    one of them is missing. *)
Theorem constraints_found_by_name (H : option ndarray) (f : vec) (A : ndarray)
    (b : vec) (C : option ndarray) (d : option vec) (model : Model) (i : nat) :
  _build_model H f A b C d = Some model →
  getConstrByName model ("ineq_" +:+ pretty i)
  = (if bool_decide (i < shape0 A)%nat
     then (fun expr => mkConstr ("ineq_" +:+ pretty i) expr LESS_EQUAL) <$>
          linear_row A (Qopp <$> b) (seq 0 (length f `max` 1)) linear_tol i
     else None) ∧
  ((i < shape0 A)%nat ↔ is_Some (getConstrByName model ("ineq_" +:+ pretty i))) ∧
  getConstrByName model ("eq_" +:+ pretty i)
  = match C, d with
    | Some C, Some d =>
        if bool_decide (i < shape0 C)%nat
        then (fun expr => mkConstr ("eq_" +:+ pretty i) expr EQUAL) <$>
             linear_row C (Qopp <$> d) (seq 0 (length f `max` 1)) linear_tol i
        else None
    | _, _ => None
    end.
Proof.
  intros Hbuild.
  destruct (getConstrByName_built _ _ _ _ _ _ _ i Hbuild) as [Hineq_find Heq_find].
  split; [exact Hineq_find|]. split; [|exact Heq_find].
  rewrite Hineq_find.
  destruct (build_model_inv _ _ _ _ _ _ _ Hbuild)
    as (ineq & eq & cost & expr_0 & Hineq & _).
  case_bool_decide as Hi.
  - split; [intros _|auto].
    destruct (proj1 (linear_expression_is_Some _ _ _ _) (mk_is_Some _ _ Hineq) i Hi)
      as [Hb Hcols].
    destruct (proj2 (linear_row_is_Some A (Qopp <$> b)
                       (seq 0 (length f `max` 1)) linear_tol i)) as [expr ->].
    { split; [exact Hb|]. intros j Hj Hgt. apply Hcols; assumption. }
    cbn. eauto.
  - split; [intros Hlt; contradiction | intros [? [=]]].
Qed.

(** The program [min x s.t. x <= 0] with the equality matrix [C = (1)] given
    and [d] left out: [ineq_0] is there, [eq_0] is not. *)
Lemma constraints_found_by_name_witness :
  ∃ model,
    _build_model None [1] unbounded_lp_A [0] (Some (np_matrix [[1]])) None = Some model ∧
    is_Some (getConstrByName model "ineq_0") ∧
    getConstrByName model "eq_0" = None.
Proof.
  destruct (returns_Some
              (_build_model None [1] unbounded_lp_A [0] (Some (np_matrix [[1]])) None))
    as [model Hmodel]; [vm_compute; reflexivity|].
  exists model. split; [exact Hmodel|].
  destruct (constraints_found_by_name None [1] unbounded_lp_A [0]
              (Some (np_matrix [[1]])) None model 0 Hmodel) as (_ & Hineq & Heq).
  split; [apply Hineq; cbn; lia | exact Heq].
Defined.

(** ** When [_build_model] raises, and what it builds *)

Lemma built_f_row_returns (f : vec) (n_x : nat) (tol : Q) :
  is_Some (linear_row (mk_ndarray 1 n_x (fun _ j => default 0 (f !! j)))
                      [0] (seq 0 n_x) tol 0).
Proof.
  apply linear_row_is_Some. cbn [length shape1]. split; [lia|].
  intros j Hj _. rewrite length_seq. exact Hj.
Qed.

Lemma build_model_is_Some (H : option ndarray) (f : vec) (A : ndarray) (b : vec)
    (C : option ndarray) (d : option vec) :
  is_Some (_build_model H f A b C d) ↔
  length f ≠ 0%nat ∧
  is_Some (linear_expression A (Qopp <$> b) (seq 0 (length f)) linear_tol) ∧
  (∀ C' d', C = Some C' → d = Some d' →
     is_Some (linear_expression C' (Qopp <$> d') (seq 0 (length f)) linear_tol)) ∧
  (∀ H', H = Some H' →
     is_Some (quadratic_expression H' (seq 0 (length f)) quadratic_tol)).
Proof.
  split.
  - intros [model Hbuild].
    destruct (build_model_inv _ _ _ _ _ _ _ Hbuild)
      as (ineq & eq & cost & expr_0 & Hineq & Heq & Hcost & Hf & _ & _).
    replace (length f `max` 1)%nat with (length f) in * by lia.
    split; [exact Hf|]. split; [rewrite Hineq; eauto|]. split.
    + intros C' d' -> ->. rewrite Heq. eauto.
    + intros H' ->. destruct (quadratic_expression H' _ _); [eauto|discriminate Hcost].
  - intros (Hf & [ineq Hineq] & Heq & Hcost). unfold _build_model.
    replace (length f `max` 1)%nat with (length f) by lia.
    rewrite Hineq. cbn [mbind option_bind].
    assert (Heq' : ∃ eq, match C, d with
                         | Some C, Some d =>
                             linear_expression C (Qopp <$> d) (seq 0 (length f)) linear_tol
                         | _, _ => Some []
                         end = Some eq).
    { destruct C as [C'|]; [destruct d as [d'|]|]; eauto.
      exact (Heq C' d' eq_refl eq_refl). }
    destruct Heq' as [eq ->]. cbn [mbind option_bind].
    assert (Hcost' : ∃ cost, match H with
                             | Some H => QuadExpr_half <$>
                                         quadratic_expression H (seq 0 (length f)) quadratic_tol
                             | None => Some QuadExpr_new
                             end = Some cost).
    { destruct H as [H'|]; [|eauto].
      destruct (Hcost H' eq_refl) as [q ->]. cbn. eauto. }
    destruct Hcost' as [cost ->]. cbn [mbind option_bind].
    rewrite option_guard_True by exact Hf. cbn [mbind option_bind].
    unfold linear_expression at 1. cbn [shape0 seq mapM].
    destruct (built_f_row_returns f (length f) linear_tol) as [expr_0 ->].
    cbn. eauto.
Qed.

(** X5.  [_build_model] returns a model exactly when [f] is not empty, [b]
    has an entry for every row of [A] and [d] for every row of [C] (when both
    are given), and every coefficient of [A], [C] and [H] above its tolerance
    sits in a row or column for which there is a variable, of which there
    are as many as [f] has entries.  In every other case the call raises. *)
Theorem build_model_returns_iff (H : option ndarray) (f : vec) (A : ndarray)
    (b : vec) (C : option ndarray) (d : option vec) :
  is_Some (_build_model H f A b C d) ↔
  length f ≠ 0%nat ∧
  (∀ i, (i < shape0 A)%nat →
     (i < length b)%nat ∧
     ∀ j, (j < shape1 A)%nat → ¬ Qabs (item A i j) <= linear_tol →
          (j < length f)%nat) ∧
  (∀ C' d', C = Some C' → d = Some d' →
     ∀ i, (i < shape0 C')%nat →
       (i < length d')%nat ∧
       ∀ j, (j < shape1 C')%nat → ¬ Qabs (item C' i j) <= linear_tol →
            (j < length f)%nat) ∧
  (∀ H', H = Some H' →
     ∀ i j, (i < shape0 H')%nat → (j < shape1 H')%nat →
       ¬ Qabs (item H' i j) <= quadratic_tol →
       (i < length f)%nat ∧ (j < length f)%nat).
Proof.
  rewrite build_model_is_Some.
  assert (Hlin : ∀ (M : ndarray) (c : vec),
            is_Some (linear_expression M (Qopp <$> c) (seq 0 (length f)) linear_tol) ↔
            ∀ i, (i < shape0 M)%nat →
              (i < length c)%nat ∧
              ∀ j, (j < shape1 M)%nat → ¬ Qabs (item M i j) <= linear_tol →
                   (j < length f)%nat).
  { intros M c. rewrite linear_expression_is_Some.
    rewrite length_fmap, length_seq.
    split; intros Hall i Hi; (split; [apply Hall; exact Hi|]); intros j Hj Hbig;
      apply (proj2 (Hall i Hi) j Hj); apply gt_tol_true; exact Hbig. }
  assert (Hquad : ∀ H' : ndarray,
            is_Some (quadratic_expression H' (seq 0 (length f)) quadratic_tol) ↔
            ∀ i j, (i < shape0 H')%nat → (j < shape1 H')%nat →
              ¬ Qabs (item H' i j) <= quadratic_tol →
              (i < length f)%nat ∧ (j < length f)%nat).
  { intros H'. unfold quadratic_expression. rewrite quadratic_rows_is_Some.
    rewrite length_seq.
    split; intros Hall i j.
    - intros Hi Hj Hbig. apply Hall; [apply elem_of_seq; lia | exact Hj|].
      apply gt_tol_true. exact Hbig.
    - intros Hi Hj Hbig. apply elem_of_seq in Hi.
      apply Hall; [lia | exact Hj|]. apply gt_tol_true. exact Hbig. }
  rewrite Hlin. split.
  - intros (Hf & HA & HC & HH). split_and!; [exact Hf | exact HA | |].
    + intros C' d' HC' Hd'. apply Hlin. exact (HC C' d' HC' Hd').
    + intros H' HH'. apply Hquad. exact (HH H' HH').
  - intros (Hf & HA & HC & HH). split_and!; [exact Hf | exact HA | |].
    + intros C' d' HC' Hd'. apply Hlin. exact (HC C' d' HC' Hd').
    + intros H' HH'. apply Hquad. exact (HH H' HH').
Qed.

Lemma named_constrs_names (prefix : string) (s : sense) (exprs : list LinExpr) :
  constr_name <$> named_constrs prefix s exprs
  = (fun i : nat => prefix +:+ pretty i) <$> seq 0 (length exprs).
Proof.
  unfold named_constrs. apply list_eq. intros i.
  rewrite !list_lookup_fmap, list_lookup_imap.
  destruct (exprs !! i) as [expr|] eqn:Hexpr.
  - rewrite lookup_seq_lt by (eapply lookup_lt_Some; exact Hexpr). reflexivity.
  - apply lookup_ge_None in Hexpr.
    rewrite (proj2 (lookup_ge_None (seq 0 (length exprs)) i))
      by (rewrite length_seq; exact Hexpr).
    reflexivity.
Qed.

Lemma named_constrs_NoDup (prefix : string) (s : sense) (exprs : list LinExpr) :
  NoDup (constr_name <$> named_constrs prefix s exprs).
Proof.
  rewrite named_constrs_names. apply NoDup_fmap_2; [|apply NoDup_seq].
  intros i j Heq. apply string_app_inj in Heq. exact (inj pretty _ _ Heq).
Qed.

(** X6.  A model that [_build_model] returns has one continuous variable per
    entry of [f], one constraint per row of [A] followed by one per row of
    [C] (none for [C] when [C] or [d] is missing), pairwise different
    constraint names, no parameter set, and without [H] an objective with no
    quadratic term. *)
Theorem built_model_shape (H : option ndarray) (f : vec) (A : ndarray)
    (b : vec) (C : option ndarray) (d : option vec) (model : Model) :
  _build_model H f A b C d = Some model →
  model_vars model = replicate (length f) CONTINUOUS ∧
  length (model_constrs model)
  = (shape0 A + match C, d with Some C, Some _ => shape0 C | _, _ => 0 end)%nat ∧
  NoDup (constr_name <$> model_constrs model) ∧
  model_params model = ∅ ∧
  (H = None → quad_terms (model_objective model) = []).
Proof.
  intros Hbuild.
  destruct (build_model_inv _ _ _ _ _ _ _ Hbuild)
    as (ineq & eq & cost & expr_0 & Hineq & Heq & Hcost & Hf & _ & ->).
  cbn [model_vars model_constrs model_params model_objective quad_terms].
  destruct (linear_expression_rows _ _ _ _ _ Hineq) as [Hlen _].
  split_and!.
  - f_equal. lia.
  - unfold named_constrs. rewrite length_app, !length_imap, Hlen. f_equal.
    destruct C as [C'|]; [destruct d as [d'|]|]; try (injection Heq as <-; reflexivity).
    exact (proj1 (linear_expression_rows _ _ _ _ _ Heq)).
  - rewrite fmap_app. apply list.NoDup_app. split_and!; try apply named_constrs_NoDup.
    intros name Hineq_name Heq_name.
    rewrite named_constrs_names in Hineq_name, Heq_name.
    apply list_elem_of_fmap in Hineq_name as (i & -> & _).
    apply list_elem_of_fmap in Heq_name as (j & Hname & _).
    discriminate Hname.
  - reflexivity.
  - intros ->. injection Hcost as <-. reflexivity.
Qed.

(** The program [min x0 + x1 s.t. x0 <= 1, x1 <= 1, x0 + x1 == 1]. *)
Lemma built_model_shape_witness :
  ∃ model,
    _build_model None [1; 1] (np_matrix [[1; 0]; [0; 1]]) [1; 1]
                 (Some (np_matrix [[1; 1]])) (Some [1]) = Some model ∧
    model_vars model = [CONTINUOUS; CONTINUOUS] ∧
    length (model_constrs model) = 3%nat ∧
    quad_terms (model_objective model) = [].
Proof.
  destruct (returns_Some
              (_build_model None [1; 1] (np_matrix [[1; 0]; [0; 1]]) [1; 1]
                            (Some (np_matrix [[1; 1]])) (Some [1])))
    as [model Hmodel]; [vm_compute; reflexivity|].
  exists model. split; [exact Hmodel|].
  destruct (built_model_shape None [1; 1] (np_matrix [[1; 0]; [0; 1]]) [1; 1]
              (Some (np_matrix [[1; 1]])) (Some [1]) model Hmodel)
    as (Hvars & Hlen & _ & _ & Hquad).
  split; [exact Hvars|]. split; [exact Hlen|]. exact (Hquad eq_refl).
Defined.

(** ** Solver parameters *)






(** ** The mixed-integer model, variable by variable *)





(** ** Constraint lookups and accepted parameters *)

Lemma getConstrByName_name (model : Model) (name : string) (constr : Constr) :
  getConstrByName model name = Some constr → constr_name constr = name.
Proof.
  unfold getConstrByName. intros Hfind. apply find_some in Hfind as [_ Heq].
  apply String.eqb_eq. exact Heq.
Qed.


(** The multipliers the loop collects are the negated [Pi] of the names it
    looks up; the loop raises exactly when a lookup fails. *)
Lemma multipliers_Some (model : Model) (m : Optimized) (prefix : string)
    (rows : nat) (mult : vec) :
  multipliers model m prefix rows = Some mult →
  mult = (fun i => Qopp (attr_Pi m (prefix +:+ pretty i))) <$> seq 0 rows.
Proof.
  unfold multipliers. intros Hmap. apply mapM_Some in Hmap.
  induction Hmap as [|i v l k Hi _ IH]; [reflexivity|].
  cbn [fmap list_fmap]. rewrite <- IH. f_equal.
  destruct (getConstrByName model (prefix +:+ pretty i)) as [constr|] eqn:Hfind;
    [|discriminate Hi].
  cbn [mbind option_bind] in Hi. injection Hi as <-.
  rewrite (getConstrByName_name _ _ _ Hfind). reflexivity.
Qed.


Lemma nonbasic_rows_Some (model : Model) (m : Optimized) (rows active_set : list nat) :
  nonbasic_rows model m rows = Some active_set →
  active_set
  = filter (fun i => attr_CBasis m ("ineq_" +:+ pretty i) = (-1)%Z) rows.
Proof.
  revert active_set. induction rows as [|i rows IH]; intros active_set Hrows.
  - cbn in Hrows. injection Hrows as <-. reflexivity.
  - cbn [nonbasic_rows] in Hrows.
    destruct (getConstrByName model ("ineq_" +:+ pretty i)) as [constr|] eqn:Hfind;
      [|discriminate Hrows].
    cbn [mbind option_bind] in Hrows.
    destruct (nonbasic_rows model m rows) as [rest|]; [|discriminate Hrows].
    cbn [mbind option_bind] in Hrows. injection Hrows as <-.
    rewrite (getConstrByName_name _ _ _ Hfind), (IH rest eq_refl), filter_cons.
    destruct (decide (attr_CBasis m ("ineq_" +:+ pretty i) = (-1)%Z)) as [Hb|Hb].
    + rewrite bool_decide_eq_true_2 by exact Hb. reflexivity.
    + rewrite bool_decide_eq_false_2 by exact Hb. reflexivity.
Qed.


(** [setParams] goes through exactly when Gurobi accepts every parameter,
    and leaves the parameters set. *)
Lemma setParams_Some (accepts : string → Q → bool) (model model' : Model)
    (kwargs : list (string * Q)) :
  setParams accepts model kwargs = Some model' ↔
  accepted accepts kwargs ∧ model' = with_params model kwargs.
Proof.
  unfold accepted. revert model.
  induction kwargs as [|[k v] kwargs IH]; intros model.
  - cbn. split; [intros [= <-]; split; [constructor | reflexivity] | intros [_ ->]; reflexivity].
  - cbn [setParams fst snd]. unfold setParam.
    destruct (decide (accepts k v = true)) as [Hk|Hk].
    + rewrite option_guard_True by exact Hk. cbn [mbind option_bind].
      rewrite IH. rewrite list.Forall_cons. cbn [fst snd]. split.
      * intros [Hall ->]. split; [split; assumption | reflexivity].
      * intros [[_ Hall] ->]. split; [exact Hall | reflexivity].
    + rewrite option_guard_False by exact Hk. cbn [mbind option_bind].
      split; [discriminate|]. intros [Hall _].
      apply list.Forall_cons in Hall as [Hk' _]. contradiction.
Qed.

Lemma bind_setParams {B : Type} (accepts : string → Q → bool) (model : Model)
    (k : string) (v : Q) (kwargs : list (string * Q)) (rest : Model → option B) :
  (model' ← setParam accepts model k v;
   model'' ← setParams accepts model' kwargs; rest model'')
  = (model' ← setParams accepts model ((k, v) :: kwargs); rest model').
Proof.
  cbn [setParams fst snd]. destruct (setParam accepts model k v); reflexivity.
Qed.

Lemma bind_setParams2 {B : Type} (accepts : string → Q → bool) (model : Model)
    (k1 k2 : string) (v1 v2 : Q) (kwargs : list (string * Q))
    (rest : Model → option B) :
  (model1 ← setParam accepts model k1 v1;
   model2 ← setParam accepts model1 k2 v2;
   model3 ← setParams accepts model2 kwargs; rest model3)
  = (model' ← setParams accepts model ((k1, v1) :: (k2, v2) :: kwargs); rest model').
Proof.
  cbn [setParams fst snd].
  destruct (setParam accepts model k1 v1) as [model1|]; [|reflexivity].
  cbn [mbind option_bind]. destruct (setParam accepts model1 k2 v2); reflexivity.
Qed.




(** ** The solution dictionary of the solver wrapper (C4, C7) *)

Lemma reorganize_not_optimal (model : Model) (m : Optimized) (A : ndarray)
    (C : option ndarray) :
  status m ≠ OPTIMAL →
  _reorganize_solution model m A C true =
    Some (<["multiplier_equality" := PyNone]>
            (<["multiplier_inequality" := PyNone]>
               (<["active_set" := PyNone]>
                  (<["argmin" := PyNone]> (<["min" := PyNone]> ∅))))).
Proof.
  intros Hst. unfold _reorganize_solution.
  rewrite bool_decide_eq_false_2 by exact Hst. reflexivity.
Qed.

Lemma np_vstack_Some (l v : vec) : np_vstack l = Some v → v = l.
Proof. destruct l; [discriminate | intros [= <-]; reflexivity]. Qed.

Lemma five_fields_dom (v1 v2 v3 v4 v5 : pyval) :
  dom (<["multiplier_equality" := v5]>
         (<["multiplier_inequality" := v4]>
            (<["active_set" := v3]>
               (<["argmin" := v2]> (<["min" := v1]> (∅ : gmap string pyval))))))
  = five_fields.
Proof. unfold five_fields. rewrite !dom_insert_L, dom_empty_L. set_solver. Qed.

(** Read a field off a dictionary written as a chain of insertions. *)
Ltac lookup_field :=
  repeat first [rewrite lookup_insert_eq | rewrite lookup_insert_ne by discriminate];
  reflexivity.

(** At status OPTIMAL a returned continuous solution has [min], [argmin] and
    the multipliers set. *)
Lemma reorganize_optimal (model : Model) (m : Optimized) (A : ndarray)
    (C : option ndarray) (sol : gmap string pyval) :
  status m = OPTIMAL →
  _reorganize_solution model m A C true = Some sol →
  sol !! "min" = Some (PyFloat (objVal m)) ∧
  sol !! "argmin" = Some (PyArray (attr_x m)) ∧
  sol !! "active_set" = Some PyNone ∧
  sol !! "multiplier_inequality" =
    Some (PyArray ((fun i => Qopp (attr_Pi m ("ineq_" +:+ pretty i))) <$> seq 0 (shape0 A))) ∧
  sol !! "multiplier_equality"
  = Some match C with
         | Some C' =>
             if bool_decide (0 < shape0 C')%nat
             then PyArray ((fun i => Qopp (attr_Pi m ("eq_" +:+ pretty i)))
                             <$> seq 0 (shape0 C'))
             else PyNone
         | None => PyNone
         end ∧
  dom sol = five_fields.
Proof.
  intros Hst Hsol. unfold _reorganize_solution in Hsol.
  rewrite bool_decide_eq_true_2 in Hsol by exact Hst.
  destruct (multipliers model m "ineq_" (shape0 A)) as [ineq_mult|] eqn:Hineq;
    [|discriminate Hsol].
  apply multipliers_Some in Hineq as ->. cbn [mbind option_bind] in Hsol.
  destruct (np_vstack (_ <$> seq 0 (shape0 A))) as [mult|] eqn:Hmult;
    [|discriminate Hsol].
  apply np_vstack_Some in Hmult as ->. cbn [mbind option_bind] in Hsol.
  destruct C as [C'|]; [destruct (bool_decide (0 < shape0 C')%nat)|].
  - destruct (multipliers model m "eq_" (shape0 C')) as [eq_mult|] eqn:Heq;
      [|discriminate Hsol].
    apply multipliers_Some in Heq as ->. cbn [mbind option_bind] in Hsol.
    destruct (np_vstack (_ <$> seq 0 (shape0 C'))) as [mult'|] eqn:Hmult';
      [|discriminate Hsol].
    apply np_vstack_Some in Hmult' as ->.
    cbn [mbind option_bind] in Hsol. injection Hsol as <-.
    split_and!;
      [lookup_field | lookup_field | lookup_field | lookup_field | lookup_field|].
    rewrite !dom_insert_L, dom_empty_L. unfold five_fields. set_solver.
  - injection Hsol as <-. split_and!;
      [lookup_field | lookup_field | lookup_field | lookup_field | lookup_field|].
    rewrite !dom_insert_L, dom_empty_L. unfold five_fields. set_solver.
  - injection Hsol as <-. split_and!;
      [lookup_field | lookup_field | lookup_field | lookup_field | lookup_field|].
    rewrite !dom_insert_L, dom_empty_L. unfold five_fields. set_solver.
Qed.


Lemma reorganize_mixed_integer (model : Model) (m : Optimized) (A : ndarray)
    (C : option ndarray) :
  ∃ sol, _reorganize_solution model m A C false = Some sol ∧
         dom sol = ({[ "min"; "argmin" ]} : gset string) ∧
         (status m ≠ OPTIMAL → sol !! "min" = Some PyNone ∧ sol !! "argmin" = Some PyNone) ∧
         (status m = OPTIMAL → sol !! "min" = Some (PyFloat (objVal m)) ∧
                               sol !! "argmin" = Some (PyArray (attr_x m))).
Proof.
  unfold _reorganize_solution.
  destruct (bool_decide (status m = OPTIMAL)) eqn:Hst.
  - apply bool_decide_eq_true in Hst.
    eexists. split; [reflexivity|]. split; [|split].
    + rewrite !dom_insert_L, dom_empty_L. set_solver.
    + intros Hne. contradiction.
    + intros _. split; reflexivity.
  - apply bool_decide_eq_false in Hst.
    eexists. split; [reflexivity|]. split; [|split].
    + rewrite !dom_insert_L, dom_empty_L. set_solver.
    + intros _. split; reflexivity.
    + intros Heq. contradiction.
Qed.


Section entry_points.
Variable accepts : string → Q → bool.
Variable optimize : Model → Optimized.
Variables (f : vec) (A : ndarray) (b : vec) (C : option ndarray) (d : option vec).
Variable kwargs : list (string * Q).

(** What a call of [linear_program] that returns has done. *)
Lemma linear_program_inv (sol : gmap string pyval) :
  linear_program accepts optimize f A b C d kwargs = Some sol →
  ∃ model sol0,
    linear_program_model f A b C d kwargs = Some model ∧
    accepted accepts (("OutputFlag", 0) :: kwargs) ∧
    _reorganize_solution model (optimize model) A C true = Some sol0 ∧
    ((status (optimize model) ≠ OPTIMAL ∧ sol = sol0) ∨
     (status (optimize model) = OPTIMAL ∧
      sol = <["active_set" :=
                PyList (filter (fun i => attr_CBasis (optimize model)
                                           ("ineq_" +:+ pretty i) = (-1)%Z)
                               (seq 0 (shape0 A)))]> sol0)).
Proof.
  unfold linear_program, linear_program_model. intros Hsol.
  destruct (_build_model None f A b C d) as [built|]; [|discriminate Hsol].
  cbn [mbind option_bind] in Hsol |- *. rewrite bind_setParams in Hsol.
  destruct (setParams accepts built (("OutputFlag", 0) :: kwargs)) as [model|] eqn:Hconf;
    [|discriminate Hsol].
  apply setParams_Some in Hconf as [Hacc ->]. cbn [mbind option_bind] in Hsol.
  change (with_params (with_param built "OutputFlag" 0) kwargs)
    with (with_params built (("OutputFlag", 0) :: kwargs)).
  destruct (_reorganize_solution _ _ A C true) as [sol0|] eqn:Hsol0;
    [|discriminate Hsol].
  cbn [mbind option_bind] in Hsol. eexists _, sol0.
  split; [reflexivity|]. split; [exact Hacc|]. split; [exact Hsol0|].
  case_bool_decide as Hst; [right | left; injection Hsol as <-; auto].
  destruct (nonbasic_rows _ _ _) as [active_set|] eqn:Hrows; [|discriminate Hsol].
  cbn [mbind option_bind] in Hsol. injection Hsol as <-.
  apply nonbasic_rows_Some in Hrows as ->. auto.
Qed.


Variables (H : ndarray) (tol : Q).

Lemma quadratic_program_inv (sol : gmap string pyval) :
  quadratic_program accepts optimize H f A b C d tol kwargs = Some sol →
  ∃ model sol0,
    quadratic_program_model H f A b C d kwargs = Some model ∧
    accepted accepts
      (("OutputFlag", 0) :: ("BarConvTol", Q_of_float 1e-10) :: kwargs) ∧
    _reorganize_solution model (optimize model) A C true = Some sol0 ∧
    ((status (optimize model) ≠ OPTIMAL ∧ sol = sol0) ∨
     (status (optimize model) = OPTIMAL ∧
      sol = <["active_set" :=
                PyList (np_where_gt
                          ((fun i => Qopp (attr_Pi (optimize model) ("ineq_" +:+ pretty i)))
                             <$> seq 0 (shape0 A)) tol)]> sol0)).
Proof.
  unfold quadratic_program, quadratic_program_model. intros Hsol.
  destruct (_build_model (Some H) f A b C d) as [built|]; [|discriminate Hsol].
  cbn [mbind option_bind] in Hsol |- *.
  rewrite bind_setParams2 in Hsol.
  destruct (setParams accepts built _) as [model|] eqn:Hconf; [|discriminate Hsol].
  apply setParams_Some in Hconf as [Hacc ->]. cbn [mbind option_bind] in Hsol.
  change (with_params (with_param (with_param built "OutputFlag" 0) "BarConvTol"
                                  (Q_of_float 1e-10)) kwargs)
    with (with_params built
            (("OutputFlag", 0) :: ("BarConvTol", Q_of_float 1e-10) :: kwargs)).
  destruct (_reorganize_solution _ _ A C true) as [sol0|] eqn:Hsol0;
    [|discriminate Hsol].
  cbn [mbind option_bind] in Hsol. eexists _, sol0.
  split; [reflexivity|]. split; [exact Hacc|]. split; [exact Hsol0|].
  case_bool_decide as Hst; [right | left; injection Hsol as <-; auto].
  destruct (reorganize_optimal _ _ _ _ _ Hst Hsol0) as (_ & _ & _ & Hmult & _).
  rewrite Hmult in Hsol. injection Hsol as <-. auto.
Qed.


Variable nc : nat.

Lemma mixed_integer_quadratic_program_inv (sol : gmap string pyval) :
  mixed_integer_quadratic_program accepts optimize nc H f A b C d kwargs = Some sol ↔
  ∃ model,
    mixed_integer_quadratic_program_model nc H f A b C d kwargs = Some model ∧
    accepted accepts (("OutputFlag", 0) :: kwargs) ∧
    _reorganize_solution model (optimize model) A C false = Some sol.
Proof.
  unfold mixed_integer_quadratic_program, mixed_integer_quadratic_program_model.
  destruct (_build_model (Some H) f A b C d) as [built|];
    [|split; [discriminate | intros (? & [=] & _)]].
  cbn [mbind option_bind].
  destruct (set_binaries _ _) as [vars|];
    [|split; [discriminate | intros (? & [=] & _)]].
  cbn [mbind option_bind]. rewrite bind_setParams. split.
  - intros Hsol.
    destruct (setParams accepts _ _) as [model|] eqn:Hconf; [|discriminate Hsol].
    apply setParams_Some in Hconf as [Hacc ->]. cbn [mbind option_bind] in Hsol.
    eexists. split; [reflexivity|]. split; [exact Hacc | exact Hsol].
  - intros (model & [= <-] & Hacc & Hsol).
    rewrite (proj2 (setParams_Some _ _ _ _) (conj Hacc eq_refl)). exact Hsol.
Qed.

End entry_points.



(** ** The fields of the returned dictionary (C7) *)

(** C7, as stated, fails for the mixed-integer solver: on the program
    [min .5 x^2 s.t. x <= 0] with [x] binary its dictionary has the two
    fields [min] and [argmin] only. *)
Lemma miqp_solution_lacks_fields :
  read_fields <$>
    mixed_integer_quadratic_program wrapper_parameters weakly_active_qp_optimum 0
      weakly_active_qp_H [0] weakly_active_qp_A [0] None None []
  = Some [ ("min", Some (PyFloat 0)); ("argmin", Some (PyArray [0]));
           ("active_set", None); ("multiplier_inequality", None);
           ("multiplier_equality", None) ].
Proof. vm_compute. reflexivity. Qed.

(** C7, amended.  Every dictionary returned by [linear_program] or
    [quadratic_program] has exactly the five fields [min], [argmin],
    [active_set], [multiplier_inequality] and [multiplier_equality]; every
    dictionary returned by [mixed_integer_quadratic_program] has exactly the
    two fields [min] and [argmin]. *)
Theorem solution_dictionary_fields (accepts : string → Q → bool)
    (optimize : Model → Optimized) (nc : nat)
    (H : ndarray) (f : vec) (A : ndarray) (b : vec) (C : option ndarray)
    (d : option vec) (tol : Q) (kwargs : list (string * Q))
    (sol : gmap string pyval) :
  (linear_program accepts optimize f A b C d kwargs = Some sol →
     dom sol = five_fields) ∧
  (quadratic_program accepts optimize H f A b C d tol kwargs = Some sol →
     dom sol = five_fields) ∧
  (mixed_integer_quadratic_program accepts optimize nc H f A b C d kwargs = Some sol →
     dom sol = {[ "min"; "argmin" ]}).
Proof.
  assert (Hcases : ∀ (m : Optimized) (model : Model) (sol0 : gmap string pyval)
                     (active_set : list nat),
            _reorganize_solution model m A C true = Some sol0 →
            (status m ≠ OPTIMAL ∧ sol = sol0) ∨
            (status m = OPTIMAL ∧ sol = <["active_set" := PyList active_set]> sol0) →
            dom sol = five_fields).
  { intros m model sol0 active_set Hsol0 [[Hne ->]|[Hst ->]].
    - rewrite reorganize_not_optimal in Hsol0 by exact Hne. injection Hsol0 as <-.
      apply five_fields_dom.
    - destruct (reorganize_optimal _ _ _ _ _ Hst Hsol0) as (_ & _ & _ & _ & _ & Hdom).
      rewrite dom_insert_L, Hdom. unfold five_fields. set_solver. }
  split; [|split].
  - intros Hsol.
    apply linear_program_inv in Hsol as (model & sol0 & _ & _ & Hsol0 & Hsol).
    exact (Hcases _ _ _ _ Hsol0 Hsol).
  - intros Hsol.
    apply quadratic_program_inv in Hsol as (model & sol0 & _ & _ & Hsol0 & Hsol).
    exact (Hcases _ _ _ _ Hsol0 Hsol).
  - intros Hsol.
    apply mixed_integer_quadratic_program_inv in Hsol as (model & _ & _ & Hsol).
    destruct (reorganize_mixed_integer model (optimize model) A C) as (sol' & Hsol' & Hdom & _).
    rewrite Hsol' in Hsol. injection Hsol as <-. exact Hdom.
Qed.

(** The quadratic and the mixed-integer solver on
    [min .5 x^2 s.t. x <= 0]. *)
Lemma solution_dictionary_fields_witness :
  (∃ sol, quadratic_program wrapper_parameters weakly_active_qp_optimum
            weakly_active_qp_H [0] weakly_active_qp_A [0] None None
            (Q_of_float 1e-5) [] = Some sol ∧
          dom sol = five_fields) ∧
  (∃ sol, mixed_integer_quadratic_program wrapper_parameters weakly_active_qp_optimum 0
            weakly_active_qp_H [0] weakly_active_qp_A [0] None None [] = Some sol ∧
          dom sol = {[ "min"; "argmin" ]}).
Proof.
  split.
  - destruct (returns_Some
                (quadratic_program wrapper_parameters weakly_active_qp_optimum
                   weakly_active_qp_H [0] weakly_active_qp_A [0] None None
                   (Q_of_float 1e-5) []))
      as [sol Hsol]; [vm_compute; reflexivity|].
    exists sol. split; [exact Hsol|].
    exact (proj1 (proj2 (solution_dictionary_fields wrapper_parameters
             weakly_active_qp_optimum 0 weakly_active_qp_H [0] weakly_active_qp_A
             [0] None None (Q_of_float 1e-5) [] sol)) Hsol).
  - destruct (returns_Some
                (mixed_integer_quadratic_program wrapper_parameters
                   weakly_active_qp_optimum 0
                   weakly_active_qp_H [0] weakly_active_qp_A [0] None None []))
      as [sol Hsol]; [vm_compute; reflexivity|].
    exists sol. split; [exact Hsol|].
    exact (proj2 (proj2 (solution_dictionary_fields wrapper_parameters
             weakly_active_qp_optimum 0 weakly_active_qp_H [0] weakly_active_qp_A
             [0] None None (Q_of_float 1e-5) [] sol)) Hsol).
Defined.

(** ** The active set (C5) *)

Lemma elem_of_np_where_gt (a : vec) (tol : Q) (i : nat) :
  i ∈ np_where_gt a tol ↔ ∃ v, a !! i = Some v ∧ tol < v.
Proof.
  unfold np_where_gt. rewrite list_elem_of_bind. split.
  - intros ([j v] & Hin & Himap). cbn [fst snd] in Hin.
    apply elem_of_lookup_imap in Himap as (k & w & [= -> ->] & Hk).
    destruct (Qle_bool w tol) eqn:Hle; cbn [negb] in Hin.
    + apply elem_of_nil in Hin. contradiction.
    + apply list_elem_of_singleton in Hin as ->. exists w. split; [exact Hk|].
      apply Qnot_le_lt. intros Hle'. apply Qle_bool_iff in Hle'. congruence.
  - intros (v & Hv & Hlt). exists (i, v). split.
    + cbn [fst snd]. destruct (Qle_bool v tol) eqn:Hle; cbn [negb].
      * apply Qle_bool_iff in Hle. apply Qlt_not_le in Hlt. contradiction.
      * apply list_elem_of_singleton. reflexivity.
    + apply elem_of_lookup_imap. eauto.
Qed.

(** C5.  The docstrings of [linear_program] and [quadratic_program] give
    [active_set] as the indices of the active inequalities
    [{i | A_i argmin = b}], and the code does not return that set on
    degenerate programs.  For [min .5 x^2 s.t. x <= 0] the exact optimum
    [x = 0] with multiplier 0 satisfies the optimality conditions and makes
    row 0 tight, yet the returned active set is empty.  For
    [min -x s.t. x <= 1, 2 x <= 2] both rows are tight at [x = 1], and the
    returned active set holds the non-basic row only. *)
Theorem active_set_misses_tight_rows :
  kkt_point (Some weakly_active_qp_H) [0] weakly_active_qp_A [0] [0] [0] = true ∧
  read_fields <$>
    quadratic_program wrapper_parameters weakly_active_qp_optimum
      weakly_active_qp_H [0] weakly_active_qp_A [0] None None (Q_of_float 1e-5) []
  = Some [ ("min", Some (PyFloat 0)); ("argmin", Some (PyArray [0]));
           ("active_set", Some (PyList []));
           ("multiplier_inequality", Some (PyArray [0]));
           ("multiplier_equality", Some PyNone) ] ∧
  tight_rows weakly_active_qp_A [0] [0] = [0%nat] ∧
  kkt_point None [-1] duplicate_row_lp_A [1; 2] [1] [1; 0] = true ∧
  read_fields <$>
    linear_program wrapper_parameters duplicate_row_lp_optimum [-1]
      duplicate_row_lp_A [1; 2] None None []
  = Some [ ("min", Some (PyFloat (-1))); ("argmin", Some (PyArray [1]));
           ("active_set", Some (PyList [0%nat]));
           ("multiplier_inequality", Some (PyArray [1; 0]));
           ("multiplier_equality", Some PyNone) ] ∧
  tight_rows duplicate_row_lp_A [1; 2] [1] = [0%nat; 1%nat].
Proof. split_and!; vm_compute; reflexivity. Qed.

(** X19.  At status OPTIMAL the active set returned by [linear_program]
    lists exactly the rows [i] of [A] whose constraint [ineq_i] the solver
    reports as non-basic ([CBasis = -1]), and the one returned by
    [quadratic_program] lists exactly the rows whose inequality multiplier
    (the negated [Pi] of [ineq_i]) exceeds [tol]. *)
Theorem active_set_from_solver_attributes (accepts : string → Q → bool)
    (optimize : Model → Optimized)
    (H : ndarray) (f : vec) (A : ndarray) (b : vec) (C : option ndarray)
    (d : option vec) (tol : Q) (kwargs : list (string * Q))
    (model : Model) (sol : gmap string pyval) :
  status (optimize model) = OPTIMAL →
  (linear_program_model f A b C d kwargs = Some model →
   linear_program accepts optimize f A b C d kwargs = Some sol →
   ∃ active_set, sol !! "active_set" = Some (PyList active_set) ∧
     ∀ i, i ∈ active_set ↔
          (i < shape0 A)%nat ∧
          attr_CBasis (optimize model) ("ineq_" +:+ pretty i) = (-1)%Z) ∧
  (quadratic_program_model H f A b C d kwargs = Some model →
   quadratic_program accepts optimize H f A b C d tol kwargs = Some sol →
   ∃ active_set, sol !! "active_set" = Some (PyList active_set) ∧
     ∀ i, i ∈ active_set ↔
          (i < shape0 A)%nat ∧
          tol < - attr_Pi (optimize model) ("ineq_" +:+ pretty i)).
Proof.
  intros Hst. split; intros Hmodel Hsol.
  - apply linear_program_inv in Hsol
      as (model' & sol0 & Hmodel' & _ & _ & [[Hne _]|[_ ->]]);
      rewrite Hmodel in Hmodel'; injection Hmodel' as <-; [contradiction|].
    eexists. split; [apply lookup_insert_eq|]. intros i.
    rewrite list_elem_of_filter, elem_of_seq. split.
    + intros [HB Hi]. split; [lia | exact HB].
    + intros [Hi HB]. split; [exact HB | lia].
  - apply quadratic_program_inv in Hsol
      as (model' & sol0 & Hmodel' & _ & _ & [[Hne _]|[_ ->]]);
      rewrite Hmodel in Hmodel'; injection Hmodel' as <-; [contradiction|].
    eexists. split; [apply lookup_insert_eq|]. intros i.
    rewrite elem_of_np_where_gt. split.
    + intros (v & Hv & Hlt). rewrite list_lookup_fmap in Hv.
      destruct (seq 0 (shape0 A) !! i) as [k|] eqn:Hk; [|discriminate Hv].
      apply lookup_seq in Hk as [-> Hi]. cbn in Hv. injection Hv as <-.
      split; [exact Hi | exact Hlt].
    + intros [Hi Hlt]. eexists. split; [|exact Hlt].
      rewrite list_lookup_fmap, lookup_seq_lt by exact Hi. reflexivity.
Qed.

(** The duplicate-row linear program and the weakly active quadratic
    program. *)
Lemma active_set_from_solver_attributes_witness :
  (∃ sol active_set,
     linear_program wrapper_parameters duplicate_row_lp_optimum [-1]
       duplicate_row_lp_A [1; 2] None None [] = Some sol ∧
     sol !! "active_set" = Some (PyList active_set) ∧
     ∀ i, i ∈ active_set ↔
          (i < 2)%nat ∧
          (if String.eqb ("ineq_" +:+ pretty i) "ineq_0" then (-1)%Z else 0%Z) = (-1)%Z) ∧
  (∃ sol active_set,
     quadratic_program wrapper_parameters weakly_active_qp_optimum
       weakly_active_qp_H [0] weakly_active_qp_A [0] None None
       (Q_of_float 1e-5) [] = Some sol ∧
     sol !! "active_set" = Some (PyList active_set) ∧
     ∀ i, i ∈ active_set ↔ (i < 1)%nat ∧ Q_of_float 1e-5 < - 0).
Proof.
  split.
  - destruct (returns_Some
                (linear_program wrapper_parameters duplicate_row_lp_optimum [-1]
                   duplicate_row_lp_A [1; 2] None None []))
      as [sol Hsol]; [vm_compute; reflexivity|].
    destruct (returns_Some
                (linear_program_model [-1] duplicate_row_lp_A [1; 2] None None []))
      as [model Hmodel]; [vm_compute; reflexivity|].
    destruct (proj1 (active_set_from_solver_attributes wrapper_parameters
                duplicate_row_lp_optimum
                weakly_active_qp_H [-1] duplicate_row_lp_A [1; 2] None None 0 []
                model sol eq_refl) Hmodel Hsol) as (active_set & Hactive & Hiff).
    exists sol, active_set. split; [exact Hsol|]. split; [exact Hactive|exact Hiff].
  - destruct (returns_Some
                (quadratic_program wrapper_parameters weakly_active_qp_optimum
                   weakly_active_qp_H [0] weakly_active_qp_A [0] None None
                   (Q_of_float 1e-5) []))
      as [sol Hsol]; [vm_compute; reflexivity|].
    destruct (returns_Some
                (quadratic_program_model weakly_active_qp_H [0] weakly_active_qp_A
                   [0] None None [])) as [model Hmodel]; [vm_compute; reflexivity|].
    destruct (proj2 (active_set_from_solver_attributes wrapper_parameters
                weakly_active_qp_optimum
                weakly_active_qp_H [0] weakly_active_qp_A [0] None None
                (Q_of_float 1e-5) [] model sol eq_refl) Hmodel Hsol)
      as (active_set & Hactive & Hiff).
    exists sol, active_set. split; [exact Hsol|]. split; [exact Hactive|exact Hiff].
Defined.

(** ** The returned dictionary, field by field *)

(** X8.  At status OPTIMAL the dictionary of [linear_program] and of
    [quadratic_program] holds under [multiplier_inequality] one entry per row
    of [A], the negated dual value [Pi] of the constraint [ineq_i], and under
    [multiplier_equality] the negated dual values of the constraints [eq_i]
    when [C] is given and has a row, and [None] otherwise. *)
Theorem multipliers_from_dual_values (accepts : string → Q → bool)
    (optimize : Model → Optimized)
    (H : ndarray) (f : vec) (A : ndarray) (b : vec) (C : option ndarray)
    (d : option vec) (tol : Q) (kwargs : list (string * Q))
    (model : Model) (sol : gmap string pyval) :
  status (optimize model) = OPTIMAL →
  (linear_program_model f A b C d kwargs = Some model ∧
   linear_program accepts optimize f A b C d kwargs = Some sol) ∨
  (quadratic_program_model H f A b C d kwargs = Some model ∧
   quadratic_program accepts optimize H f A b C d tol kwargs = Some sol) →
  sol !! "multiplier_inequality"
  = Some (PyArray ((fun i => Qopp (attr_Pi (optimize model) ("ineq_" +:+ pretty i)))
                     <$> seq 0 (shape0 A))) ∧
  sol !! "multiplier_equality"
  = Some match C with
         | Some C' =>
             if bool_decide (0 < shape0 C')%nat
             then PyArray ((fun i => Qopp (attr_Pi (optimize model) ("eq_" +:+ pretty i)))
                             <$> seq 0 (shape0 C'))
             else PyNone
         | None => PyNone
         end.
Proof.
  intros Hst [[Hmodel Hsol]|[Hmodel Hsol]].
  - apply linear_program_inv in Hsol
      as (model' & sol0 & Hmodel' & _ & Hsol0 & [[Hne _]|[_ ->]]);
      rewrite Hmodel in Hmodel'; injection Hmodel' as <-; [contradiction|].
    rewrite !lookup_insert_ne by discriminate.
    destruct (reorganize_optimal _ _ _ _ _ Hst Hsol0) as (_ & _ & _ & Hineq & Heq & _).
    split; assumption.
  - apply quadratic_program_inv in Hsol
      as (model' & sol0 & Hmodel' & _ & Hsol0 & [[Hne _]|[_ ->]]);
      rewrite Hmodel in Hmodel'; injection Hmodel' as <-; [contradiction|].
    rewrite !lookup_insert_ne by discriminate.
    destruct (reorganize_optimal _ _ _ _ _ Hst Hsol0) as (_ & _ & _ & Hineq & Heq & _).
    split; assumption.
Qed.

(** The linear program [min -x s.t. x <= 1, 2 x <= 2]. *)
Lemma multipliers_from_dual_values_witness :
  ∃ sol,
    linear_program wrapper_parameters duplicate_row_lp_optimum [-1]
      duplicate_row_lp_A [1; 2] None None [] = Some sol ∧
    sol !! "multiplier_inequality" = Some (PyArray [- - 1; - 0]) ∧
    sol !! "multiplier_equality" = Some PyNone.
Proof.
  destruct (returns_Some
              (linear_program wrapper_parameters duplicate_row_lp_optimum [-1]
                 duplicate_row_lp_A [1; 2] None None []))
    as [sol Hsol]; [vm_compute; reflexivity|].
  destruct (returns_Some
              (linear_program_model [-1] duplicate_row_lp_A [1; 2] None None []))
    as [model Hmodel]; [vm_compute; reflexivity|].
  exists sol. split; [exact Hsol|].
  exact (multipliers_from_dual_values wrapper_parameters duplicate_row_lp_optimum
           weakly_active_qp_H [-1] duplicate_row_lp_A [1; 2] None None 0 [] model sol
           eq_refl (or_introl (conj Hmodel Hsol))).
Defined.

(** ** Order and tolerance of the active set *)

Lemma filter_seq_sorted (P : nat → Prop) `{!∀ i, Decision (P i)} (a n : nat) :
  StronglySorted lt (filter P (seq a n)).
Proof.
  revert a. induction n as [|n IH]; intros a; [constructor|].
  cbn [seq]. rewrite filter_cons. destruct (decide (P a)); [|apply IH].
  constructor; [apply IH|].
  apply list.Forall_forall. intros i Hi.
  apply list_elem_of_filter in Hi as [_ Hi]. apply elem_of_seq in Hi. lia.
Qed.

Lemma np_where_gt_sorted (a : vec) (tol : Q) : StronglySorted lt (np_where_gt a tol).
Proof.
  unfold np_where_gt.
  enough (Hgen : ∀ k,
            StronglySorted lt
              (imap (fun i v => ((k + i)%nat, v)) a ≫=
                 fun iv : nat * Q => if negb (Qle_bool iv.2 tol) then [iv.1] else []) ∧
            Forall (fun i => (k ≤ i)%nat)
              (imap (fun i v => ((k + i)%nat, v)) a ≫=
                 fun iv : nat * Q => if negb (Qle_bool iv.2 tol) then [iv.1] else []))
    by exact (proj1 (Hgen 0%nat)).
  induction a as [|v a IH]; intros k; [split; constructor|].
  rewrite imap_cons. cbn [mbind list_bind fst snd].
  destruct (IH (S k)) as [Hsorted Hge].
  assert (Hext : imap ((fun i v => ((k + i)%nat, v)) ∘ S) a
                 = imap (fun i v => ((S k + i)%nat, v)) a).
  { apply imap_ext. intros i w _. cbn. f_equal. lia. }
  rewrite Hext.
  assert (Hge' : Forall (fun i => (k < i)%nat)
            (imap (fun i v => ((S k + i)%nat, v)) a ≫=
               fun iv : nat * Q => if negb (Qle_bool iv.2 tol) then [iv.1] else [])).
  { eapply Forall_impl; [|exact Hge]. cbn. intros i Hi. lia. }
  destruct (negb (Qle_bool v tol)); cbn [app].
  - split; [constructor; [exact Hsorted|] | constructor; [lia|]].
    + rewrite Nat.add_0_r. exact Hge'.
    + eapply Forall_impl; [|exact Hge']. cbn. intros i Hi. lia.
  - split; [exact Hsorted|].
    eapply Forall_impl; [|exact Hge']. cbn. intros i Hi. lia.
Qed.

(** X9.  The active set returned by [linear_program] and by
    [quadratic_program] is a strictly increasing list of row indices of
    [A].  For [quadratic_program] a larger [tol] can only remove rows from
    it, and leaves every other field of the dictionary as it is. *)
Theorem active_set_order_and_tolerance (accepts : string → Q → bool)
    (optimize : Model → Optimized)
    (H : ndarray) (f : vec) (A : ndarray) (b : vec) (C : option ndarray)
    (d : option vec) (tol tol' : Q) (kwargs : list (string * Q)) :
  (∀ sol active,
     linear_program accepts optimize f A b C d kwargs = Some sol →
     sol !! "active_set" = Some (PyList active) →
     StronglySorted lt active ∧ Forall (fun i => (i < shape0 A)%nat) active) ∧
  (∀ sol active,
     quadratic_program accepts optimize H f A b C d tol kwargs = Some sol →
     sol !! "active_set" = Some (PyList active) →
     StronglySorted lt active ∧ Forall (fun i => (i < shape0 A)%nat) active) ∧
  (tol <= tol' →
   ∀ sol sol' active active',
     quadratic_program accepts optimize H f A b C d tol kwargs = Some sol →
     quadratic_program accepts optimize H f A b C d tol' kwargs = Some sol' →
     sol !! "active_set" = Some (PyList active) →
     sol' !! "active_set" = Some (PyList active') →
     active' ⊆ active ∧
     ∀ field, field ≠ "active_set" → sol' !! field = sol !! field).
Proof.
  split_and!.
  - intros sol active Hsol Hactive.
    apply linear_program_inv in Hsol
      as (model & sol0 & Hmodel & _ & Hsol0 & [[Hne ->]|[Hst ->]]).
    + rewrite reorganize_not_optimal in Hsol0 by exact Hne.
      injection Hsol0 as <-. discriminate Hactive.
    + rewrite lookup_insert_eq in Hactive. injection Hactive as <-.
      split; [apply filter_seq_sorted|].
      apply list.Forall_forall. intros i Hi.
      apply list_elem_of_filter in Hi as [_ Hi]. apply elem_of_seq in Hi. lia.
  - intros sol active Hsol Hactive.
    apply quadratic_program_inv in Hsol
      as (model & sol0 & Hmodel & _ & Hsol0 & [[Hne ->]|[Hst ->]]).
    + rewrite reorganize_not_optimal in Hsol0 by exact Hne.
      injection Hsol0 as <-. discriminate Hactive.
    + rewrite lookup_insert_eq in Hactive. injection Hactive as <-.
      split; [apply np_where_gt_sorted|].
      apply list.Forall_forall. intros i Hi.
      apply elem_of_np_where_gt in Hi as (v & Hv & _).
      apply lookup_lt_Some in Hv. rewrite length_fmap, length_seq in Hv. exact Hv.
  - intros Htol sol sol' active active' Hsol Hsol' Hactive Hactive'.
    apply quadratic_program_inv in Hsol
      as (model & sol0 & Hmodel & _ & Hsol0 & Hcases).
    apply quadratic_program_inv in Hsol'
      as (model' & sol0' & Hmodel' & _ & Hsol0' & Hcases').
    rewrite Hmodel in Hmodel'. injection Hmodel' as <-.
    rewrite Hsol0 in Hsol0'. injection Hsol0' as <-.
    destruct Hcases as [[Hne ->]|[Hst ->]].
    { rewrite reorganize_not_optimal in Hsol0 by exact Hne.
      injection Hsol0 as <-. discriminate Hactive. }
    destruct Hcases' as [[Hne _]|[_ ->]]; [contradiction|].
    rewrite lookup_insert_eq in Hactive, Hactive'.
    injection Hactive as <-. injection Hactive' as <-. split.
    + intros i Hi. apply elem_of_np_where_gt in Hi as (v & Hv & Hlt).
      apply elem_of_np_where_gt. exists v. split; [exact Hv|].
      eapply Qle_lt_trans; eassumption.
    + intros field Hfield. rewrite !lookup_insert_ne by congruence. reflexivity.
Qed.

(** [min -x s.t. x <= 1, 2 x <= 2] read as a quadratic program with
    [H = 1], tolerances [1e-5] and [2]: the multiplier 1 of row 0 is above the
    first and below the second. *)
Lemma active_set_order_and_tolerance_witness :
  ∃ sol sol',
    quadratic_program wrapper_parameters duplicate_row_lp_optimum weakly_active_qp_H
      [-1] duplicate_row_lp_A [1; 2] None None (Q_of_float 1e-5) [] = Some sol ∧
    quadratic_program wrapper_parameters duplicate_row_lp_optimum weakly_active_qp_H
      [-1] duplicate_row_lp_A [1; 2] None None 2 [] = Some sol' ∧
    sol !! "active_set" = Some (PyList [0%nat]) ∧
    sol' !! "active_set" = Some (PyList []) ∧
    [] ⊆ [0%nat] ∧
    ∀ field, field ≠ "active_set" → sol' !! field = sol !! field.
Proof.
  assert (Hfirst :
    read_fields <$>
      quadratic_program wrapper_parameters duplicate_row_lp_optimum weakly_active_qp_H
        [-1] duplicate_row_lp_A [1; 2] None None (Q_of_float 1e-5) []
    = Some [ ("min", Some (PyFloat (-1))); ("argmin", Some (PyArray [1]));
             ("active_set", Some (PyList [0%nat]));
             ("multiplier_inequality", Some (PyArray [1; 0]));
             ("multiplier_equality", Some PyNone) ])
    by (vm_compute; reflexivity).
  assert (Hsecond :
    read_fields <$>
      quadratic_program wrapper_parameters duplicate_row_lp_optimum weakly_active_qp_H
        [-1] duplicate_row_lp_A [1; 2] None None 2 []
    = Some [ ("min", Some (PyFloat (-1))); ("argmin", Some (PyArray [1]));
             ("active_set", Some (PyList []));
             ("multiplier_inequality", Some (PyArray [1; 0]));
             ("multiplier_equality", Some PyNone) ])
    by (vm_compute; reflexivity).
  destruct (quadratic_program wrapper_parameters duplicate_row_lp_optimum
              weakly_active_qp_H [-1] duplicate_row_lp_A [1; 2] None None
              (Q_of_float 1e-5) [])
    as [sol|] eqn:Hsol; [|discriminate Hfirst].
  destruct (quadratic_program wrapper_parameters duplicate_row_lp_optimum
              weakly_active_qp_H [-1] duplicate_row_lp_A [1; 2] None None 2 [])
    as [sol'|] eqn:Hsol'; [|discriminate Hsecond].
  injection Hfirst as _ _ Hfirst _ _. injection Hsecond as _ _ Hsecond _ _.
  exists sol, sol'. split; [reflexivity|]. split; [reflexivity|].
  split; [exact Hfirst|]. split; [exact Hsecond|].
  refine (proj2 (proj2 (active_set_order_and_tolerance wrapper_parameters
            duplicate_row_lp_optimum
            weakly_active_qp_H [-1] duplicate_row_lp_A [1; 2] None None
            (Q_of_float 1e-5) 2 [])) _ sol sol' [0%nat] [] Hsol Hsol' Hfirst Hsecond).
  apply Qle_bool_iff. vm_compute. reflexivity.
Defined.

(** ** When the three entry points raise *)



(** ** The value of the objective and of the constraints *)

Lemma quad_terms_value_app (l1 l2 : list (Q * nat * nat)) (p : vec) :
  foldr (fun t acc => default 0 (p !! t.1.2) * t.1.1 * default 0 (p !! t.2) + acc)
        0 (l1 ++ l2) ==
  foldr (fun t acc => default 0 (p !! t.1.2) * t.1.1 * default 0 (p !! t.2) + acc)
        0 l1 +
  foldr (fun t acc => default 0 (p !! t.1.2) * t.1.1 * default 0 (p !! t.2) + acc)
        0 l2.
Proof.
  induction l1 as [|t l1 IH]; cbn [foldr app]; [lra|]. rewrite IH. lra.
Qed.

Lemma Qabs_quad_le (a h c tol : Q) :
  Qabs h <= tol → Qabs (a * h * c) <= tol * (Qabs a * Qabs c).
Proof.
  intros Hh. rewrite !Qabs_Qmult.
  assert (Heq : Qabs a * Qabs h * Qabs c == Qabs h * (Qabs a * Qabs c)) by ring.
  rewrite Heq.
  apply Qmult_le_compat_r; [exact Hh|].
  apply Qmult_le_0_compat; apply Qabs_nonneg.
Qed.

Lemma abs_sum_nonneg (p : vec) (js : list nat) :
  0 <= foldr Qplus 0 ((fun j => Qabs (default 0 (p !! j))) <$> js).
Proof.
  induction js as [|j js IH]; cbn [fmap list_fmap foldr]; [lra|].
  pose proof (Qabs_nonneg (default 0 (p !! j))). lra.
Qed.

Lemma quadratic_terms_value_bound (H : ndarray) (n_x : nat) (tol : Q) (i : nat)
    (js : list nat) (expr expr' : QuadExpr) (p : vec) :
  0 <= tol →
  quadratic_terms H (seq 0 n_x) tol i js expr = Some expr' →
  quad_lin expr' = quad_lin expr ∧
  Qabs (foldr (fun t acc => default 0 (p !! t.1.2) * t.1.1 * default 0 (p !! t.2) + acc)
              0 (quad_terms expr')
        - foldr (fun t acc => default 0 (p !! t.1.2) * t.1.1 * default 0 (p !! t.2) + acc)
                0 (quad_terms expr)
        - default 0 (p !! i)
          * foldr Qplus 0 ((fun j => item H i j * default 0 (p !! j)) <$> js))
  <= tol * (Qabs (default 0 (p !! i))
            * foldr Qplus 0 ((fun j => Qabs (default 0 (p !! j))) <$> js)).
Proof.
  intros Htol. revert expr. induction js as [|j js IH]; intros expr Hterms.
  - cbn in Hterms. injection Hterms as <-. split; [reflexivity|].
    cbn [fmap list_fmap foldr]. apply Qabs_Qle_condition. split; lra.
  - cbn [quadratic_terms] in Hterms. cbn [fmap list_fmap foldr].
    pose proof (Qabs_nonneg (default 0 (p !! i))) as Hpi.
    pose proof (Qabs_nonneg (default 0 (p !! j))) as Hpj.
    assert (Hprod : 0 <= tol * (Qabs (default 0 (p !! i)) * Qabs (default 0 (p !! j)))).
    { apply Qmult_le_0_compat; [exact Htol|]. apply Qmult_le_0_compat; assumption. }
    destruct (gt_tol tol (item H i j)) eqn:Hgt.
    + destruct (seq 0 n_x !! i) as [x_i|] eqn:Hxi; [|discriminate Hterms].
      apply lookup_seq in Hxi as [-> _]. cbn [mbind option_bind] in Hterms.
      destruct (seq 0 n_x !! j) as [x_j|] eqn:Hxj; [|discriminate Hterms].
      apply lookup_seq in Hxj as [-> _]. cbn [mbind option_bind] in Hterms.
      destruct (IH _ Hterms) as [Hlin IH']. split; [exact Hlin|].
      cbn [quad_terms] in IH'. rewrite quad_terms_value_app in IH'.
      cbn [foldr fst snd] in IH'. change (0 + i)%nat with i in IH'.
      change (0 + j)%nat with j in IH'.
      apply Qabs_Qle_condition in IH'. apply Qabs_Qle_condition. split; lra.
    + destruct (IH _ Hterms) as [Hlin IH']. split; [exact Hlin|].
      apply gt_tol_false in Hgt.
      pose proof (Qabs_quad_le (default 0 (p !! i)) _ (default 0 (p !! j)) _ Hgt) as Hdrop.
      apply Qabs_Qle_condition in IH'. apply Qabs_Qle_condition in Hdrop.
      apply Qabs_Qle_condition. split; lra.
Qed.

Lemma quadratic_rows_value_bound (H : ndarray) (n_x : nat) (tol : Q)
    (rows : list nat) (expr expr' : QuadExpr) (p : vec) :
  0 <= tol →
  quadratic_rows H (seq 0 n_x) tol rows expr = Some expr' →
  quad_lin expr' = quad_lin expr ∧
  Qabs (foldr (fun t acc => default 0 (p !! t.1.2) * t.1.1 * default 0 (p !! t.2) + acc)
              0 (quad_terms expr')
        - foldr (fun t acc => default 0 (p !! t.1.2) * t.1.1 * default 0 (p !! t.2) + acc)
                0 (quad_terms expr)
        - foldr Qplus 0 ((fun i => default 0 (p !! i) * row_dot H i p) <$> rows))
  <= tol * (foldr Qplus 0 ((fun i => Qabs (default 0 (p !! i))) <$> rows)
            * norm1 (shape1 H) p).
Proof.
  intros Htol. revert expr. induction rows as [|i rows IH]; intros expr Hrows.
  - cbn in Hrows. injection Hrows as <-. split; [reflexivity|].
    cbn [fmap list_fmap foldr]. apply Qabs_Qle_condition. split; lra.
  - cbn [quadratic_rows] in Hrows. cbn [fmap list_fmap foldr].
    destruct (quadratic_terms H _ tol i _ expr) as [expr1|] eqn:Hterms;
      [|discriminate Hrows].
    cbn [mbind option_bind] in Hrows.
    destruct (quadratic_terms_value_bound _ _ _ _ _ _ _ p Htol Hterms) as [Hlin1 Hrow].
    destruct (IH _ Hrows) as [Hlin IH']. split; [congruence|].
    unfold row_dot at 1. unfold norm1 in *.
    apply Qabs_Qle_condition in IH'. apply Qabs_Qle_condition in Hrow.
    apply Qabs_Qle_condition. split; lra.
Qed.

(** X12.  The expression [quadratic_expression] builds differs from the exact
    [p' H p] by at most [tol * (|p_0| + ...)^2] at every point [p], the first
    sum running over the rows and the second over the columns of [H]. *)
Theorem quadratic_expression_value_bound (n_x : nat) (H : ndarray) (tol : Q)
    (qexpr : QuadExpr) (p : vec) :
  0 <= tol →
  quadratic_expression H (seq 0 n_x) tol = Some qexpr →
  Qabs (QuadExpr_value qexpr p - quad_form H p)
  <= tol * (norm1 (shape0 H) p * norm1 (shape1 H) p).
Proof.
  intros Htol Hq. unfold quadratic_expression in Hq.
  destruct (quadratic_rows_value_bound _ _ _ _ _ _ p Htol Hq) as [Hlin Hbound].
  unfold QuadExpr_value, LinExpr_value, quad_form, norm1 in *. rewrite Hlin.
  cbn [QuadExpr_new LinExpr_new quad_terms quad_lin lin_terms lin_const foldr] in *.
  apply Qabs_Qle_condition in Hbound. apply Qabs_Qle_condition. split; lra.
Qed.

(** The Hessian [(1, 1e-8; 1e-8, 1)] at [p = (5, 7)]: the off-diagonal
    entries are dropped. *)
Lemma quadratic_expression_value_bound_witness :
  Qabs (QuadExpr_value (mkQuadExpr [(1, 0%nat, 0%nat); (1, 1%nat, 1%nat)] LinExpr_new)
                       [5; 7]
        - quad_form (np_matrix [[1; Q_of_float 1e-8]; [Q_of_float 1e-8; 1]]) [5; 7])
  <= quadratic_tol * (norm1 2 [5; 7] * norm1 2 [5; 7]).
Proof.
  apply (quadratic_expression_value_bound 2
           (np_matrix [[1; Q_of_float 1e-8]; [Q_of_float 1e-8; 1]]) quadratic_tol
           (mkQuadExpr [(1, 0%nat, 0%nat); (1, 1%nat, 1%nat)] LinExpr_new) [5; 7]).
  - apply Qle_bool_iff. vm_compute. reflexivity.
  - vm_compute. reflexivity.
Defined.

Lemma linear_row_value_bound (n_x : nat) (A : ndarray) (b : vec) (tol : Q)
    (i : nat) (expr : LinExpr) (b_i : Q) (p : vec) :
  0 <= tol →
  linear_row A b (seq 0 n_x) tol i = Some expr →
  b !! i = Some b_i →
  Qabs (LinExpr_value expr p - (row_dot A i p + b_i))
  <= tol * (norm1 (shape1 A) p + 1).
Proof.
  intros Htol Hrows Hb. unfold linear_row in Hrows.
  destruct (linear_terms _ _ _ _ _) as [expr0|] eqn:Hterms; [|discriminate Hrows].
  cbn [mbind option_bind] in Hrows. rewrite Hb in Hrows.
  cbn [mbind option_bind] in Hrows. injection Hrows as <-.
  destruct (linear_terms_spec _ _ _ _ _ _ Hterms) as [Hconst _].
  pose proof (linear_terms_value_bound _ _ _ _ _ _ p Htol Hterms) as Hbound.
  cbn [LinExpr_new lin_terms lin_const foldr] in Hbound, Hconst.
  unfold LinExpr_value, row_dot, norm1.
  apply Qabs_Qle_condition in Hbound. apply Qabs_Qle_condition.
  destruct (gt_tol tol b_i) eqn:Hgt;
    cbn [LinExpr_add_const lin_terms lin_const]; rewrite Hconst.
  - split; lra.
  - apply gt_tol_false, Qabs_Qle_condition in Hgt. split; lra.
Qed.

Lemma linear_tol_nonneg : 0 <= linear_tol.
Proof. apply Qle_bool_iff. vm_compute. reflexivity. Qed.

Lemma quadratic_tol_nonneg : 0 <= quadratic_tol.
Proof. apply Qle_bool_iff. vm_compute. reflexivity. Qed.

Lemma LinExpr_add_value (e other : LinExpr) (p : vec) :
  LinExpr_value (LinExpr_add e other) p == LinExpr_value e p + LinExpr_value other p.
Proof.
  unfold LinExpr_value, LinExpr_add. cbn [lin_terms lin_const].
  rewrite terms_value_app. lra.
Qed.

Lemma QuadExpr_half_value (e : QuadExpr) (p : vec) :
  QuadExpr_value (QuadExpr_half e) p == (1 # 2) * QuadExpr_value e p.
Proof.
  unfold QuadExpr_value, LinExpr_value, QuadExpr_half.
  cbn [quad_terms quad_lin lin_terms lin_const].
  assert (Hq : ∀ l : list (Q * nat * nat),
            foldr (fun t acc => default 0 (p !! t.1.2) * t.1.1 * default 0 (p !! t.2) + acc)
                  0 ((fun t => ((1 # 2) * t.1.1, t.1.2, t.2)) <$> l)
            == (1 # 2) *
               foldr (fun t acc => default 0 (p !! t.1.2) * t.1.1 * default 0 (p !! t.2) + acc)
                     0 l).
  { induction l as [|t l IH]; cbn [fmap list_fmap foldr fst snd]; [lra|].
    rewrite IH. lra. }
  assert (Hl : ∀ l : list (Q * nat),
            foldr (fun t acc => t.1 * default 0 (p !! t.2) + acc)
                  0 ((fun t => ((1 # 2) * t.1, t.2)) <$> l)
            == (1 # 2) * foldr (fun t acc => t.1 * default 0 (p !! t.2) + acc) 0 l).
  { induction l as [|t l IH]; cbn [fmap list_fmap foldr fst snd]; [lra|].
    rewrite IH. lra. }
  rewrite Hq, Hl. lra.
Qed.

(** X13.  The objective of a built model differs from the exact
    [.5 p' H p + f' p] (from [f' p] without [H]) by no more than what the
    two tolerances can drop: [.5 * 1e-7 * (|p_0| + ...)^2] for the quadratic
    part and [1e-10 * (|p_0| + ... + 1)] for the linear part. *)
Theorem objective_value_bound (H : option ndarray) (f : vec) (A : ndarray)
    (b : vec) (C : option ndarray) (d : option vec) (model : Model) (p : vec) :
  _build_model H f A b C d = Some model →
  Qabs (QuadExpr_value (model_objective model) p
        - (match H with Some H' => (1 # 2) * quad_form H' p | None => 0 end
           + lin_form f p))
  <= match H with
     | Some H' => (1 # 2) * (quadratic_tol * (norm1 (shape0 H') p * norm1 (shape1 H') p))
     | None => 0
     end
     + linear_tol * (norm1 (length f) p + 1).
Proof.
  intros Hbuild.
  destruct (build_model_inv _ _ _ _ _ _ _ Hbuild)
    as (ineq & eq & cost & expr_0 & _ & _ & Hcost & Hf & Hexpr0 & ->).
  replace (length f `max` 1)%nat with (length f) in * by lia.
  pose proof (linear_row_value_bound _ _ _ _ _ _ 0 p linear_tol_nonneg Hexpr0 eq_refl)
    as Hlin.
  cbn [shape1] in Hlin. unfold row_dot in Hlin. cbn [shape1 item] in Hlin.
  fold (lin_form f p) in Hlin.
  cbn [model_objective].
  assert (Hvalue : QuadExpr_value
                     (mkQuadExpr (quad_terms cost) (LinExpr_add (quad_lin cost) expr_0)) p
                   == QuadExpr_value cost p + LinExpr_value expr_0 p).
  { unfold QuadExpr_value. cbn [quad_terms quad_lin]. rewrite LinExpr_add_value. lra. }
  rewrite Hvalue. apply Qabs_Qle_condition in Hlin.
  destruct H as [H'|].
  - destruct (quadratic_expression H' _ _) as [qexpr|] eqn:Hq; [|discriminate Hcost].
    injection Hcost as <-. rewrite QuadExpr_half_value.
    unfold quadratic_expression in Hq.
    destruct (quadratic_rows_value_bound _ _ _ _ _ _ p quadratic_tol_nonneg Hq)
      as [Hqlin Hquad].
    unfold QuadExpr_value at 1, LinExpr_value at 1. rewrite Hqlin.
    unfold quad_form, norm1 in *.
    cbn [QuadExpr_new LinExpr_new quad_terms quad_lin lin_terms lin_const foldr] in *.
    apply Qabs_Qle_condition in Hquad. apply Qabs_Qle_condition. split; lra.
  - injection Hcost as <-.
    unfold QuadExpr_value at 1, LinExpr_value at 1.
    cbn [QuadExpr_new LinExpr_new quad_terms quad_lin lin_terms lin_const foldr].
    apply Qabs_Qle_condition. split; lra.
Qed.

(** The program [min .5 x' x + x0 + x1 s.t. x0 <= 1, x1 <= 1] at
    [p = (5, 7)]. *)
Lemma objective_value_bound_witness :
  ∃ model,
    _build_model (Some (np_matrix [[1; 0]; [0; 1]])) [1; 1]
                 (np_matrix [[1; 0]; [0; 1]]) [1; 1] None None = Some model ∧
    Qabs (QuadExpr_value (model_objective model) [5; 7]
          - ((1 # 2) * quad_form (np_matrix [[1; 0]; [0; 1]]) [5; 7]
             + lin_form [1; 1] [5; 7]))
    <= (1 # 2) * (quadratic_tol * (norm1 2 [5; 7] * norm1 2 [5; 7]))
       + linear_tol * (norm1 2 [5; 7] + 1).
Proof.
  destruct (returns_Some
              (_build_model (Some (np_matrix [[1; 0]; [0; 1]])) [1; 1]
                            (np_matrix [[1; 0]; [0; 1]]) [1; 1] None None))
    as [model Hmodel]; [vm_compute; reflexivity|].
  exists model. split; [exact Hmodel|].
  exact (objective_value_bound (Some (np_matrix [[1; 0]; [0; 1]])) [1; 1]
           (np_matrix [[1; 0]; [0; 1]]) [1; 1] None None model [5; 7] Hmodel).
Defined.

Lemma lookup_fmap_Qopp (b : vec) (i : nat) (v : Q) :
  (Qopp <$> b) !! i = Some v → ∃ b_i, b !! i = Some b_i ∧ v = - b_i.
Proof.
  rewrite list_lookup_fmap. destruct (b !! i) as [b_i|]; [|discriminate].
  intros [= <-]. eauto.
Qed.

(** X14.  In a built model the constraint named [ineq_i] has sense [<=] and
    an expression whose value at every point [p] is [A_i p - b_i] up to
    [1e-10 * (|p_0| + ... + 1)]; the constraint named [eq_i] has sense [==]
    and the value [C_i p - d_i] up to the same bound.  The model so encodes
    [A x <= b] and [C x = d]. *)
Theorem constraint_value_bound (H : option ndarray) (f : vec) (A : ndarray)
    (b : vec) (C : option ndarray) (d : option vec) (model : Model) (i : nat)
    (constr : Constr) (p : vec) :
  _build_model H f A b C d = Some model →
  (getConstrByName model ("ineq_" +:+ pretty i) = Some constr →
   constr_sense constr = LESS_EQUAL ∧
   ∃ b_i, b !! i = Some b_i ∧
          Qabs (LinExpr_value (constr_expr constr) p - (row_dot A i p - b_i))
          <= linear_tol * (norm1 (shape1 A) p + 1)) ∧
  (getConstrByName model ("eq_" +:+ pretty i) = Some constr →
   constr_sense constr = EQUAL ∧
   ∃ C' d' d_i, C = Some C' ∧ d = Some d' ∧ d' !! i = Some d_i ∧
          Qabs (LinExpr_value (constr_expr constr) p - (row_dot C' i p - d_i))
          <= linear_tol * (norm1 (shape1 C') p + 1)).
Proof.
  intros Hbuild.
  destruct (getConstrByName_built _ _ _ _ _ _ _ i Hbuild) as [-> ->].
  split.
  - destruct (bool_decide (i < shape0 A)%nat); [|discriminate].
    destruct (linear_row A _ _ _ i) as [expr|] eqn:Hrow; [|discriminate].
    intros [= <-]. split; [reflexivity|]. cbn [constr_expr].
    destruct (proj2 (linear_row_spec _ _ _ _ _ _ Hrow)) as (v & Hv & _).
    destruct (lookup_fmap_Qopp _ _ _ Hv) as (b_i & Hb & ->).
    exists b_i. split; [exact Hb|].
    pose proof (linear_row_value_bound _ _ _ _ _ _ _ p linear_tol_nonneg Hrow Hv) as Hbound.
    apply Qabs_Qle_condition in Hbound. apply Qabs_Qle_condition. split; lra.
  - destruct C as [C'|]; [|discriminate]. destruct d as [d'|]; [|discriminate].
    destruct (bool_decide (i < shape0 C')%nat); [|discriminate].
    destruct (linear_row C' _ _ _ i) as [expr|] eqn:Hrow; [|discriminate].
    intros [= <-]. split; [reflexivity|]. cbn [constr_expr].
    destruct (proj2 (linear_row_spec _ _ _ _ _ _ Hrow)) as (v & Hv & _).
    destruct (lookup_fmap_Qopp _ _ _ Hv) as (d_i & Hd & ->).
    exists C', d', d_i. split_and!; [reflexivity | reflexivity | exact Hd|].
    pose proof (linear_row_value_bound _ _ _ _ _ _ _ p linear_tol_nonneg Hrow Hv) as Hbound.
    apply Qabs_Qle_condition in Hbound. apply Qabs_Qle_condition. split; lra.
Qed.

(** The constraint [ineq_1] of [x0 <= 1, x1 <= 1]. *)
Lemma constraint_value_bound_witness :
  ∃ model constr,
    _build_model None [1; 1] (np_matrix [[1; 0]; [0; 1]]) [1; 1] None None
      = Some model ∧
    getConstrByName model "ineq_1" = Some constr ∧
    constr_sense constr = LESS_EQUAL.
Proof.
  destruct (returns_Some
              (_build_model None [1; 1] (np_matrix [[1; 0]; [0; 1]]) [1; 1] None None))
    as [model Hmodel]; [vm_compute; reflexivity|].
  destruct (returns_Some (getConstrByName model "ineq_1")) as [constr Hconstr].
  { destruct (getConstrByName_built _ _ _ _ _ _ _ 1 Hmodel) as [Hfind _].
    change ("ineq_" +:+ pretty 1%nat) with "ineq_1" in Hfind. rewrite Hfind.
    vm_compute. reflexivity. }
  exists model, constr. split; [exact Hmodel|]. split; [exact Hconstr|].
  exact (proj1 (proj1 (constraint_value_bound None [1; 1]
                         (np_matrix [[1; 0]; [0; 1]]) [1; 1] None None model 1
                         constr [] Hmodel) Hconstr)).
Defined.

(** * Further properties of the benchmark entry points *)

(** ** The loop that writes a box as half-spaces *)

Lemma vec_le_lookup (u v : vec) :
  vec_le u v = true ↔
  length u = length v ∧ ∀ i a b, u !! i = Some a → v !! i = Some b → a <= b.
Proof.
  revert v. induction u as [|a u IH]; intros [|b v].
  - split; [intros _|reflexivity]. split; [reflexivity|]. intros i a b [=].
  - split; [discriminate|]. intros [[=] _].
  - split; [discriminate|]. intros [[=] _].
  - rewrite vec_le_cons, IH. cbn [length]. split.
    + intros (Hab & Hlen & Hall). split; [congruence|].
      intros [|i] a' b'; cbn; [intros [= <-] [= <-]; exact Hab | apply Hall].
    + intros (Hlen & Hall). split; [exact (Hall 0%nat a b eq_refl eq_refl)|].
      split; [congruence|]. intros i a' b'. exact (Hall (S i) a' b').
Qed.

Lemma dot_zeros (n : nat) (x : vec) : dot (Qv (replicate n 0%float)) x == 0.
Proof.
  revert x. induction n as [|n IH]; intros [|a x]; try reflexivity.
  change (dot (Qv (replicate (S n) 0%float)) (a :: x))
    with (Q_of_float 0 * a + dot (Qv (replicate n 0%float)) x).
  rewrite IH. change (Q_of_float 0) with 0. lra.
Qed.

(** The product of a row that holds [c] at column [i] and zeros elsewhere
    with [x] is [c * x_i]. *)
Lemma dot_unit (n i : nat) (c : float) (x : vec) :
  (i < n)%nat →
  dot (Qv (<[i := c]> (replicate n 0%float))) x == Q_of_float c * default 0 (x !! i).
Proof.
  revert i x. induction n as [|n IH]; intros i x Hi; [lia|].
  destruct i as [|i], x as [|a x]; cbn [replicate insert list_insert].
  - cbn. lra.
  - change (dot (Qv (c :: replicate n 0%float)) (a :: x))
      with (Q_of_float c * a + dot (Qv (replicate n 0%float)) x).
    rewrite dot_zeros. change (default 0 ((a :: x) !! 0%nat)) with a. lra.
  - cbn. lra.
  - change (dot (Qv (0%float :: <[i := c]> (replicate n 0%float))) (a :: x))
      with (Q_of_float 0 * a + dot (Qv (<[i := c]> (replicate n 0%float))) x).
    rewrite IH by lia. change (Q_of_float 0) with 0.
    change ((a :: x) !! S i) with (x !! i). lra.
Qed.

Section box_faces_loop.
Variables (n : nat) (s_min s_max : fvec).
Hypothesis s_min_length : length s_min = n.
Hypothesis s_max_length : length s_max = n.

(** The state of the loop after the turns [0 .. k-1]. *)
Lemma box_faces_invariant (k : nat) :
  (k ≤ n)%nat →
  let '(mat, bias, lower, upper) :=
    foldl (box_faces_body s_min s_max)
          (np_zeros (2 * n) n, np_zeros_col (2 * n), np_zeros_col n, np_zeros_col n)
          (seq 0 k) in
  (length mat = (2 * n)%nat ∧
   (∀ i, (i < k)%nat →
      mat !! (2 * i)%nat = Some (<[i := 1%float]> (replicate n 0%float)) ∧
      mat !! (2 * i + 1)%nat = Some (<[i := (-1)%float]> (replicate n 0%float))) ∧
   (∀ r, (2 * k ≤ r < 2 * n)%nat → mat !! r = Some (replicate n 0%float))) ∧
  (length bias = (2 * n)%nat ∧
   ∀ i, (i < k)%nat →
      bias !! (2 * i)%nat = s_max !! i ∧ bias !! (2 * i + 1)%nat = s_max !! i) ∧
  (length lower = n ∧ ∀ i, (i < k)%nat → lower !! i = s_min !! i) ∧
  (length upper = n ∧ ∀ i, (i < k)%nat → upper !! i = s_max !! i).
Proof.
  induction k as [|k IH]; intros Hk.
  - cbn [seq foldl]. unfold np_zeros, np_zeros_col. rewrite !length_replicate.
    split_and!; try reflexivity; try (intros i Hi; lia).
    intros r Hr. apply lookup_replicate_2. lia.
  - rewrite seq_S, foldl_snoc. cbn [plus].
    destruct (foldl (box_faces_body s_min s_max) _ (seq 0 k))
      as [[[mat bias] lower] upper].
    destruct (IH ltac:(lia))
      as ((Hmat & Hrows & Hzero) & (Hbias & Hb) & (Hlower & Hl) & (Hupper & Hu)).
    cbn [box_faces_body]. unfold mat_set.
    destruct (lookup_lt_is_Some_2 s_min k) as [l Hlk]; [lia|].
    destruct (lookup_lt_is_Some_2 s_max k) as [m Hmk]; [lia|].
    rewrite (list_lookup_total_correct _ _ _ Hlk), (list_lookup_total_correct _ _ _ Hmk).
    split_and!.
    + rewrite !length_alter. exact Hmat.
    + intros i Hi. destruct (decide (i = k)) as [->|Hne].
      * split.
        -- rewrite list_lookup_alter_ne by lia. rewrite list_lookup_alter_eq.
           rewrite (Hzero (2 * k)%nat) by lia. reflexivity.
        -- rewrite list_lookup_alter_eq, list_lookup_alter_ne by lia.
           rewrite (Hzero (2 * k + 1)%nat) by lia. reflexivity.
      * rewrite !list_lookup_alter_ne by lia. apply Hrows. lia.
    + intros r Hr. rewrite !list_lookup_alter_ne by lia. apply Hzero. lia.
    + rewrite !length_insert. exact Hbias.
    + intros i Hi. destruct (decide (i = k)) as [->|Hne].
      * split.
        -- rewrite list_lookup_insert_ne by lia.
           rewrite list_lookup_insert_eq by lia. congruence.
        -- rewrite list_lookup_insert_eq by (rewrite length_insert; lia). congruence.
      * rewrite !list_lookup_insert_ne by lia. apply Hb. lia.
    + rewrite length_insert. exact Hlower.
    + intros i Hi. destruct (decide (i = k)) as [->|Hne].
      * rewrite list_lookup_insert_eq by lia. congruence.
      * rewrite list_lookup_insert_ne by lia. apply Hl. lia.
    + rewrite length_insert. exact Hupper.
    + intros i Hi. destruct (decide (i = k)) as [->|Hne].
      * rewrite list_lookup_insert_eq by lia. congruence.
      * rewrite list_lookup_insert_ne by lia. apply Hu. lia.
Qed.

Lemma box_faces_result :
  ∃ mat bias,
    box_faces n s_min s_max = (mat, bias, s_min, s_max) ∧
    length mat = (2 * n)%nat ∧ length bias = (2 * n)%nat ∧
    ∀ i, (i < n)%nat →
      mat !! (2 * i)%nat = Some (<[i := 1%float]> (replicate n 0%float)) ∧
      mat !! (2 * i + 1)%nat = Some (<[i := (-1)%float]> (replicate n 0%float)) ∧
      bias !! (2 * i)%nat = s_max !! i ∧ bias !! (2 * i + 1)%nat = s_max !! i.
Proof.
  pose proof (box_faces_invariant n (le_n n)) as Hinv. unfold box_faces.
  destruct (foldl (box_faces_body s_min s_max) _ (seq 0 n))
    as [[[mat bias] lower] upper].
  destruct Hinv as ((Hmat & Hrows & _) & (Hbias & Hb) & (Hlower & Hl) & (Hupper & Hu)).
  assert (lower = s_min) as ->.
  { apply list_eq. intros i. destruct (decide (i < n)%nat) as [Hi|Hi]; [auto|].
    rewrite !(proj2 (lookup_ge_None _ _)) by lia. reflexivity. }
  assert (upper = s_max) as ->.
  { apply list_eq. intros i. destruct (decide (i < n)%nat) as [Hi|Hi]; [auto|].
    rewrite !(proj2 (lookup_ge_None _ _)) by lia. reflexivity. }
  exists mat, bias. split; [reflexivity|]. split; [exact Hmat|]. split; [exact Hbias|].
  intros i Hi. destruct (Hrows i Hi), (Hb i Hi). auto.
Qed.

Lemma box_faces_in_region (mat : fmat) (bias : fvec) (x : vec) :
  length x = n →
  length mat = (2 * n)%nat → length bias = (2 * n)%nat →
  (∀ i, (i < n)%nat →
     mat !! (2 * i)%nat = Some (<[i := 1%float]> (replicate n 0%float)) ∧
     mat !! (2 * i + 1)%nat = Some (<[i := (-1)%float]> (replicate n 0%float)) ∧
     bias !! (2 * i)%nat = s_max !! i ∧ bias !! (2 * i + 1)%nat = s_max !! i) →
  in_region (Qm mat) (Qv bias) x = true ↔
  ∀ i v m, x !! i = Some v → s_max !! i = Some m → Qabs v <= Q_of_float m.
Proof.
  intros Hx Hmat Hbias Hrows. unfold in_region. rewrite vec_le_lookup.
  unfold mat_vec, Qm, Qv. rewrite !length_fmap. split.
  - intros [_ Hall] i v m Hv Hm.
    assert (Hi : (i < n)%nat) by (apply lookup_lt_Some in Hv; lia).
    destruct (Hrows i Hi) as (Hpos & Hneg & Hbpos & Hbneg).
    assert (Hup : dot (Qv (<[i := 1%float]> (replicate n 0%float))) x <= Q_of_float m).
    { apply (Hall (2 * i)%nat).
      - rewrite !list_lookup_fmap, Hpos. reflexivity.
      - rewrite list_lookup_fmap, Hbpos, Hm. reflexivity. }
    assert (Hlow : dot (Qv (<[i := (-1)%float]> (replicate n 0%float))) x
                   <= Q_of_float m).
    { apply (Hall (2 * i + 1)%nat).
      - rewrite !list_lookup_fmap, Hneg. reflexivity.
      - rewrite list_lookup_fmap, Hbneg, Hm. reflexivity. }
    rewrite dot_unit in Hup, Hlow by exact Hi. rewrite Hv in Hup, Hlow.
    change (Q_of_float 1) with 1 in Hup. change (Q_of_float (-1)) with (-1 # 1) in Hlow.
    cbn [default from_option] in Hup, Hlow. unfold id in Hup, Hlow.
    apply Qabs_Qle_condition. split; lra.
  - intros Hall. split; [lia|]. intros r a c Ha Hc.
    rewrite !list_lookup_fmap in Ha. rewrite list_lookup_fmap in Hc.
    assert (Hr : (r < 2 * n)%nat).
    { destruct (mat !! r) eqn:Hrow; [|discriminate Ha].
      apply lookup_lt_Some in Hrow. lia. }
    pose proof (Nat.div_mod_eq r 2) as Hdiv.
    assert (Hmod : (r mod 2 = 0 ∨ r mod 2 = 1)%nat)
      by (pose proof (Nat.mod_upper_bound r 2); lia).
    remember (r / 2)%nat as i eqn:Hidef. clear Hidef.
    assert (Hi : (i < n)%nat) by lia.
    destruct (Hrows i Hi) as (Hpos & Hneg & Hbpos & Hbneg).
    destruct (lookup_lt_is_Some_2 s_max i) as [m Hm]; [lia|].
    destruct (lookup_lt_is_Some_2 x i) as [v Hv]; [lia|].
    pose proof (Hall _ v m Hv Hm) as Habs. apply Qabs_Qle_condition in Habs.
    destruct Hmod as [Hmod|Hmod]; rewrite Hmod in Hdiv.
    + replace r with (2 * i)%nat in Ha, Hc by lia.
      rewrite Hpos in Ha. rewrite Hbpos, Hm in Hc.
      injection Ha as <-. injection Hc as <-.
      fold (Qv (<[i := 1%float]> (replicate n 0%float))).
      rewrite dot_unit by exact Hi. rewrite Hv.
      change (Q_of_float 1) with 1. cbn [default from_option]. unfold id. lra.
    + replace r with (2 * i + 1)%nat in Ha, Hc by lia.
      rewrite Hneg in Ha. rewrite Hbneg, Hm in Hc.
      injection Ha as <-. injection Hc as <-.
      fold (Qv (<[i := (-1)%float]> (replicate n 0%float))).
      rewrite dot_unit by exact Hi. rewrite Hv.
      change (Q_of_float (-1)) with (-1 # 1). cbn [default from_option]. unfold id. lra.
Qed.

End box_faces_loop.

(** X15.  For bounds of length [n] the loop of [4-car-platoon.py] and
    [magnetic-pointer.py] returns the cover box [[s_min, s_max]] as it
    stands, and a half-space region that is the symmetric box
    [|x_i| <= s_max[i]]: [s_min] does not enter the region. *)
Theorem box_faces_region (n : nat) (s_min s_max : fvec) (x : vec) :
  length s_min = n → length s_max = n → length x = n →
  (box_faces n s_min s_max).1.2 = s_min ∧
  (box_faces n s_min s_max).2 = s_max ∧
  (in_region (Qm (box_faces n s_min s_max).1.1.1)
             (Qv (box_faces n s_min s_max).1.1.2) x = true ↔
   ∀ i v m, x !! i = Some v → s_max !! i = Some m → Qabs v <= Q_of_float m).
Proof.
  intros Hmin Hmax Hx.
  destruct (box_faces_result n s_min s_max Hmin Hmax)
    as (mat & bias & -> & Hmat & Hbias & Hrows).
  cbn [fst snd]. split; [reflexivity|]. split; [reflexivity|].
  exact (box_faces_in_region n s_min s_max Hmin Hmax mat bias x Hx Hmat Hbias Hrows).
Qed.

(** The box [[-1, 1]^3] of the magnetic pointer at the state
    [(1, -1, 0)]. *)
Lemma box_faces_region_witness :
  in_region (Qm (box_faces 3 magneticpointer.s_min magneticpointer.s_max).1.1.1)
            (Qv (box_faces 3 magneticpointer.s_min magneticpointer.s_max).1.1.2)
            [1; -1; 0] = true.
Proof.
  apply (proj2 (proj2 (box_faces_region 3 magneticpointer.s_min
                         magneticpointer.s_max [1; -1; 0] eq_refl eq_refl eq_refl))).
  intros [|[|[|i]]] v m; cbn; intros [= <-] [= <-];
    apply Qle_bool_iff; vm_compute; reflexivity.
Defined.

(** X16.  With upper bounds that are not negative, the region the loop
    builds lies inside the cover box it builds exactly when
    [s_min[i] <= -s_max[i]] for every [i]: a box that is symmetric about the
    origin passes, one whose lower bound is closer to the origin than its
    upper bound does not. *)
Theorem box_faces_cover_sound_iff (n : nat) (s_min s_max : fvec) (K : fmat) :
  length s_min = n → length s_max = n →
  (∀ i m, s_max !! i = Some m → 0 <= Q_of_float m) →
  cover_sound n
    (mkShieldEntry K
       ((box_faces n s_min s_max).1.1.1, (box_faces n s_min s_max).1.1.2)
       (box_faces n s_min s_max)) ↔
  ∀ i l m, s_min !! i = Some l → s_max !! i = Some m →
           Q_of_float l <= - Q_of_float m.
Proof.
  intros Hmin Hmax Hnonneg. unfold cover_sound, in_cover, in_box.
  cbn [entry_cover].
  destruct (box_faces_result n s_min s_max Hmin Hmax)
    as (mat & bias & -> & Hmat & Hbias & Hrows).
  cbn [fst snd]. split.
  - intros Hsound i l m Hl Hm.
    assert (Hi : (i < n)%nat) by (apply lookup_lt_Some in Hl; lia).
    pose (x := (fun j : nat => if bool_decide (j = i) then - Q_of_float m else 0)
                 <$> seq 0 n).
    assert (Hx : length x = n) by (unfold x; rewrite length_fmap, length_seq; reflexivity).
    assert (Hxj : ∀ j v, x !! j = Some v →
                    v = if bool_decide (j = i) then - Q_of_float m else 0).
    { intros j v Hv. unfold x in Hv. rewrite list_lookup_fmap in Hv.
      destruct (seq 0 n !! j) as [k|] eqn:Hk; [|discriminate Hv].
      apply lookup_seq in Hk as [-> _]. injection Hv as <-. reflexivity. }
    specialize (Hsound x Hx).
    rewrite (box_faces_in_region n s_min s_max Hmin Hmax mat bias x Hx Hmat Hbias Hrows) in Hsound.
    rewrite andb_true_iff, !vec_le_lookup in Hsound.
    destruct Hsound as [[_ Hlow] _].
    + intros j v m' Hv Hm'. rewrite (Hxj j v Hv).
      pose proof (Hnonneg j m' Hm') as Hpos. case_bool_decide as Hj.
      * subst j. rewrite Hm in Hm'. injection Hm' as <-.
        rewrite Qabs_opp, Qabs_pos by exact Hpos. lra.
      * rewrite Qabs_pos by lra. exact Hpos.
    + destruct (lookup_lt_is_Some_2 x i) as [v Hv]; [lia|].
      pose proof (Hxj i v Hv) as Hvi.
      rewrite bool_decide_eq_true_2 in Hvi by reflexivity. subst v.
      apply (Hlow i); [|exact Hv]. unfold Qv. rewrite list_lookup_fmap, Hl. reflexivity.
  - intros Hsym x Hx Hregion.
    rewrite (box_faces_in_region n s_min s_max Hmin Hmax mat bias x Hx Hmat Hbias Hrows) in Hregion.
    rewrite andb_true_iff, !vec_le_lookup. unfold Qv. rewrite !length_fmap.
    split; (split; [lia|]); intros i a c Ha Hc.
    + rewrite list_lookup_fmap in Ha.
      destruct (s_min !! i) as [l|] eqn:Hl; [|discriminate Ha]. injection Ha as <-.
      destruct (lookup_lt_is_Some_2 s_max i) as [m Hm];
        [apply lookup_lt_Some in Hl; lia|].
      pose proof (Hregion i c m Hc Hm) as Habs. apply Qabs_Qle_condition in Habs.
      pose proof (Hsym i l m Hl Hm). lra.
    + rewrite list_lookup_fmap in Hc.
      destruct (s_max !! i) as [m|] eqn:Hm; [|discriminate Hc]. injection Hc as <-.
      pose proof (Hregion i a m Ha Hm) as Habs. apply Qabs_Qle_condition in Habs. lra.
Qed.

(** The box [[-1, 1]^3] of the magnetic pointer is symmetric. *)
Lemma box_faces_cover_sound_iff_witness :
  cover_sound 3
    (mkShieldEntry []
       ((box_faces 3 magneticpointer.s_min magneticpointer.s_max).1.1.1,
        (box_faces 3 magneticpointer.s_min magneticpointer.s_max).1.1.2)
       (box_faces 3 magneticpointer.s_min magneticpointer.s_max)).
Proof.
  apply (proj2 (box_faces_cover_sound_iff 3 magneticpointer.s_min
                  magneticpointer.s_max [] eq_refl eq_refl
                  ltac:(intros [|[|[|i]]] m; cbn; intros [= <-];
                        apply Qle_bool_iff; vm_compute; reflexivity))).
  intros [|[|[|i]]] l m; cbn; intros [= <-] [= <-];
    apply Qle_bool_iff; vm_compute; reflexivity.
Defined.

(** ** The path of the gain matrix, from [train_dir] *)

Lemma rfind_sep_succ_le (p : list ascii) :
  (posixpath.rfind_sep_succ p ≤ length p)%nat.
Proof.
  induction p as [|c p IH]; cbn [posixpath.rfind_sep_succ length]; [lia|].
  destruct (posixpath.rfind_sep_succ p); [|lia].
  destruct (Ascii.eqb c posixpath.sep); lia.
Qed.

Lemma rfind_sep_succ_app_name (d name : list ascii) :
  posixpath.sep ∉ name →
  posixpath.rfind_sep_succ (d ++ name) = posixpath.rfind_sep_succ d.
Proof.
  intros Hno. induction d as [|c d IH]; cbn [app posixpath.rfind_sep_succ].
  - apply rfind_sep_succ_no_sep. exact Hno.
  - rewrite IH. reflexivity.
Qed.

(** The directory component does not depend on a file name appended to the
    path. *)
Lemma split_chars_app_name (d name : list ascii) :
  posixpath.sep ∉ name →
  (posixpath.split_chars (d ++ name)).1 = (posixpath.split_chars d).1.
Proof.
  intros Hno. unfold posixpath.split_chars.
  rewrite rfind_sep_succ_app_name by exact Hno.
  rewrite take_app_le by apply rfind_sep_succ_le. reflexivity.
Qed.

Lemma list_ascii_of_string_app (s t : string) :
  String.list_ascii_of_string (s +:+ t)
  = String.list_ascii_of_string s ++ String.list_ascii_of_string t.
Proof.
  induction s as [|c s IH]; [reflexivity|].
  change (c :: String.list_ascii_of_string (s +:+ t)
          = c :: (String.list_ascii_of_string s ++ String.list_ascii_of_string t)).
  rewrite IH. reflexivity.
Qed.

Lemma split_app_name (train_dir name : string) :
  posixpath.sep ∉ String.list_ascii_of_string name →
  (posixpath.split (train_dir +:+ name)).1 = (posixpath.split train_dir).1.
Proof.
  intros Hno. unfold posixpath.split. cbn [fst].
  rewrite list_ascii_of_string_app, split_chars_app_name by exact Hno. reflexivity.
Qed.

Lemma checkpoint_names_no_sep :
  (posixpath.sep ∉ String.list_ascii_of_string "model.chkp") ∧
  (posixpath.sep ∉ String.list_ascii_of_string "retrained_model.chkp").
Proof.
  split; intros Hin; apply list_elem_of_In in Hin; cbn in Hin;
    repeat (destruct Hin as [Hin|Hin]; [discriminate Hin|]); exact Hin.
Qed.

(** X17.  At every entry point the path of the gain matrix is the directory
    component of [train_dir] followed by [/K.model.npy]: it is the same with
    and without [retrain_nn], and for a [train_dir] without any slash it is
    [/K.model.npy], a file in the root directory. *)
Theorem gain_matrix_path_from_train_dir (e : entry_point) (retrain_nn : bool)
    (train_dir : string) :
  entry_model_path e retrain_nn train_dir
  = (posixpath.split train_dir).1 +:+ "/K.model.npy" ∧
  entry_model_path e retrain_nn train_dir
  = entry_model_path e (negb retrain_nn) train_dir ∧
  (posixpath.sep ∉ String.list_ascii_of_string train_dir →
   entry_model_path e retrain_nn train_dir = "/K.model.npy").
Proof.
  destruct checkpoint_names_no_sep as [Hmodel Hretrained].
  assert (Hpath : ∀ r, entry_model_path e r train_dir
                       = (posixpath.split train_dir).1 +:+ "/K.model.npy").
  { intros r. destruct e, r;
      cbn [entry_model_path negb];
      unfold cruise.model_path, quadcopter.model_path, carplatoon4.model_path,
        magneticpointer.model_path, suspension.model_path, tape.model_path,
        carplatoon8.model_path,
        cruise.args_model_path, quadcopter.args_model_path,
        carplatoon4.args_model_path, magneticpointer.args_model_path,
        suspension.args_model_path, tape.args_model_path,
        carplatoon8.args_model_path;
      cbv zeta; rewrite model_path_pattern, split_app_name by assumption;
      reflexivity. }
  split; [apply Hpath|]. split; [rewrite !Hpath; reflexivity|].
  intros Hno. rewrite Hpath. unfold posixpath.split, posixpath.split_chars.
  rewrite rfind_sep_succ_no_sep by exact Hno. reflexivity.
Qed.

(** ** Initial states and safety bounds *)

Lemma vec_le_trans (u v w : vec) :
  vec_le u v = true → vec_le v w = true → vec_le u w = true.
Proof.
  rewrite !vec_le_lookup. intros [Huv Hall] [Hvw Hall'].
  split; [congruence|]. intros i a c Ha Hc.
  destruct (lookup_lt_is_Some_2 v i) as [b Hb].
  { apply lookup_lt_Some in Ha. lia. }
  exact (Qle_trans _ _ _ (Hall i a b Ha Hb) (Hall' i b c Hb Hc)).
Qed.

Lemma in_box_mono (lower lower' upper upper' x : vec) :
  vec_le lower' lower = true → vec_le upper upper' = true →
  in_box lower upper x = true → in_box lower' upper' x = true.
Proof.
  unfold in_box. rewrite !andb_true_iff. intros Hlow Hup [Hl Hu].
  split; eapply vec_le_trans; eassumption.
Qed.

(** X18.  At every entry point the box of initial states [[s_min, s_max]]
    handed to [Environment] lies inside the box of safe states
    [[x_min, x_max]] handed to it (for the two platoons: after the shift to
    the operating point): every initial state is safe. *)
Theorem initial_states_are_safe (e : entry_point) (x : vec) :
  in_box (Qv (env_s_min (entry_env e))) (Qv (env_s_max (entry_env e))) x = true →
  in_safety_bounds (entry_env e) x = true.
Proof.
  unfold in_safety_bounds. apply in_box_mono; destruct e; vm_compute; reflexivity.
Qed.

(** The state [0.5] of the cruise benchmark. *)
Lemma initial_states_are_safe_witness :
  in_safety_bounds cruise.env [1 # 2] = true.
Proof.
  apply (initial_states_are_safe Cruise [1 # 2]). vm_compute. reflexivity.
Defined.

